(** * traceout: the C expression evaluator, the ring-buffer page decoder,
      the printf adapter hook and the ftrace path check

    A shallow embedding of the Go sources
      - ftrace/cparse (values, integer types, operator evaluation, the
        constructors that fold constants, casts),
      - ftrace/cprintf (munge, mungeConversions),
      - ftrace (decodePage, DecodeEvent, the field decoders, the format
        description parser, the kernel helper functions, the variables of
        an event type, the methods of events, mungePrintfConversions,
        SafeFtracePath and the file providers),
    with the properties of the specification, and further properties of
    the code, stated over it.

    Conventions.  Go's [uint64] is a [Z] in [0, 2^64) with the wrap-around
    written out ([u64]); Go's [int] is a [Z]; a run-time panic is the
    [Panic] outcome; byte slices keep their capacity. *)

From Stdlib Require Import ZArith List String Ascii Bool Lia.
From Stdlib.Strings Require Import Byte.
From Stdlib Require Import DecimalString.
Import ListNotations.
Local Open Scope string_scope.
Local Open Scope Z_scope.
Set Warnings "-register-all".

(** ** Outcomes: a Go call either returns or panics *)

Inductive outcome (A : Type) : Type :=
| Ret (a : A)
| Panic (msg : string).
Arguments Ret {A} a.
Arguments Panic {A} msg.

Definition bind {A B} (m : outcome A) (k : A -> outcome B) : outcome B :=
  match m with
  | Ret a => k a
  | Panic msg => Panic msg
  end.

Notation "x <- m ;; k" := (bind m (fun x => k))
  (at level 61, m at next level, right associativity).

(** ** 64-bit machine arithmetic as Go has it *)

Module Go.

Definition u64 (z : Z) : Z := z mod 2 ^ 64.

(** [int64(x)] for a [uint64] x. *)
Definition int64 (x : Z) : Z :=
  if u64 x <? 2 ^ 63 then u64 x else u64 x - 2 ^ 64.

(** [x << s] on [uint64]; a count of 64 or more gives 0. *)
Definition shl64 (x s : Z) : Z :=
  if 64 <=? s then 0 else u64 (Z.shiftl x s).

(** [x >> s] on [uint64]. *)
Definition shr64 (x s : Z) : Z :=
  if 64 <=? s then 0 else Z.shiftr x s.

(** [^x] on [uint64]. *)
Definition not64 (x : Z) : Z := Z.lxor x (2 ^ 64 - 1).

(** [-x] on [uint64]. *)
Definition neg64 (x : Z) : Z := u64 (- x).

End Go.

(** ** Package cparse *)

Module Cparse.
Import Go.

Inductive valueType := valueInt | valueString | valueList | valueError.

Definition valueType_eqb (a b : valueType) : bool :=
  match a, b with
  | valueInt, valueInt | valueString, valueString
  | valueList, valueList | valueError, valueError => true
  | _, _ => false
  end.

Definition intSize : Z := 4.

Record intType := mkIntType { size : Z; signed : bool }.

Definition intType_eqb (a b : intType) : bool :=
  Bool.eqb (signed a) (signed b) && (size a =? size b).

(** The Go struct [Value]; every field is present whatever [typ] says. *)
Inductive Value :=
  mkValue (typ : valueType) (stringVal : string) (intVal : Z)
          (intTyp : intType) (listVal : list Value).

Definition typ (v : Value) := let 'mkValue t _ _ _ _ := v in t.
Definition stringVal (v : Value) := let 'mkValue _ s _ _ _ := v in s.
Definition intVal (v : Value) := let 'mkValue _ _ i _ _ := v in i.
Definition intTyp (v : Value) := let 'mkValue _ _ _ t _ := v in t.
Definition listVal (v : Value) := let 'mkValue _ _ _ _ l := v in l.

Definition zeroIntType : intType := mkIntType 0 false.
Definition zeroValue : Value := mkValue valueInt "" 0 zeroIntType [].

Definition set_intVal (v : Value) (i : Z) : Value :=
  mkValue (typ v) (stringVal v) i (intTyp v) (listVal v).
Definition set_intType (v : Value) (t : intType) : Value :=
  mkValue (typ v) (stringVal v) (intVal v) t (listVal v).

Definition NewValueError (error : string) : Value :=
  mkValue valueError error 0 zeroIntType [].

Definition IsError (v : Value) : bool := valueType_eqb (typ v) valueError.

Definition NewValueInt (val : Z) (size : Z) (signed : bool) : Value :=
  mkValue valueInt "" val (mkIntType size signed) [].

(** Integer promotion and conversion *)

Definition intPromote (i : intType) : intType :=
  if size i <? intSize then mkIntType intSize true else i.

Definition intResize (i : intType) (sz : Z) : outcome intType :=
  if size i >? sz then Panic "truncating in intResize"
  else Ret (mkIntType sz (signed i)).

Definition intSigned (i : intType) : intType := mkIntType (size i) true.
Definition intUnsigned (i : intType) : intType := mkIntType (size i) false.

Definition intBalance (a b : intType) : outcome (intType * intType) :=
  ab <-
    (if Bool.eqb (signed a) (signed b) && (size a =? size b) then
       Ret (a, b)
     else if Bool.eqb (signed a) (signed b) && (size a >? size b) then
       b' <- intResize b (size a) ;; Ret (a, b')
     else if Bool.eqb (signed a) (signed b) && (size b >? size a) then
       a' <- intResize a (size b) ;; Ret (a', b)
     else if negb (signed a) && (size a >=? size b) then
       b' <- intResize b (size a) ;; Ret (a, intUnsigned b')
     else if negb (signed b) && (size b >=? size a) then
       a' <- intResize a (size b) ;; Ret (intUnsigned a', b)
     else if signed a && (size a >? size b) then
       b' <- intResize b (size a) ;; Ret (a, intSigned b')
     else if signed b && (size b >? size a) then
       a' <- intResize a (size b) ;; Ret (intSigned a', b)
     else if signed a then
       let a' := intUnsigned a in
       b' <- intResize b (size a') ;; Ret (a', b')
     else if signed b then
       let b' := intUnsigned b in
       a' <- intResize a (size b') ;; Ret (a', b')
     else Panic "should never get here") ;;
  let '(a, b) := ab in
  if negb (Bool.eqb (signed a) (signed b)) then
    Panic "signedness mismatch after balancing"
  else if negb (size a =? size b) then
    Panic "size mismatch after balancing"
  else Ret (a, b).

(** [mask := uint64(1<<uint(typ.size*8)) - 1] *)
Definition maskOf (t : intType) : Z := u64 (shl64 1 (u64 (size t * 8)) - 1).
(** [signMask := uint64(1 << uint((typ.size*8)-1))] *)
Definition signMaskOf (t : intType) : Z := shl64 1 (u64 (size t * 8 - 1)).

Definition intSignExtend (val : Z) (t : intType) : Z :=
  if signed t && negb (Z.land val (signMaskOf t) =? 0)
  then Z.lor val (not64 (maskOf t))
  else val.

Definition intClamp (val : Z) (t : intType) : Z := Z.land val (maskOf t).

Definition newValueIntLike (i : Value) (val : Z) : Value :=
  let i := set_intVal i val in
  set_intVal i (intSignExtend (intClamp (intVal i) (intTyp i)) (intTyp i)).

Definition newValueIntCast (i : Value) (t : intType) : Value :=
  let i := set_intType i t in
  set_intVal i (intSignExtend (intClamp (intVal i) (intTyp i)) (intTyp i)).

Definition IsInt (v : Value) : bool := valueType_eqb (typ v) valueInt.
Definition AsInt (v : Value) : Z := int64 (intVal v).
Definition AsUint64 (v : Value) : Z := intClamp (intVal v) (intTyp v).

Definition valueTrue : Value := NewValueInt 1 4 true.
Definition valueFalse : Value := NewValueInt 0 4 true.
Definition NewValueBool (b : bool) : Value := if b then valueTrue else valueFalse.
Definition AsBool (v : Value) : bool := negb (intVal v =? 0).

Definition NewValueString (s : string) : Value :=
  mkValue valueString s 0 zeroIntType [].
Definition IsString (v : Value) : bool := valueType_eqb (typ v) valueString.
Definition NewValueList (vals : list Value) : Value :=
  mkValue valueList "" 0 zeroIntType vals.

(** *** Tokens *)

Inductive tokenType :=
| tokenNone | tokenError
| tokenString | tokenNumber
| tokenSymbol
| tokenPlus | tokenMinus | tokenBoolNot | tokenNot
| tokenMult | tokenDiv | tokenMod
| tokenLeftShift | tokenRightShift
| tokenLess | tokenLessEqual | tokenGreater | tokenGreaterEqual
| tokenEqual | tokenNotEqual
| tokenAnd | tokenXor | tokenOr
| tokenBoolAnd | tokenBoolOr
| tokenQuestion | tokenColon
| tokenLeftParen | tokenRightParen | tokenComma
| tokenLeftBracket | tokenRightBracket.

Record token := mkToken { tok_typ : tokenType; tok_pos : Z; tok_val : string }.

(** *** operatorExpression.Value, after the operands are evaluated

    The body of the method is three [switch] statements over the operator:
    operand checking, operand type conversion, operand evaluation.
    [n] is [len(e.args)]; operands that do not exist are zero Values. *)

Definition checked := option Value.   (* [Some v]: the method returns [v] *)

Definition checkBinary (op : token) (n : Z) (v1 v2 : Value) : checked :=
  if negb (n =? 2) then
    Some (NewValueError ("wrong number of args to " ++ tok_val op))
  else if negb (IsInt v1) then
    Some (NewValueError ("expected integer as left operand to " ++ tok_val op))
  else if negb (IsInt v2) then
    Some (NewValueError ("expected integer as right operand to " ++ tok_val op))
  else None.

Definition operandCheck (op : token) (n : Z) (v1 v2 v3 : Value) : checked :=
  match tok_typ op with
  | tokenNot | tokenBoolNot =>
      if negb (n =? 1) then
        Some (NewValueError ("wrong number of args to " ++ tok_val op))
      else if negb (IsInt v1) then
        Some (NewValueError ("expected integer as left operand to " ++ tok_val op))
      else None
  | tokenPlus | tokenMinus =>
      if n =? 1 then
        if negb (IsInt v1) then
          Some (NewValueError ("expected integer as left operand to " ++ tok_val op))
        else None
      else if negb (n =? 2) then
        Some (NewValueError ("wrong number of args to " ++ tok_val op))
      else checkBinary op n v1 v2
  | tokenMult | tokenDiv | tokenMod
  | tokenLeftShift | tokenRightShift
  | tokenLess | tokenLessEqual | tokenGreater | tokenGreaterEqual
  | tokenEqual | tokenNotEqual
  | tokenAnd | tokenXor | tokenOr
  | tokenBoolAnd | tokenBoolOr => checkBinary op n v1 v2
  | tokenQuestion =>
      if negb (n =? 3) then
        Some (NewValueError ("wrong number of args to " ++ tok_val op))
      else if negb (IsInt v1) then
        Some (NewValueError ("expected integer as operand to " ++ tok_val op))
      else None
  | _ => Some (NewValueError ("unknown operator " ++ tok_val op))
  end.

(** The converted operands, or the Value the method returns at once. *)
Definition converted : Type := (Value * Value * Value) + Value.

Definition convertBalance (v1 v2 v3 : Value) : outcome converted :=
  ab <- intBalance (intPromote (intTyp v1)) (intPromote (intTyp v2)) ;;
  Ret (inl (set_intType v1 (fst ab), set_intType v2 (snd ab), v3)).

Definition operandConvert (op : token) (n : Z) (v1 v2 v3 : Value)
  : outcome converted :=
  match tok_typ op with
  | tokenNot | tokenBoolNot =>
      Ret (inl (set_intType v1 (intPromote (intTyp v1)), v2, v3))
  | tokenPlus | tokenMinus =>
      let v1 := set_intType v1 (intPromote (intTyp v1)) in
      if n =? 1 then Ret (inl (v1, v2, v3))
      else convertBalance v1 v2 v3
  | tokenMult | tokenDiv | tokenMod
  | tokenLess | tokenLessEqual | tokenGreater | tokenGreaterEqual
  | tokenEqual | tokenNotEqual
  | tokenAnd | tokenXor | tokenOr
  | tokenBoolAnd | tokenBoolOr => convertBalance v1 v2 v3
  | tokenLeftShift | tokenRightShift =>
      Ret (inl (set_intType v1 (intPromote (intTyp v1)),
                set_intType v2 (intPromote (intTyp v2)), v3))
  | tokenQuestion =>
      bc <- intBalance (intPromote (intTyp v2)) (intPromote (intTyp v3)) ;;
      Ret (inl (v1, set_intType v2 (fst bc), set_intType v3 (snd bc)))
  | _ => Ret (inr (NewValueError ("unknown operator " ++ tok_val op)))
  end.

(** [v.intVal = uint64(-v.AsInt())] when [v] is signed and negative. *)
Definition magnitude (v : Value) : bool * Value :=
  if signed (intTyp v) && (AsInt v <? 0)
  then (true, set_intVal v (u64 (- AsInt v)))
  else (false, v).

Definition divideByZero : string := "runtime error: integer divide by zero".

Definition operandEval (op : token) (n : Z) (v1 v2 v3 : Value) : outcome Value :=
  match tok_typ op with
  | tokenPlus =>
      if n =? 1 then Ret v1
      else Ret (newValueIntLike v1 (u64 (AsUint64 v1 + AsUint64 v2)))
  | tokenMinus =>
      if n =? 1 then Ret (newValueIntLike v1 (neg64 (AsUint64 v1)))
      else Ret (newValueIntLike v1 (u64 (AsUint64 v1 - AsUint64 v2)))
  | tokenNot => Ret (newValueIntLike v1 (not64 (AsUint64 v1)))
  | tokenBoolNot => Ret (NewValueBool (negb (AsBool v1)))
  | tokenMult => Ret (newValueIntLike v1 (u64 (AsUint64 v1 * AsUint64 v2)))
  | tokenDiv =>
      let '(i1, m1) := magnitude v1 in
      let '(i2, m2) := magnitude v2 in
      let invert := xorb i1 i2 in
      if AsUint64 m2 =? 0 then Panic divideByZero
      else
        let result := AsUint64 m1 / AsUint64 m2 in
        let result := if invert then u64 (- int64 result) else result in
        Ret (newValueIntLike m1 result)
  | tokenMod =>
      let '(i1, m1) := magnitude v1 in
      let '(_, m2) := magnitude v2 in
      let invert := i1 in
      if AsUint64 m2 =? 0 then Panic divideByZero
      else
        let result := AsUint64 m1 mod AsUint64 m2 in
        let result := if invert then u64 (- int64 result) else result in
        Ret (newValueIntLike m1 result)
  | tokenLeftShift => Ret (newValueIntLike v1 (shl64 (AsUint64 v1) (AsUint64 v2)))
  | tokenRightShift => Ret (newValueIntLike v1 (shr64 (AsUint64 v1) (AsUint64 v2)))
  | tokenLess =>
      if signed (intTyp v1) then Ret (NewValueBool (AsInt v1 <? AsInt v2))
      else Ret (NewValueBool (AsUint64 v1 <? AsUint64 v2))
  | tokenLessEqual =>
      if signed (intTyp v1) then Ret (NewValueBool (AsInt v1 <=? AsInt v2))
      else Ret (NewValueBool (AsUint64 v1 <=? AsUint64 v2))
  | tokenGreater =>
      if signed (intTyp v1) then Ret (NewValueBool (AsInt v1 >? AsInt v2))
      else Ret (NewValueBool (AsUint64 v1 >? AsUint64 v2))
  | tokenGreaterEqual =>
      if signed (intTyp v1) then Ret (NewValueBool (AsInt v1 >=? AsInt v2))
      else Ret (NewValueBool (AsUint64 v1 >=? AsUint64 v2))
  | tokenEqual => Ret (NewValueBool (AsUint64 v1 =? AsUint64 v2))
  | tokenNotEqual => Ret (NewValueBool (negb (AsUint64 v1 =? AsUint64 v2)))
  | tokenAnd => Ret (newValueIntLike v1 (Z.land (AsUint64 v1) (AsUint64 v2)))
  | tokenXor => Ret (newValueIntLike v1 (Z.lxor (AsUint64 v1) (AsUint64 v2)))
  | tokenOr => Ret (newValueIntLike v1 (Z.lor (AsUint64 v1) (AsUint64 v2)))
  | tokenBoolAnd => Ret (NewValueBool (AsBool v1 && AsBool v2))
  | tokenBoolOr => Ret (NewValueBool (AsBool v1 || AsBool v2))
  | tokenQuestion => if AsBool v1 then Ret v2 else Ret v3
  | _ => Ret (NewValueError ("unknown operator " ++ tok_val op))
  end.

Definition operatorApply (op : token) (n : Z) (v1 v2 v3 : Value) : outcome Value :=
  match operandCheck op n v1 v2 v3 with
  | Some err => Ret err
  | None =>
      c <- operandConvert op n v1 v2 v3 ;;
      match c with
      | inr err => Ret err
      | inl (v1, v2, v3) => operandEval op n v1 v2 v3
      end
  end.

(** *** Dump of values (used in error messages) *)

Definition quote : string := String (ascii_of_nat 34) EmptyString.

(** [strconv.FormatInt(z, 10)] *)
Definition formatZ (z : Z) : string := NilZero.string_of_int (Z.to_int z).

Definition intType_dump (i : intType) : string :=
  (if signed i then "" else "u") ++ "int" ++ formatZ (int64 (size i * 8)).

Fixpoint join (sep : string) (l : list string) : string :=
  match l with
  | [] => ""
  | [x] => x
  | x :: r => x ++ sep ++ join sep r
  end.

Fixpoint Value_dump (v : Value) : string :=
  match v with
  | mkValue valueInt _ i t _ =>
      "(" ++ intType_dump t ++ ")" ++
      (if signed t then formatZ (int64 i) else formatZ (intClamp i t))
  | mkValue valueString s _ _ _ => quote ++ s ++ quote
  | mkValue valueList _ _ _ l => "{" ++ join ", " (map Value_dump l) ++ "}"
  | mkValue valueError s _ _ _ => "value error: " ++ s
  end.

(** *** Expressions

    [Variable_] and [Function_] stand for the Go interfaces Variable and
    Function, implemented by the caller of
    the package; here they are handle types with their [Get] methods.  Only
    [newConstantExpression] sets [expressionBase.constant], so [IsConstant]
    is decided by the variant. *)

Section Expressions.

Context {EvalContext Variable_ Function_ : Type}.
Context (VariableGet : Variable_ -> EvalContext -> outcome Value).
Context (FunctionGet : Function_ -> EvalContext -> list Value -> outcome Value).

Inductive Expression :=
| operatorExpression (operator : token) (args : list Expression)
| listExpression (vals : list Expression)
| structExpression (exp : Expression)
| constantExpression (exp : option Expression) (val : Value)
| variableExpression (variable : option Variable_) (name : string)
| functionExpression (function : option Function_) (name : string)
                     (args : list Expression)
| typeExpression (ty : intType)
| castExpression (ty : intType) (val : option Expression).

Definition IsConstant (e : Expression) : bool :=
  match e with
  | constantExpression _ _ => true
  | _ => false
  end.

Fixpoint Expression_Value (e : Expression) (ctx : EvalContext) {struct e} : outcome Value :=
  match e with
  | operatorExpression op args =>
      let n := Z.of_nat (List.length args) in
      match args with
      | [] => operatorApply op n zeroValue zeroValue zeroValue
      | a1 :: r1 =>
          v1 <- Expression_Value a1 ctx ;;
          if IsError v1 then Ret v1 else
          match r1 with
          | [] => operatorApply op n v1 zeroValue zeroValue
          | a2 :: r2 =>
              v2 <- Expression_Value a2 ctx ;;
              if IsError v2 then Ret v2 else
              match r2 with
              | [] => operatorApply op n v1 v2 zeroValue
              | a3 :: _ =>
                  v3 <- Expression_Value a3 ctx ;;
                  if IsError v3 then Ret v3 else
                  operatorApply op n v1 v2 v3
              end
          end
      end
  | listExpression vals =>
      vs <- (fix each (l : list Expression) : outcome (list Value) :=
               match l with
               | [] => Ret []
               | a :: r =>
                   v <- Expression_Value a ctx ;; vs <- each r ;; Ret (v :: vs)
               end) vals ;;
      Ret (NewValueList vs)
  | structExpression exp => Expression_Value exp ctx
  | constantExpression _ val => Ret val
  | variableExpression variable name =>
      match variable with
      | None => Ret (NewValueError ("unknown variable " ++ name))
      | Some x => VariableGet x ctx
      end
  | functionExpression function name args =>
      r <- (fix each (l : list Expression) : outcome (list Value + Value) :=
              match l with
              | [] => Ret (inl [])
              | a :: r =>
                  v <- Expression_Value a ctx ;;
                  if IsError v then Ret (inr v) else
                  vs <- each r ;;
                  match vs with
                  | inl vs => Ret (inl (v :: vs))
                  | inr err => Ret (inr err)
                  end
              end) args ;;
      match r with
      | inr err => Ret err
      | inl argValues =>
          match function with
          | None => Ret (NewValueError ("unknown kernel function " ++ name))
          | Some f => FunctionGet f ctx argValues
          end
      end
  | typeExpression _ => Ret (NewValueError "type expression has no value")
  | castExpression ty val =>
      match val with
      | None => Ret (NewValueError "cast expression evaluated without a value")
      | Some e' =>
          v <- Expression_Value e' ctx ;;
          if negb (IsInt v) then
            Ret (NewValueError ("cast applied to non-integer " ++ Value_dump v))
          else Ret (newValueIntCast v ty)
      end
  end.

Definition newFunctionExpression (function : option Function_) (name : string)
  (args : list Expression) : Expression :=
  functionExpression function name args.

(** [CallFunction] of the package interface. *)
Definition CallFunction (function : option Function_) (name : string)
  (args : list Expression) : Expression :=
  newFunctionExpression function name args.

Definition newConstantExpression (exp : option Expression) (val : Value)
  : Expression := constantExpression exp val.

End Expressions.

End Cparse.

(** ** Package ftrace *)

Module Ftrace.
Import Go.

(** *** Byte slices

    A Go slice is a window on a backing array: [arr] holds the bytes from
    the start of the slice up to its capacity, [len] of them are visible. *)

Record slice := mkSlice { arr : list byte; len : Z }.

Definition cap (s : slice) : Z := Z.of_nat (List.length (arr s)).
Definition bytes (s : slice) : list byte := firstn (Z.to_nat (len s)) (arr s).

Definition sliceOf (l : list byte) : slice := mkSlice l (Z.of_nat (List.length l)).

Definition boundsPanic : string := "runtime error: slice bounds out of range".
Definition indexPanic : string := "runtime error: index out of range".

(** [s[lo:hi]] *)
Definition reslice (s : slice) (lo hi : Z) : outcome slice :=
  if (0 <=? lo) && (lo <=? hi) && (hi <=? cap s)
  then Ret (mkSlice (skipn (Z.to_nat lo) (arr s)) (hi - lo))
  else Panic boundsPanic.

(** [s[lo:]] *)
Definition resliceFrom (s : slice) (lo : Z) : outcome slice := reslice s lo (len s).
(** [s[:hi]] *)
Definition resliceTo (s : slice) (hi : Z) : outcome slice := reslice s 0 hi.

Definition byteZ (b : byte) : Z := Z.of_N (Byte.to_N b).

(** Little-endian value of a list of bytes. *)
Fixpoint le (l : list byte) : Z :=
  match l with
  | [] => 0
  | b :: r => byteZ b + 256 * le r
  end.

(** [s[i]] *)
Definition index (s : slice) (i : Z) : outcome byte :=
  if (0 <=? i) && (i <? len s)
  then match nth_error (arr s) (Z.to_nat i) with
       | Some b => Ret b
       | None => Panic indexPanic
       end
  else Panic indexPanic.

(** [binary.LittleEndian.UintN(b)]: panics when [b] is shorter than N/8. *)
Definition orderUint (n : Z) (b : slice) : outcome Z :=
  if len b <? n then Panic indexPanic
  else Ret (le (firstn (Z.to_nat n) (arr b))).

Definition Uint16 := orderUint 2.
Definition Uint32 := orderUint 4.
Definition Uint64 := orderUint 8.

(** *** Event types and events *)

Record eventField := mkEventField {
  fname : string;
  fsize : Z;
  foffset : Z;
  fsigned : bool;
  farray : bool;
  ftype : string;
  dataloc : bool
}.

(** [EventType] without [path], [formatter] and [fileProvider], which the
    decoder does not read. *)
Record EventType := mkEventType {
  name : string;
  id : Z;
  fields : list eventField;
  size : Z;
  pidField : Z;
  flagsField : Z;
  preemptField : Z
}.

Record eventFieldValue := mkEventFieldValue {
  field : eventField;
  contents : slice
}.

Inductive what :=
| whatText (s : string)
  (** [fmt.Sprintf("Not enough data (%d, 0x%x) for len (%d, 0x%x) pageLen %x
      pageOffset+pageLen %x", ...)], kept as its arguments *)
| whatNotEnoughData (lenData dataLen pageLen pageEnd : Z).

Inductive error :=
| BadEventData
| BadPageHeader
| BadEventHeader (What : what) (Page : list byte) (Offset : Z)
  (** [fmt.Errorf("unknown type ID: %d (0x%x)", typeId, typeId)] *)
| unknownTypeID (typeId : Z).

(** [Event] without the back pointer [ftrace], which decoding only sets. *)
Record Event := mkEvent {
  etype : EventType;
  values : list eventFieldValue;
  Cpu : Z;
  When : Z;
  Pid : Z;
  Flags : Z;
  Preempt : Z;
  econtents : slice
}.

(** [etype.finishNewType()]: the size is the largest [offset+size]. *)
Definition finishNewType (et : EventType) : EventType :=
  mkEventType (name et) (id et) (fields et)
    (fold_left (fun sz f => if sz <? foffset f + fsize f
                            then foffset f + fsize f else sz)
               (fields et) (size et))
    (pidField et) (flagsField et) (preemptField et).

Definition DecodeUint (v : eventFieldValue) : outcome Z :=
  match fsize (field v) with
  | 1 => b <- index (contents v) 0 ;; Ret (byteZ b)
  | 2 => Uint16 (contents v)
  | 4 => Uint32 (contents v)
  | 8 => Uint64 (contents v)
  | _ => Ret 0
  end.

(** Sign extension of an [n]-bit quantity, as [int64(intN(x))]. *)
Definition sext (n x : Z) : Z := if x <? 2 ^ (n - 1) then x else x - 2 ^ n.

Definition DecodeInt (v : eventFieldValue) : outcome Z :=
  match fsize (field v) with
  | 1 => b <- index (contents v) 0 ;; Ret (sext 8 (byteZ b))
  | 2 => x <- Uint16 (contents v) ;; Ret (sext 16 x)
  | 4 => x <- Uint32 (contents v) ;; Ret (sext 32 x)
  | 8 => x <- Uint64 (contents v) ;; Ret (sext 64 x)
  | _ => Ret 0
  end.

(** [values[i]] on a Go slice of field values. *)
Definition valueAt (vs : list eventFieldValue) (i : Z) : outcome eventFieldValue :=
  if (0 <=? i) && (i <? Z.of_nat (List.length vs))
  then match nth_error vs (Z.to_nat i) with
       | Some v => Ret v
       | None => Panic indexPanic
       end
  else Panic indexPanic.

Fixpoint sliceFields (data : slice) (fs : list eventField)
  : outcome (list eventFieldValue) :=
  match fs with
  | [] => Ret []
  | f :: r =>
      c <- reslice data (foffset f) (foffset f + fsize f) ;;
      vs <- sliceFields data r ;;
      Ret (mkEventFieldValue f c :: vs)
  end.

Definition DecodeEvent (et : EventType) (data : slice) (cpu : Z) (when : Z)
  : outcome (Event + error) :=
  if len data <? size et then Ret (inr BadEventData)
  else
    vs <- sliceFields data (fields et) ;;
    pv <- valueAt vs (pidField et) ;;
    pid <- DecodeInt pv ;;
    fv <- valueAt vs (flagsField et) ;;
    flags <- DecodeUint fv ;;
    qv <- valueAt vs (preemptField et) ;;
    preempt <- DecodeInt qv ;;
    Ret (inl (mkEvent et vs cpu when pid flags preempt data)).

(** *** The page decoder *)

Definition entryTypeDataMax : Z := 28.
Definition entryTypePadding : Z := 29.
Definition entryTypeTimeExt : Z := 30.
Definition entryTypeLenBits : Z := 5.
Definition entryTimeDeltaBits : Z := 27.
Definition entryTypeLenShift : Z := 0.
Definition entryTimeDeltaShift : Z := entryTypeLenBits.
Definition entryTypeLenMask : Z := Z.shiftl 1 entryTypeLenBits - 1.
Definition entryTimeDeltaMask : Z := Z.shiftl 1 entryTimeDeltaBits - 1.

(** [Ftrace], the fields the decoder reads; [eventTypes] is the map from
    type ids to registered event types. *)
Record ftrace := mkFtrace {
  eventTypes : Z -> option EventType;
  pageHeader : EventType;
  pageHeaderFieldTimestamp : Z;
  pageHeaderFieldCommit : Z;
  pageHeaderFieldData : Z
}.

Definition Events := list Event.

(** The variables the [dataLoop] carries from one entry to the next. *)
Record loopState := mkLoopState {
  when : Z;
  data : slice;
  events : Events;
  lazyErr : option error
}.

Inductive step :=
| Continue (st : loopState)
| Return (events : Events) (err : option error).

(** One pass through the body of [dataLoop], entered with [len(data) > 0]. *)
Definition loopBody (f : ftrace) (cpu : Z) (fullData : slice)
  (pageLen pageOffset : Z) (st : loopState) : outcome step :=
  let data := data st in
  if len data <? 4 then Ret (Return (events st) (Some BadPageHeader))
  else
    let offset := cap fullData - cap data in
    entryHeader <- Uint32 data ;;
    data <- resliceFrom data 4 ;;
    let typeLen := Z.land (Z.shiftr entryHeader entryTypeLenShift) entryTypeLenMask in
    let timeDelta :=
      Z.land (Z.shiftr entryHeader entryTimeDeltaShift) entryTimeDeltaMask in
    if typeLen <=? entryTypeDataMax then
      let when := u64 (when st + timeDelta) in
      r <- (if typeLen =? 0 then
              if len data <? 4 then
                Ret (inr (BadEventHeader
                            (whatText "Not enough data for type len == 0")
                            (bytes fullData) offset))
              else
                dataLen <- Uint32 data ;;
                data <- resliceFrom data 4 ;;
                Ret (inl (dataLen, data))
            else Ret (inl (typeLen * 4, data))) ;;
      match r with
      | inr err => Ret (Return (events st) (Some err))
      | inl (dataLen, data) =>
          if (len data <? dataLen) || (dataLen <? 2) then
            Ret (Return (events st)
                   (Some (BadEventHeader
                            (whatNotEnoughData (len data) dataLen pageLen
                                               (pageOffset + pageLen))
                            (bytes fullData) offset)))
          else
            eventData <- resliceTo data dataLen ;;
            data <- resliceFrom data (Z.ldiff (dataLen + 3) 3) ;;
            typeId <- Uint16 eventData ;;
            match eventTypes f typeId with
            | None =>
                Ret (Continue (mkLoopState when data (events st)
                                 (Some (unknownTypeID typeId))))
            | Some et =>
                d <- DecodeEvent et eventData cpu when ;;
                match d with
                | inr err =>
                    Ret (Continue (mkLoopState when data (events st) (Some err)))
                | inl event =>
                    Ret (Continue (mkLoopState when data
                                     (events st ++ [event])%list (lazyErr st)))
                end
            end
      end
    else if typeLen =? entryTypePadding then
      if timeDelta =? 0 then Ret (Return (events st) (lazyErr st))
      else if len data <? 4 then
        Ret (Return (events st)
               (Some (BadEventHeader (whatText "Not enough data for type padding")
                                     (bytes fullData) offset)))
      else
        padding <- Uint32 data ;;
        data <- resliceFrom data padding ;;
        Ret (Continue (mkLoopState (when st) data (events st) (lazyErr st)))
    else if typeLen =? entryTypeTimeExt then
      if len data <? 4 then
        Ret (Return (events st)
               (Some (BadEventHeader (whatText "Not enough data for type time ext")
                                     (bytes fullData) offset)))
      else
        timeDeltaExt <- Uint32 data ;;
        data <- resliceFrom data 4 ;;
        let timeDelta := u64 (timeDelta + u64 (Z.shiftl timeDeltaExt entryTimeDeltaBits)) in
        Ret (Continue (mkLoopState (u64 (when st + timeDelta)) data
                         (events st) (lazyErr st)))
    else Ret (Continue (mkLoopState (when st) data (events st) (lazyErr st))).

(** [for len(data) > 0 { ... }; err = lazyErr; return].  [None] only when
    the fuel runs out, which [dataLoop_fuel] below excludes. *)
Fixpoint dataLoop (fuel : nat) (f : ftrace) (cpu : Z) (fullData : slice)
  (pageLen pageOffset : Z) (st : loopState)
  : option (outcome (Events * option error)) :=
  if len (data st) >? 0 then
    match fuel with
    | O => None
    | S fuel =>
        match loopBody f cpu fullData pageLen pageOffset st with
        | Panic msg => Some (Panic msg)
        | Ret (Return evs err) => Some (Ret (evs, err))
        | Ret (Continue st') => dataLoop fuel f cpu fullData pageLen pageOffset st'
        end
    end
  else Some (Ret (events st, lazyErr st)).

(** What [decodePage] reads from the page header before the loop. *)
Definition pagePrologue (f : ftrace) (data : slice)
  : outcome ((Z * Z * Z) + error) :=
  p <- DecodeEvent (pageHeader f) data 0 0 ;;
  match p with
  | inr err => Ret (inr err)
  | inl page =>
      tv <- valueAt (values page) (pageHeaderFieldTimestamp f) ;;
      when <- DecodeUint tv ;;
      cv <- valueAt (values page) (pageHeaderFieldCommit f) ;;
      commit <- DecodeUint cv ;;
      let pageLen := int64 (Z.land commit (Z.shiftl 1 30 - 1)) in
      dv <- valueAt (values page) (pageHeaderFieldData f) ;;
      let pageOffset := foffset (field dv) in
      Ret (inl (when, pageLen, pageOffset))
  end.

Definition decodePage (f : ftrace) (cpu : Z) (data : slice)
  : option (outcome (Events * option error)) :=
  match pagePrologue f data with
  | Panic msg => Some (Panic msg)
  | Ret (inr err) => Some (Ret ([], Some err))
  | Ret (inl (when, pageLen, pageOffset)) =>
      if (pageLen <? 0) || (len data <? pageOffset + pageLen) then
        Some (Ret ([], Some BadPageHeader))
      else
        match reslice data 0 (pageOffset + pageLen) with
        | Panic msg => Some (Panic msg)
        | Ret fullData =>
            match reslice data pageOffset (pageOffset + pageLen) with
            | Panic msg => Some (Panic msg)
            | Ret data =>
                dataLoop (S (Z.to_nat (len data))) f cpu fullData pageLen
                  pageOffset (mkLoopState when data [] None)
            end
        end
  end.

(** *** Kernel helpers and the printf conversion hook *)

Inductive kernelFunc :=
| printFlags | printSymbolic | getString
| printkFunctionPointer | printkFunctionPointerOffset | printkKernelSymbol.

(** The map [kernelFunctions], key by key. *)
Definition kernelFunctions (name : string) : option kernelFunc :=
  if String.eqb name "__print_flags" then Some printFlags
  else if String.eqb name "__print_symbolic" then Some printSymbolic
  else if String.eqb name "__get_str" then Some getString
  else if String.eqb name "__printk_pf" then Some printkFunctionPointer
  else if String.eqb name "__printk_pF" then Some printkFunctionPointerOffset
  else if String.eqb name "__printk_pk" then Some printkKernelSymbol
  else None.

(** The implementations of [cparse.Function] and [cparse.Variable] in
    packages ftrace and cprintf. *)
Inductive function :=
| eventFunction (f : kernelFunc)
| printfFunction (format : string).

Inductive variable :=
| eventVariable (fieldNum : Z)
| constantVariable (value : Cparse.Value).

Definition Expression : Type := @Cparse.Expression variable function.

(** [cprintf.Conversion]; its [Scope] field is never set and is left out. *)
Record Conversion := mkConversion {
  conversion : ascii;
  Modifiers : string;
  Suffix : string;
  Arg : Expression
}.

Definition byteString (c : ascii) : string := String c EmptyString.

Definition mungePrintfConversions (c : Conversion) : Conversion :=
  match Suffix c with
  | String pointerModifier rest =>
      if Ascii.eqb (conversion c) "p" &&
         (Ascii.eqb pointerModifier "f" || Ascii.eqb pointerModifier "F"
          || Ascii.eqb pointerModifier "K")
      then
        let name :=
          if Ascii.eqb pointerModifier "f" then "__printk_pf"
          else if Ascii.eqb pointerModifier "F" then "__printk_pF"
          else "__printk_pK" in
        match kernelFunctions name with
        | None =>
            mkConversion (conversion c) (Modifiers c)
              ("FAILED POINTER MODIFIER " ++ byteString pointerModifier ++ " " ++ rest)
              (Arg c)
        | Some function =>
            mkConversion "s" ""  rest
              (Cparse.CallFunction (Some (eventFunction function)) name [Arg c])
        end
      else c
  | EmptyString => c
  end.

(** *** File access *)

Definition ftracePath : string := "/sys/kernel/debug/tracing".

(** [strings.Split(s, string(sep))] *)
Fixpoint Split (sep : ascii) (s : string) : list string :=
  match s with
  | EmptyString => [EmptyString]
  | String c r =>
      if Ascii.eqb c sep then EmptyString :: Split sep r
      else match Split sep r with
           | h :: t => String c h :: t
           | [] => [String c EmptyString]
           end
  end.

(** [filepath.SplitList] on Unix: the list separator is [':']. *)
Definition SplitList (path : string) : list string :=
  if String.eqb path "" then [] else Split ":" path.

Definition SafeFtracePath (path : string) : bool :=
  forallb (fun d => negb (String.eqb d "..")) (SplitList path).

(** What a provider call does: it fails with [BadFtraceFileName], or it
    goes to the file system with [path.Join(ftracePath, filename)]. *)
Inductive fsCall :=
| ReadFile (dir filename : string)
| WriteFile (dir filename : string) (data : list byte)
| Open (dir filename : string).

Inductive providerResult :=
| BadFtraceFileName
| FileSystem (call : fsCall).

Definition ReadFtraceFile (filename : string) : providerResult :=
  if negb (SafeFtracePath filename) then BadFtraceFileName
  else FileSystem (ReadFile ftracePath filename).

Definition WriteFtraceFile (filename : string) (data : list byte) : providerResult :=
  if negb (SafeFtracePath filename) then BadFtraceFileName
  else FileSystem (WriteFile ftracePath filename data).

Definition OpenFtrace (filename : string) : providerResult :=
  if negb (SafeFtracePath filename) then BadFtraceFileName
  else FileSystem (Open ftracePath filename).

End Ftrace.

(** ** Specification vocabulary *)

Module Spec.
Import Go Cparse.

(** The storage widths of the C integer types. *)
Definition validSize (w : Z) : Prop := w = 1 \/ w = 2 \/ w = 4 \/ w = 8.

Definition bitsOf (t : intType) : Z := 8 * size t.

(** The C value a bit pattern denotes when it is read at type [t]. *)
Definition cvalue (t : intType) (p : Z) : Z :=
  let m := p mod 2 ^ bitsOf t in
  if signed t && (2 ^ (bitsOf t - 1) <=? m) then m - 2 ^ bitsOf t else m.

(** The stored pattern of the value [z] wrapped into type [t]. *)
Definition encode (t : intType) (z : Z) : Z := u64 (cvalue t z).

(** The values of type [t]. *)
Definition inRange (t : intType) (x : Z) : Prop :=
  if signed t then - 2 ^ (bitsOf t - 1) <= x < 2 ^ (bitsOf t - 1)
  else 0 <= x < 2 ^ bitsOf t.

(** A stored pattern is canonical when it is the 64-bit two's complement
    form of the value it denotes. *)
Definition canonical (v : Value) : Prop :=
  intVal v = encode (intTyp v) (intVal v).

(** The invariant of the data model, bit by bit. *)
Definition normalized (t : intType) (p : Z) : Prop :=
  0 <= p < 2 ^ 64 /\
  (signed t = false -> forall i, bitsOf t <= i -> Z.testbit p i = false) /\
  (signed t = true -> Z.testbit p (bitsOf t - 1) = true ->
   forall i, bitsOf t - 1 <= i < 64 -> Z.testbit p i = true) /\
  (signed t = true -> Z.testbit p (bitsOf t - 1) = false ->
   forall i, bitsOf t - 1 <= i -> Z.testbit p i = false).

(** Promotion and balancing as the specification words them. *)

Definition spec_promote (t : intType) : intType :=
  if size t <? 4 then mkIntType 4 true else t.

(** Every value of the unsigned type [u] is a value of the signed type [s]. *)
Definition represents (s u : intType) : bool :=
  2 ^ bitsOf u - 1 <=? 2 ^ (bitsOf s - 1) - 1.

(** The common type of two operands. *)
Definition spec_balance (a b : intType) : intType :=
  if intType_eqb a b then a
  else if Bool.eqb (signed a) (signed b) then
    mkIntType (Z.max (size a) (size b)) (signed a)
  else
    let u := if signed a then b else a in
    let s := if signed a then a else b in
    if size s <=? size u then mkIntType (Z.max (size a) (size b)) false
    else if represents s u then mkIntType (size s) true
    else mkIntType (size s) false.

(** The binary operators that balance their operands. *)
Definition balancing (t : tokenType) : bool :=
  match t with
  | tokenPlus | tokenMinus | tokenMult | tokenDiv | tokenMod
  | tokenLess | tokenLessEqual | tokenGreater | tokenGreaterEqual
  | tokenEqual | tokenNotEqual
  | tokenAnd | tokenXor | tokenOr
  | tokenBoolAnd | tokenBoolOr => true
  | _ => false
  end.

(** Those of them whose result has the operands' common type. *)
Definition arithmetic (t : tokenType) : bool :=
  match t with
  | tokenPlus | tokenMinus | tokenMult | tokenDiv | tokenMod
  | tokenAnd | tokenXor | tokenOr => true
  | _ => false
  end.

(** Operator tokens and integer literals, for concrete expressions. *)
Definition opToken (t : tokenType) (s : string) : token := mkToken t 0 s.

Section Literals.
Context {Variable_ Function_ : Type}.

(** The constant expression of an [int] literal. *)
Definition lit (z : Z) : @Expression Variable_ Function_ :=
  constantExpression None (NewValueInt z 4 true).

(** The constant expression of an [unsigned int] literal. *)
Definition litU (z : Z) : @Expression Variable_ Function_ :=
  constantExpression None (NewValueInt z 4 false).

Definition unary (t : tokenType) (s : string) (e : @Expression Variable_ Function_)
  : @Expression Variable_ Function_ := operatorExpression (opToken t s) [e].

Definition binary (t : tokenType) (s : string) (a b : @Expression Variable_ Function_)
  : @Expression Variable_ Function_ := operatorExpression (opToken t s) [a; b].

Definition ternary (a b c : @Expression Variable_ Function_)
  : @Expression Variable_ Function_ :=
  operatorExpression (opToken tokenQuestion "?") [a; b; c].
End Literals.

(** Evaluation of a closed expression: no variables, no functions. *)
Definition evalConst (e : @Expression Empty_set Empty_set) : outcome Value :=
  Expression_Value (EvalContext := unit)
    (fun (x : Empty_set) _ => match x with end)
    (fun (f : Empty_set) _ _ => match f with end) e tt.

(** The operators whose result is built by [newValueIntLike], and those
    that yield a boolean. *)
Definition renormalizing (t : tokenType) (n : Z) : bool :=
  match t with
  | tokenPlus => n =? 2
  | tokenMinus | tokenNot | tokenBoolNot
  | tokenMult | tokenDiv | tokenMod
  | tokenLeftShift | tokenRightShift
  | tokenLess | tokenLessEqual | tokenGreater | tokenGreaterEqual
  | tokenEqual | tokenNotEqual
  | tokenAnd | tokenXor | tokenOr
  | tokenBoolAnd | tokenBoolOr => true
  | _ => false
  end.

End Spec.

(** ** Pages and event types for concrete runs *)

Module Fixtures.
Import Ftrace.

Definition byteOf (z : Z) : byte :=
  match Byte.of_N (Z.to_N (z mod 256)) with
  | Some b => b
  | None => x00
  end.

(** The [n] little-endian bytes of [z]. *)
Fixpoint leBytes (n : nat) (z : Z) : list byte :=
  match n with
  | O => []
  | S n => byteOf z :: leBytes n (z / 256)
  end.

(** The header word of a ring-buffer entry. *)
Definition entryWord (typeLen timeDelta : Z) : list byte :=
  leBytes 4 (typeLen + 32 * timeDelta).

(** The [n] bytes of [s] from offset [lo]. *)
Definition window (s : slice) (lo n : Z) : list byte :=
  firstn (Z.to_nat n) (skipn (Z.to_nat lo) (arr s)).

(** [events/header_page] of a 4096-byte page, as [NewHeaderType] builds it. *)
Definition headerPage : EventType :=
  finishNewType (mkEventType "" 0
    [ mkEventField "timestamp" 8 0 false false "u64" false;
      mkEventField "commit" 8 8 true false "local_t" false;
      mkEventField "overwrite" 1 8 true false "int" false;
      mkEventField "data" 4080 16 true false "char" false ] 0 0 0 0).

(** An event type with the four common fields, as [newEventType] builds it. *)
Definition sampleType : EventType :=
  finishNewType (mkEventType "sample" 7
    [ mkEventField "common_type" 2 0 false false "unsigned short" false;
      mkEventField "common_flags" 1 2 false false "unsigned char" false;
      mkEventField "common_preempt_count" 1 3 false false "unsigned char" false;
      mkEventField "common_pid" 4 4 true false "int" false ] 0 3 1 2).

Definition sampleFtrace : ftrace :=
  mkFtrace (fun i => if i =? 7 then Some sampleType else None) headerPage 0 1 3.

(** A page read from the raw pipe: time stamp, commit, entries, zero fill. *)
Definition mkPage (base : Z) (entries : list byte) : slice :=
  sliceOf (leBytes 8 base ++ leBytes 8 (Z.of_nat (List.length entries)) ++ entries
           ++ repeat x00 (4080 - List.length entries))%list.

(** A record of [sampleType]: type 7, flags 1, preempt count 2, pid -5. *)
Definition sampleRecord : list byte :=
  (leBytes 2 7 ++ leBytes 1 1 ++ leBytes 1 2 ++ leBytes 4 (-5))%list.

(** Time extend (low 1, high 0), then one event with time delta 2. *)
Definition extendPage : slice :=
  mkPage 1000 (entryWord 30 1 ++ leBytes 4 0 ++ entryWord 2 2 ++ sampleRecord)%list.

(** A padding entry with time delta 1 whose length word (65535) is larger
    than what is left of the page. *)
Definition paddingOverrunPage : slice :=
  mkPage 1000 (entryWord 29 1 ++ leBytes 4 65535)%list.

(** An entry of extended length (type_len 0) whose length word says 5, with
    5 bytes left: the rounded length 8 is past the end. *)
Definition unalignedTailPage : slice :=
  mkPage 1000 (entryWord 0 1 ++ leBytes 4 5 ++ leBytes 5 7)%list.

(** A page that starts with the padding terminator. *)
Definition terminatedPage : slice :=
  mkPage 1000 (entryWord 29 0 ++ entryWord 2 0 ++ sampleRecord)%list.

(** The time stamps of the decoded events, with the error. *)
Definition timestamps (r : option (outcome (Events * option error)))
  : option (list Z * option error) :=
  match r with
  | Some (Ret (evs, err)) => Some (map When evs, err)
  | _ => None
  end.

End Fixtures.


(** ** Package cparse: the constructors that fold constants *)

Module CparseFold.
Import Go Cparse.

Section Folding.
Context {EvalContext Variable_ Function_ : Type}.
Context (VariableGet : Variable_ -> EvalContext -> outcome Value).
Context (FunctionGet : Function_ -> EvalContext -> list Value -> outcome Value).
(** The [nil] evaluation context, with which constants are evaluated. *)
Context (nilCtx : EvalContext).

Definition listIsConstants (l : list (@Expression Variable_ Function_)) : bool :=
  forallb IsConstant l.

Definition toConstant (e : @Expression Variable_ Function_)
  : outcome (@Expression Variable_ Function_) :=
  v <- Expression_Value VariableGet FunctionGet e nilCtx ;;
  Ret (newConstantExpression (Some e) v).

Definition newOperatorExpression (operator : token)
  (args : list (@Expression Variable_ Function_))
  : outcome (@Expression Variable_ Function_) :=
  let e := operatorExpression operator args in
  if listIsConstants args then toConstant e else Ret e.

Definition newListExpression (left right : @Expression Variable_ Function_)
  : outcome (@Expression Variable_ Function_) :=
  let vals :=
    ((match left with listExpression l => l | _ => [left] end) ++
     (match right with listExpression l => l | _ => [right] end))%list in
  let e := listExpression vals in
  if listIsConstants vals then toConstant e else Ret e.

Definition newCastExpression (t : intType) (val : @Expression Variable_ Function_)
  : outcome (@Expression Variable_ Function_) :=
  let e := castExpression t (Some val) in
  if IsConstant val then toConstant e else Ret e.

(** [CastExpression] of the package interface. *)
Definition CastExpression (val : @Expression Variable_ Function_)
  (size : Z) (signed : bool) : outcome (@Expression Variable_ Function_) :=
  newCastExpression (mkIntType size signed) val.

End Folding.

End CparseFold.

(** ** More specification vocabulary *)

Module SpecMore.
Import Go Cparse.

Section EvalList.
Context {EvalContext Variable_ Function_ : Type}.
Context (VariableGet : Variable_ -> EvalContext -> outcome Value).
Context (FunctionGet : Function_ -> EvalContext -> list Value -> outcome Value).

(** The values of a sequence of expressions, evaluated from left to right. *)
Fixpoint evalList (l : list (@Expression Variable_ Function_)) (ctx : EvalContext)
  : outcome (list Value) :=
  match l with
  | [] => Ret []
  | a :: r =>
      v <- Expression_Value VariableGet FunctionGet a ctx ;;
      vs <- evalList r ctx ;;
      Ret (v :: vs)
  end.
End EvalList.

End SpecMore.

(** ** Package cparse: the remaining accessors of [Value] *)

Module CparseAccess.
Import Cparse.

Definition AsString (v : Value) : string := stringVal v.
Definition IsList (v : Value) : bool := valueType_eqb (typ v) valueList.
Definition AsList (v : Value) : list Value := listVal v.

End CparseAccess.

(** ** Package strings, on byte strings

    A Go string is a sequence of bytes; a [string] holds one byte per
    character.  The functions that take a rune or a set of runes are only
    called with ASCII ones in these sources, for which the first matching
    rune is the first matching byte. *)

Module Strings.
Import Go Ftrace.

Definition strlen (s : string) : Z := Z.of_nat (String.length s).

Fixpoint take (n : nat) (s : string) : string :=
  match n, s with
  | S n, String c r => String c (take n r)
  | _, _ => EmptyString
  end.

Fixpoint drop (n : nat) (s : string) : string :=
  match n, s with
  | S n, String _ r => drop n r
  | _, _ => s
  end.

(** [s[lo:hi]] *)
Definition strSlice (s : string) (lo hi : Z) : outcome string :=
  if (0 <=? lo) && (lo <=? hi) && (hi <=? strlen s)
  then Ret (take (Z.to_nat (hi - lo)) (drop (Z.to_nat lo) s))
  else Panic boundsPanic.

(** [s[lo:]] *)
Definition strFrom (s : string) (lo : Z) : outcome string := strSlice s lo (strlen s).

(** [strings.IndexByte(s, c)]; [strings.IndexRune(s, c)] for an ASCII [c]. *)
Fixpoint IndexByte (s : string) (c : ascii) : Z :=
  match s with
  | EmptyString => -1
  | String a r =>
      if Ascii.eqb a c then 0
      else let i := IndexByte r c in if i =? -1 then -1 else i + 1
  end.

Definition IndexRune := IndexByte.

(** [strings.IndexAny(s, chars)] for ASCII [chars]. *)
Fixpoint IndexAny (s chars : string) : Z :=
  match s with
  | EmptyString => -1
  | String a r =>
      if negb (IndexByte chars a =? -1) then 0
      else let i := IndexAny r chars in if i =? -1 then -1 else i + 1
  end.

(** [strings.TrimLeft(s, cutset)] for an ASCII [cutset]. *)
Fixpoint TrimLeft (s cutset : string) : string :=
  match s with
  | EmptyString => EmptyString
  | String a r => if negb (IndexByte cutset a =? -1) then TrimLeft r cutset else s
  end.

Definition HasPrefix (s p : string) : bool := String.prefix p s.

Definition TrimPrefix (s p : string) : string :=
  if HasPrefix s p then drop (String.length p) s else s.

(** [strings.Contains(s, substr)] *)
Fixpoint Contains (s substr : string) : bool :=
  HasPrefix s substr ||
  match s with
  | EmptyString => false
  | String _ r => Contains r substr
  end.

(** [strings.LastIndex(s, string(c))] *)
Fixpoint LastIndexByte (s : string) (c : ascii) : Z :=
  match s with
  | EmptyString => -1
  | String a r =>
      let i := LastIndexByte r c in
      if negb (i =? -1) then i + 1
      else if Ascii.eqb a c then 0 else -1
  end.

(** [string(b)] for a byte [b]: the UTF-8 encoding of the code point [b]. *)
Definition runeString (b : ascii) : string :=
  let n := Z.of_N (N_of_ascii b) in
  if n <? 128 then String b EmptyString
  else String (ascii_of_N (Z.to_N (Z.lor 192 (Z.shiftr n 6))))
         (String (ascii_of_N (Z.to_N (Z.lor 128 (Z.land n 63)))) EmptyString).

End Strings.

(** ** Package ftrace: kernel helper functions, variables and scopes *)

Module Kernel.
Import Go Cparse CparseAccess Ftrace Strings.

(** [s := string(b); zero := strings.IndexByte(s, 0); if zero != -1
    { s = s[:zero] }] *)
Definition untilNul (b : slice) : outcome string :=
  let s := string_of_list_byte (bytes b) in
  let zero := IndexByte s "000"%char in
  if negb (zero =? -1) then strSlice s 0 zero else Ret s.

Fixpoint printFlagsLoop (v : Z) (delim : string) (l : list Value)
  (first : bool) (ret : string) : Value :=
  match l with
  | [] => NewValueString ret
  | f :: r =>
      if negb (IsList f) then
        NewValueError "expected list as argument to __print_flags"
      else
        match AsList f with
        | [l0; l1] =>
            if negb (IsInt l0) then
              NewValueError "expected first element of list to be int as argument to __print_flags"
            else if negb (IsString l1) then
              NewValueError "expected second element of list to be string as argument to __print_flags"
            else if negb (Z.land v (AsInt l0) =? 0) then
              if first then printFlagsLoop v delim r false (AsString l1)
              else printFlagsLoop v delim r false (ret ++ delim ++ AsString l1)
            else printFlagsLoop v delim r first ret
        | _ =>
            NewValueError "expected list of two elements as argument to __print_flags"
        end
  end.

Definition printFlags (ctx : Event) (args : list Value) : Value :=
  match args with
  | a0 :: a1 :: ((_ :: _) as rest) =>
      if negb (IsInt a0) then
        NewValueError "expected integer as first argument to __print_flags"
      else
        let v := AsInt a0 in
        if negb (IsString a1) then
          NewValueError "expected string as second argument to __print_flags"
        else
          let delim := AsString a1 in
          printFlagsLoop v delim rest true ""
  | _ => NewValueError "expected at least 3 arguments to __print_flags"
  end.

Fixpoint printSymbolicLoop (v : Z) (l : list Value) : Value :=
  match l with
  | [] => NewValueString ""
  | f :: r =>
      if negb (IsList f) then
        NewValueError "expected list as argument to __print_symbolic "
      else
        match AsList f with
        | [l0; l1] =>
            if negb (IsInt l0) then
              NewValueError
                ("expected first element of list to be int as argument to __print_symbolic, got "
                 ++ Value_dump l0)
            else if negb (IsString l1) then
              NewValueError "expected second element of list to be string as argument to __print_symbolic"
            else if v =? AsInt l0 then NewValueString (AsString l1)
            else printSymbolicLoop v r
        | _ =>
            NewValueError "expected list of two elements as argument to __print_symbolic"
        end
  end.

Definition printSymbolic (ctx : Event) (args : list Value) : Value :=
  match args with
  | a0 :: ((_ :: _) as rest) =>
      if negb (IsInt a0) then
        NewValueError "expected integer as first argument to __print_symbolic"
      else printSymbolicLoop (AsInt a0) rest
  | _ => NewValueError "expected at least 2 arguments to __print_symbolic"
  end.

Definition getString (e : Event) (args : list Value) : outcome Value :=
  match args with
  | [a0] =>
      if negb (IsInt a0) then
        Ret (NewValueError "expected integer as first argument to __get_str")
      else
        let i := AsInt a0 in
        let offset := Z.land i 65535 in
        let length := Z.shiftr i 16 in
        if offset >? len (econtents e) - 1 then
          Ret (NewValueError ("__get_str offset " ++ formatZ offset ++ " too large"))
        else if offset + length >? len (econtents e) then
          Ret (NewValueError ("__get_str length " ++ formatZ length ++ " too large"))
        else
          c <- reslice (econtents e) offset (offset + length) ;;
          s <- untilNul c ;;
          Ret (NewValueString s)
  | _ => Ret (NewValueError "expected 1 argument to __get_str")
  end.

(** [fields[i]] on a Go slice of fields. *)
Definition fieldAt (fs : list eventField) (i : Z) : outcome eventField :=
  if (0 <=? i) && (i <? Z.of_nat (List.length fs))
  then match nth_error fs (Z.to_nat i) with
       | Some f => Ret f
       | None => Panic indexPanic
       end
  else Panic indexPanic.

(** [eventVariable.Get] *)
Definition eventVariable_Get (fieldNum : Z) (e : Event) : outcome Value :=
  f <- fieldAt (fields (etype e)) fieldNum ;;
  if String.eqb (ftype f) "char" then
    v <- valueAt (values e) fieldNum ;;
    s <- untilNul (contents v) ;;
    Ret (NewValueString s)
  else
    i <- (if fsigned f then
            v <- valueAt (values e) fieldNum ;;
            x <- DecodeInt v ;;
            Ret (u64 x)
          else
            v <- valueAt (values e) fieldNum ;;
            DecodeUint v) ;;
    Ret (NewValueInt i (fsize f) (fsigned f)).

Fixpoint getFieldNumFrom (i : Z) (fs : list eventField) (field : string) : Z :=
  match fs with
  | [] => -1
  | f :: r => if String.eqb (fname f) field then i else getFieldNumFrom (i + 1) r field
  end.

Definition getFieldNum (et : EventType) (field : string) : Z :=
  getFieldNumFrom 0 (fields et) field.

(** The map [kernelConstants], key by key. *)
Definition kernelConstants (name : string) : option Z :=
  if String.eqb name "HI_SOFTIRQ" then Some 0
  else if String.eqb name "TIMER_SOFTIRQ" then Some 1
  else if String.eqb name "NET_TX_SOFTIRQ" then Some 2
  else if String.eqb name "NET_RX_SOFTIRQ" then Some 3
  else if String.eqb name "BLOCK_SOFTIRQ" then Some 4
  else if String.eqb name "BLOCK_IOPOLL_SOFTIRQ" then Some 5
  else if String.eqb name "TASKLET_SOFTIRQ" then Some 6
  else if String.eqb name "SCHED_SOFTIRQ" then Some 7
  else if String.eqb name "HRTIMER_SOFTIRQ" then Some 8
  else if String.eqb name "RCU_SOFTIRQ" then Some 9
  else if String.eqb name "TLB_FLUSH_ON_TASK_SWITCH" then Some 0
  else if String.eqb name "TLB_REMOTE_SHOOTDOWN" then Some 1
  else if String.eqb name "TLB_LOCAL_SHOOTDOWN" then Some 2
  else if String.eqb name "TLB_LOCAL_MM_SHOOTDOWN" then Some 3
  else None.

Definition NewConstantVariable (value : Value) : variable := constantVariable value.

(** [EventType.GetVariable]; [None] is the nil [Variable]. *)
Definition GetVariable (et : EventType) (name : string) : option variable :=
  let recName := TrimPrefix name "REC->" in
  let f := getFieldNum et recName in
  if f >=? 0 then Some (eventVariable f)
  else
    match kernelConstants name with
    | Some v => Some (NewConstantVariable (NewValueInt (u64 (int64 v)) 4 true))
    | None => None
    end.

(** *** Methods of [Event] *)

Definition whenInMicroseconds (e : Event) : Z :=
  let t := int64 (int64 (When e) * 1) in
  int64 (Z.quot (int64 (t + Z.quot 1000 2)) 1000).

Definition Seconds (e : Event) : Z := Z.quot (whenInMicroseconds e) 1000000.
Definition Microseconds (e : Event) : Z := Z.rem (whenInMicroseconds e) 1000000.

(** [e.Events[i]] *)
Definition eventAt (evs : Events) (i : Z) : outcome Event :=
  if (0 <=? i) && (i <? Z.of_nat (List.length evs))
  then match nth_error evs (Z.to_nat i) with
       | Some e => Ret e
       | None => Panic indexPanic
       end
  else Panic indexPanic.

(** [EventsByTime.Less] *)
Definition Less (evs : Events) (i j : Z) : outcome bool :=
  a <- eventAt evs i ;;
  b <- eventAt evs j ;;
  if When a =? When b then Ret (Cpu a <? Cpu b)
  else Ret (When a <? When b).

End Kernel.

(** ** Package cprintf: printf conversions *)

Module Cprintf.
Import Go Cparse CparseFold Ftrace Strings.

Definition conversionSpecifiers : string := "cdiopsux%".
Definition formatModifiers : string := "0123456789-#.*".
Definition trimmedConversionModfiers : string := "hlLz".
Definition validModifiers : string := formatModifiers ++ trimmedConversionModfiers.

(** [for _, m := range modifiers { if strings.IndexByte(trimmed, m) == -1
    { c.Modifiers += string(m) } }], with [acc] for [c.Modifiers]. *)
Fixpoint trimModifiers (modifiers acc : string) : string :=
  match modifiers with
  | EmptyString => acc
  | String m r =>
      trimModifiers r
        (if IndexByte trimmedConversionModfiers m =? -1 then acc ++ runeString m
         else acc)
  end.

Definition isIntegerConversion (c : ascii) : bool :=
  Ascii.eqb c "d" || Ascii.eqb c "u" || Ascii.eqb c "x" || Ascii.eqb c "X"
  || Ascii.eqb c "o".

(** The [switch] on the length modifiers in [munge]. *)
Definition castSize (modifiers : string) : Z :=
  if Contains modifiers "ll" then 8
  else if Contains modifiers "l" then 8
  else if Contains modifiers "hh" then 1
  else if Contains modifiers "h" then 2
  else if Contains modifiers "z" then 8
  else 4.

(** [s[i]] on a string *)
Definition strIndex (s : string) (i : Z) : outcome ascii :=
  if (0 <=? i) && (i <? strlen s)
  then match String.get (Z.to_nat i) s with
       | Some c => Ret c
       | None => Panic indexPanic
       end
  else Panic indexPanic.

(** [args[i]] and [args[i] = x] on a Go slice of expressions. *)
Definition exprAt (args : list Expression) (i : Z) : outcome Expression :=
  if (0 <=? i) && (i <? Z.of_nat (List.length args))
  then match nth_error args (Z.to_nat i) with
       | Some e => Ret e
       | None => Panic indexPanic
       end
  else Panic indexPanic.

Definition setAt (args : list Expression) (i : Z) (x : Expression)
  : outcome (list Expression) :=
  if (0 <=? i) && (i <? Z.of_nat (List.length args))
  then Ret (firstn (Z.to_nat i) args ++ x :: skipn (S (Z.to_nat i)) args)%list
  else Panic indexPanic.

Section Munge.
Context {EvalContext : Type}.
Context (VariableGet : variable -> EvalContext -> outcome Value).
Context (FunctionGet : function -> EvalContext -> list Value -> outcome Value).
Context (nilCtx : EvalContext).

Definition munge (c : Conversion) : outcome Conversion :=
  let c := if Ascii.eqb (conversion c) "i"
           then mkConversion "d" (Modifiers c) (Suffix c) (Arg c) else c in
  c <- (if isIntegerConversion (conversion c) then
          let size := castSize (Modifiers c) in
          let signed := if negb (Ascii.eqb (conversion c) "d") then false else true in
          let c := if Ascii.eqb (conversion c) "u"
                   then mkConversion "d" (Modifiers c) (Suffix c) (Arg c) else c in
          arg <- CastExpression VariableGet FunctionGet nilCtx (Arg c) size signed ;;
          Ret (mkConversion (conversion c) (Modifiers c) (Suffix c) arg)
        else Ret c) ;;
  c <- (if Ascii.eqb (conversion c) "p" && String.eqb (Modifiers c) "" then
          arg <- CastExpression VariableGet FunctionGet nilCtx (Arg c) 8 false ;;
          Ret (mkConversion "x" "016" (Suffix c) arg)
        else Ret c) ;;
  Ret (mkConversion (conversion c) (trimModifiers (Modifiers c) "") (Suffix c) (Arg c)).

(** The variables [mungeConversions] carries from one conversion to the
    next, and what one pass of its loop does. *)
Inductive mungeStep :=
| MungeContinue (format out : string) (args : list Expression) (arg : Z)
| MungeDone (out : string) (args : list Expression).

Definition mungeBody (callback : option (Conversion -> Conversion))
  (format out : string) (args : list Expression) (arg : Z) : outcome mungeStep :=
  let i := IndexRune format "%" in
  if i =? -1 then Ret (MungeDone (out ++ format) args)
  else
    pre <- strSlice format 0 (i + 1) ;;
    let out := out ++ pre in
    format <- strFrom format (i + 1) ;;
    let conversionEndIndex := IndexAny format conversionSpecifiers in
    if conversionEndIndex =? -1 then
      Ret (MungeDone (out ++ "MISSING CONVERSION(" ++ format ++ ")") args)
    else
      c <- strIndex format conversionEndIndex ;;
      mods <- strSlice format 0 conversionEndIndex ;;
      format <- strFrom format (conversionEndIndex + 1) ;;
      if Ascii.eqb c "%" && String.eqb mods "" then
        Ret (MungeContinue format (out ++ runeString c) args arg)
      else
        let trimmed := TrimLeft mods validModifiers in
        out <- (if negb (String.eqb trimmed "") then
                  t0 <- strIndex trimmed 0 ;;
                  Ret (out ++ "UNEXPECTED MODIFIER(" ++ runeString t0 ++ ")")
                else Ret out) ;;
        a <- exprAt args arg ;;
        let conversion := mkConversion c mods format a in
        let conversion := match callback with
                          | Some cb => cb conversion
                          | None => conversion
                          end in
        conversion <- munge conversion ;;
        let out := out ++ Modifiers conversion ++ runeString (Ftrace.conversion conversion) in
        let format := Suffix conversion in
        args <- setAt args arg (Arg conversion) ;;
        Ret (MungeContinue format out args (arg + 1)).

(** [for format != "" { ... }; return out, args].  [None] only when the
    fuel runs out. *)
Fixpoint mungeLoop (fuel : nat) (callback : option (Conversion -> Conversion))
  (format out : string) (args : list Expression) (arg : Z)
  : option (outcome (string * list Expression)) :=
  if String.eqb format "" then Some (Ret (out, args))
  else
    match fuel with
    | O => None
    | S fuel =>
        match mungeBody callback format out args arg with
        | Panic msg => Some (Panic msg)
        | Ret (MungeDone out args) => Some (Ret (out, args))
        | Ret (MungeContinue format out args arg) =>
            mungeLoop fuel callback format out args arg
        end
    end.

Definition mungeConversions (fuel : nat) (format : string) (args : list Expression)
  (callback : option (Conversion -> Conversion))
  : option (outcome (string * list Expression)) :=
  mungeLoop fuel callback format "" args 0.

End Munge.

End Cprintf.

(** ** Package ftrace: reading a format description *)

Module Format.
Import Go Ftrace Strings.

Definition newline : ascii := "010"%char.

Definition setFields (et : EventType) (fs : list eventField) : EventType :=
  mkEventType (name et) (id et) fs (size et) (pidField et) (flagsField et)
    (preemptField et).

Definition setId (et : EventType) (i : Z) : EventType :=
  mkEventType (name et) i (fields et) (size et) (pidField et) (flagsField et)
    (preemptField et).

Section ParseFormat.
(** The library functions [strings.TrimSpace], [strconv.Atoi] and
    [strconv.ParseBool], each with the value and the error it returns, and
    [parsePrintFmt], which only sets the formatter and returns an error or
    nil. *)
Context (TrimSpace : string -> string).
Context (Atoi : string -> Z * option string).
Context (ParseBool : string -> bool * option string).
Context (parsePrintFmt : string -> outcome (option string)).

(** [for _, f := range s[1:] { ... }] of [parseField]: the field with the
    entries applied, or the error. *)
Fixpoint fieldEntries (l : list string) (field : eventField)
  : outcome (eventField + string) :=
  match l with
  | [] => Ret (inl field)
  | f :: r =>
      let f := TrimSpace f in
      if String.eqb f "" then fieldEntries r field
      else
        let colon := IndexRune f ":" in
        if colon =? -1 then Ret (inr ("missing ':' in field entry " ++ f))
        else
          k <- strSlice f 0 colon ;;
          let key := TrimSpace k in
          v <- strFrom f (colon + 1) ;;
          let value := TrimSpace v in
          let '(field, err) :=
            if String.eqb key "offset" then
              let '(n, err) := Atoi value in
              (mkEventField (fname field) (fsize field) n (fsigned field)
                 (farray field) (ftype field) (dataloc field), err)
            else if String.eqb key "size" then
              let '(n, err) := Atoi value in
              (mkEventField (fname field) n (foffset field) (fsigned field)
                 (farray field) (ftype field) (dataloc field), err)
            else if String.eqb key "signed" then
              let '(b, err) := ParseBool value in
              (mkEventField (fname field) (fsize field) (foffset field) b
                 (farray field) (ftype field) (dataloc field), err)
            else (field, Some ("unknown field entry " ++ key)) in
          match err with
          | Some e => Ret (inr e)
          | None => fieldEntries r field
          end
  end.

(** [etype.parseField(line)]: the type, with the field added on success,
    and the error. *)
Definition parseField (et : EventType) (line : string)
  : outcome (EventType * option string) :=
  match Split ";" line with
  | [] => Ret (et, Some "Missing entries in field")
  | s0 :: rest =>
      let last_space := LastIndexByte s0 " " in
      if last_space =? -1 then Ret (et, Some "missing field type and name")
      else
        ftype <- strSlice s0 0 last_space ;;
        name <- strFrom s0 (last_space + 1) ;;
        let bracket := IndexRune name "[" in
        r <- (if negb (bracket =? -1) then
                let endBracket := IndexRune name "]" in
                if (endBracket =? -1) || (endBracket <? bracket) then
                  Ret (inr "expected ']' after '['")
                else
                  name <- strSlice name 0 bracket ;;
                  Ret (inl (true, name))
              else Ret (inl (false, name))) ;;
        match r with
        | inr e => Ret (et, Some e)
        | inl (array, name) =>
            let '(ftype, dataloc) :=
              if HasPrefix ftype "__data_loc char[]"
              then (TrimPrefix ftype "__data_loc char[]", true)
              else (ftype, false) in
            fe <- fieldEntries rest
                    (mkEventField name 0 0 false array ftype dataloc) ;;
            match fe with
            | inr e => Ret (et, Some e)
            | inl field =>
                if foffset field <? 0 then
                  Ret (et, Some "a negative field offset is not valid")
                else if fsize field <? 0 then
                  Ret (et, Some "a negative field size is not valid")
                else Ret (setFields et (fields et ++ [field]), None)
            end
        end
  end.

Inductive formatStep :=
| FormatContinue (et : EventType) (format : string)
| FormatReturn (et : EventType) (err : option string).

(** One pass of the loop of [parseFormatData], with [lineNum] already
    counted up. *)
Definition parseFormatLine (lineNum : Z) (et : EventType) (format : string)
  : outcome formatStep :=
  let eol := IndexRune format newline in
  let eol := if eol =? -1 then strlen format else eol in
  line <- strSlice format 0 eol ;;
  format <- strFrom format (eol + 1) ;;
  if String.eqb line "" then Ret (FormatContinue et format)
  else
    let colon := IndexRune line ":" in
    if colon =? -1 then
      Ret (FormatReturn et (Some ("missing ':' on line " ++ Cparse.formatZ lineNum)))
    else
      k <- strSlice line 0 colon ;;
      let key := TrimSpace k in
      v <- strFrom line (colon + 1) ;;
      let value := TrimSpace v in
      if String.eqb key "name" || String.eqb key "format" then
        Ret (FormatContinue et format)
      else if String.eqb key "ID" then
        let '(n, err) := Atoi value in
        match err with
        | Some e => Ret (FormatReturn (setId et n) (Some e))
        | None => Ret (FormatContinue (setId et n) format)
        end
      else if String.eqb key "field" then
        r <- parseField et value ;;
        match r with
        | (et, Some e) => Ret (FormatReturn et (Some e))
        | (et, None) => Ret (FormatContinue et format)
        end
      else if String.eqb key "print fmt" then
        r <- parsePrintFmt value ;;
        match r with
        | Some e => Ret (FormatReturn et (Some e))
        | None => Ret (FormatContinue et format)
        end
      else
        (* err = fmt.Errorf("unexpected key %s", key), which the next
           assignment or the final [return nil] overwrites *)
        Ret (FormatContinue et format).

(** [for format != "" { lineNum++; ... }; return nil].  [None] only when
    the fuel runs out. *)
Fixpoint parseFormatLoop (fuel : nat) (lineNum : Z) (et : EventType)
  (format : string) : option (outcome (EventType * option string)) :=
  if String.eqb format "" then Some (Ret (et, None))
  else
    match fuel with
    | O => None
    | S fuel =>
        match parseFormatLine (lineNum + 1) et format with
        | Panic msg => Some (Panic msg)
        | Ret (FormatReturn et err) => Some (Ret (et, err))
        | Ret (FormatContinue et format) =>
            parseFormatLoop fuel (lineNum + 1) et format
        end
    end.

(** [etype.parseFormatData(formatbytes)]: the type as the call leaves it,
    and the error. *)
Definition parseFormatData (fuel : nat) (et : EventType) (formatbytes : list byte)
  : option (outcome (EventType * option string)) :=
  parseFormatLoop fuel 0 et (string_of_list_byte formatbytes).

End ParseFormat.

End Format.

(** ** Specification vocabulary for events *)

Module SpecEvent.
Import Go Cparse Ftrace Fixtures.

(** A slice as the Go runtime keeps it: its length is within its capacity. *)
Definition wfSlice (s : slice) : Prop := 0 <= len s <= cap s.

(** The fields of a type lie inside a record of [size] bytes. *)
Definition fieldsFit (et : EventType) : Prop :=
  forall f, In f (fields et) ->
    0 <= foffset f /\ 0 <= fsize f /\ foffset f + fsize f <= size et.

(** The common fields of a type are fields of it. *)
Definition commonFields (et : EventType) : Prop :=
  let n := Z.of_nat (List.length (fields et)) in
  0 <= pidField et < n /\ 0 <= flagsField et < n /\ 0 <= preemptField et < n.

(** The bytes of a record that field [f] covers. *)
Definition fieldBytes (data : slice) (f : eventField) : list byte :=
  window data (foffset f) (fsize f).

(** A field value as [DecodeEvent] cuts it out of the record [data]. *)
Definition sliced (data : slice) (v : eventFieldValue) : Prop :=
  wfSlice (contents v) /\ len (contents v) = fsize (field v) /\
  bytes (contents v) = fieldBytes data (field v).

(** The list arguments of [__print_flags] and [__print_symbolic]: a pair of
    an integer and a string. *)
Definition isPair (f : Value) : Prop :=
  CparseAccess.IsList f = true /\
  exists l0 l1, CparseAccess.AsList f = [l0; l1] /\
                IsInt l0 = true /\ IsString l1 = true.

Definition pairKey (f : Value) : Z :=
  match CparseAccess.AsList f with
  | l0 :: _ => AsInt l0
  | [] => 0
  end.

Definition pairName (f : Value) : string :=
  match CparseAccess.AsList f with
  | _ :: l1 :: _ => CparseAccess.AsString l1
  | _ => ""
  end.

(** The names of the pairs whose mask shares a bit with [v]. *)
Definition flagNames (v : Z) (pairs : list Value) : list string :=
  map pairName (filter (fun f => negb (Z.land v (pairKey f) =? 0)) pairs).

(** What [decodePage] promises of an event it returns for CPU [cpu]: the
    record starts with the id under which the event's type is registered
    and is at least as long as the type's size. *)
Definition decodedFor (f : ftrace) (cpu : Z) (e : Event) : Prop :=
  Cpu e = cpu /\
  exists typeId, Uint16 (econtents e) = Ret typeId /\
                 eventTypes f typeId = Some (etype e) /\
                 Ftrace.size (etype e) <= len (econtents e).

(** How often the byte [c] occurs in [s]. *)
Fixpoint countByte (c : ascii) (s : string) : nat :=
  match s with
  | EmptyString => O
  | String a r => if Ascii.eqb a c then S (countByte c r) else countByte c r
  end.

(** What [munge] makes of the conversion character. *)
Definition mungedConversion (c : Conversion) : ascii :=
  if Ascii.eqb (conversion c) "i" || Ascii.eqb (conversion c) "u" then "d"%char
  else if Ascii.eqb (conversion c) "p" && String.eqb (Modifiers c) "" then "x"%char
  else conversion c.

(** No field of the type starts before the record or has a negative size. *)
Definition nonNegFields (et : EventType) : Prop :=
  forall f, In f (fields et) -> 0 <= foffset f /\ 0 <= fsize f.

(** The keys [parseFormatData] knows. *)
Definition knownKey (key : string) : bool :=
  String.eqb key "name" || String.eqb key "format" || String.eqb key "ID"
  || String.eqb key "field" || String.eqb key "print fmt".









(** The NUL character, and the strings that hold none. *)
Definition nul : ascii := "000"%char.

Fixpoint nulFree (s : string) : bool :=
  match s with
  | EmptyString => true
  | String c r => negb (Ascii.eqb c nul) && nulFree r
  end.

(** [s] is [full] cut before its first NUL, or all of it when it has none. *)
Definition cutAtNul (full s : string) : Prop :=
  nulFree s = true /\
  (full = s \/ exists rest, full = s ++ String nul rest).

End SpecEvent.

(** ** Facts about the integer representation *)

Module CparseFacts.
Import Go Cparse Spec.

Lemma maskOf_valid t : validSize (size t) -> maskOf t = Z.ones (bitsOf t).
Proof.
  destruct t as [w s]; unfold bitsOf; cbn [size].
  intros [->|[->|[->| ->]]]; vm_compute; reflexivity.
Qed.

Lemma signMaskOf_valid t : validSize (size t) -> signMaskOf t = 2 ^ (bitsOf t - 1).
Proof.
  destruct t as [w s]; unfold bitsOf; cbn [size].
  intros [->|[->|[->| ->]]]; vm_compute; reflexivity.
Qed.

Lemma notMask_valid t : validSize (size t) -> not64 (maskOf t) = 2 ^ 64 - 2 ^ bitsOf t.
Proof.
  destruct t as [w s]; unfold bitsOf; cbn [size].
  intros [->|[->|[->| ->]]]; vm_compute; reflexivity.
Qed.

Lemma bitsOf_valid t : validSize (size t) -> 8 <= bitsOf t <= 64 /\ (2 ^ bitsOf t | 2 ^ 64).
Proof.
  destruct t as [w s]; unfold bitsOf; cbn [size].
  intros [->|[->|[->| ->]]]; (split; [lia|]).
  - exists (2^56); reflexivity.
  - exists (2^48); reflexivity.
  - exists (2^32); reflexivity.
  - exists 1; reflexivity.
Qed.

Lemma land_pow2 m n : 0 <= n -> Z.land m (2 ^ n) = if Z.testbit m n then 2 ^ n else 0.
Proof.
  intros Hn. apply Z.bits_inj'. intros i Hi.
  rewrite Z.land_spec, Z.pow2_bits_eqb by lia.
  destruct (Z.eqb_spec n i) as [->|Hne].
  - rewrite andb_true_r. destruct (Z.testbit m i).
    + rewrite Z.pow2_bits_true; lia.
    + rewrite Z.bits_0; reflexivity.
  - rewrite andb_false_r. destruct (Z.testbit m n).
    + rewrite Z.pow2_bits_false; lia.
    + rewrite Z.bits_0; reflexivity.
Qed.

Lemma testbit_top m n : 0 <= n -> 0 <= m < 2 ^ (n + 1) -> Z.testbit m n = (2 ^ n <=? m).
Proof.
  intros Hn Hm. rewrite Z.testbit_eqb by lia.
  replace (n + 1) with (Z.succ n) in Hm by lia.
  rewrite Z.pow_succ_r in Hm by lia.
  destruct (Z.leb_spec (2^n) m).
  - assert (E : 1 = m / 2^n) by (apply Z.div_unique with (r := m - 2^n); lia).
    rewrite <- E. reflexivity.
  - rewrite Z.div_small by lia. reflexivity.
Qed.

Lemma lor_high m k : 0 <= k <= 64 -> 0 <= m < 2 ^ k -> Z.lor m (2 ^ 64 - 2 ^ k) = m + 2 ^ 64 - 2 ^ k.
Proof.
  intros Hk Hm.
  assert (E : 2 ^ 64 - 2 ^ k = Z.shiftl (Z.ones (64 - k)) k).
  { rewrite Z.shiftl_mul_pow2, Z.ones_equiv by lia.
    replace (2^64) with (2 ^ (64 - k) * 2 ^ k) by (rewrite <- Z.pow_add_r by lia; f_equal; lia).
    lia. }
  assert (L : Z.land m (2 ^ 64 - 2 ^ k) = 0).
  { rewrite E. apply Z.bits_inj'. intros i Hi. rewrite Z.land_spec, Z.bits_0.
    destruct (Z.ltb_spec i k).
    - rewrite Z.shiftl_spec_low by lia. apply andb_false_r.
    - destruct (Z.eq_dec m 0) as [->|Hm0]; [rewrite Z.bits_0; reflexivity|].
      rewrite (Z.bits_above_log2 m i); [reflexivity|lia|].
      apply Z.log2_lt_pow2; [lia|]. apply Z.lt_le_trans with (2^k); [lia|].
      apply Z.pow_le_mono_r; lia. }
  rewrite <- Z.lxor_lor by exact L.
  rewrite <- Z.add_nocarry_lxor by exact L. lia.
Qed.

Lemma pow_bits_split k : 1 <= k -> 2 ^ k = 2 * 2 ^ (k - 1).
Proof. intros. rewrite <- Z.pow_succ_r by lia. f_equal. lia. Qed.

Lemma intClamp_mod val t : validSize (size t) -> intClamp val t = val mod 2 ^ bitsOf t.
Proof.
  intros Hv. unfold intClamp. rewrite maskOf_valid by assumption.
  apply Z.land_ones. destruct (bitsOf_valid t Hv); lia.
Qed.

Lemma cvalue_inRange t p : validSize (size t) -> inRange t (cvalue t p).
Proof.
  intros Hv. destruct (bitsOf_valid t Hv) as [Hk _].
  unfold inRange, cvalue.
  pose proof (Z.mod_pos_bound p (2 ^ bitsOf t) ltac:(lia)) as Hm.
  pose proof (pow_bits_split (bitsOf t) ltac:(lia)) as Hs.
  destruct (signed t); cbn [andb]; [|lia].
  destruct (Z.leb_spec (2 ^ (bitsOf t - 1)) (p mod 2 ^ bitsOf t)); lia.
Qed.

Lemma cvalue_id t x : validSize (size t) -> inRange t x -> cvalue t x = x.
Proof.
  intros Hv Hr. destruct (bitsOf_valid t Hv) as [Hk _].
  pose proof (pow_bits_split (bitsOf t) ltac:(lia)) as Hs.
  unfold inRange in Hr. unfold cvalue.
  destruct (signed t); cbn [andb negb].
  - destruct (Z.le_gt_cases 0 x).
    + rewrite Z.mod_small by lia.
      destruct (Z.leb_spec (2 ^ (bitsOf t - 1)) x); lia.
    + assert (E : x mod 2 ^ bitsOf t = x + 2 ^ bitsOf t).
      { symmetry. apply Z.mod_unique with (q := -1); lia. }
      rewrite E.
      destruct (Z.leb_spec (2 ^ (bitsOf t - 1)) (x + 2 ^ bitsOf t)); lia.
  - apply Z.mod_small; lia.
Qed.

Lemma cvalue_congr t z z' :
  z mod 2 ^ bitsOf t = z' mod 2 ^ bitsOf t -> cvalue t z = cvalue t z'.
Proof. unfold cvalue. intros ->. reflexivity. Qed.

Lemma mod_u64 t z : validSize (size t) -> (u64 z) mod 2 ^ bitsOf t = z mod 2 ^ bitsOf t.
Proof.
  intros Hv. destruct (bitsOf_valid t Hv) as [Hk Hd].
  unfold u64. apply Z.mod_mod_divide. exact Hd.
Qed.

Lemma cvalue_u64 t z : validSize (size t) -> cvalue t (u64 z) = cvalue t z.
Proof. intros. apply cvalue_congr, mod_u64; assumption. Qed.

Lemma encode_congr t z z' :
  z mod 2 ^ bitsOf t = z' mod 2 ^ bitsOf t -> encode t z = encode t z'.
Proof. unfold encode. intros H. rewrite (cvalue_congr _ _ _ H). reflexivity. Qed.

Lemma encode_u64 t z : validSize (size t) -> encode t (u64 z) = encode t z.
Proof. intros. unfold encode. rewrite cvalue_u64 by assumption. reflexivity. Qed.

Lemma intSignExtend_clamp val t :
  validSize (size t) -> intSignExtend (intClamp val t) t = encode t val.
Proof.
  intros Hv. destruct (bitsOf_valid t Hv) as [Hk Hd].
  pose proof (pow_bits_split (bitsOf t) ltac:(lia)) as Hs.
  rewrite intClamp_mod by assumption.
  unfold intSignExtend, encode, cvalue.
  rewrite signMaskOf_valid, notMask_valid by assumption.
  pose proof (Z.mod_pos_bound val (2 ^ bitsOf t) ltac:(lia)) as Hm.
  set (m := val mod 2 ^ bitsOf t) in *.
  assert (H64 : 2 ^ bitsOf t <= 2 ^ 64) by (apply Z.pow_le_mono_r; lia).
  rewrite land_pow2 by lia.
  rewrite testbit_top by (try lia; replace (bitsOf t - 1 + 1) with (bitsOf t) by lia; lia).
  destruct (signed t); cbn [andb negb].
  - destruct (Z.leb_spec (2 ^ (bitsOf t - 1)) m); cbn [andb negb].
    + assert (E0 : (2 ^ (bitsOf t - 1) =? 0) = false) by (apply Z.eqb_neq; lia).
      rewrite E0. cbn [andb negb]. rewrite lor_high by lia.
      unfold u64. apply Z.mod_unique with (q := -1); lia.
    + unfold u64. rewrite Z.mod_small; [reflexivity|lia].
  - unfold u64. rewrite Z.mod_small; [reflexivity|lia].
Qed.

Lemma newValueIntLike_intVal v val :
  validSize (size (intTyp v)) -> intVal (newValueIntLike v val) = encode (intTyp v) val.
Proof. intros. destruct v. unfold newValueIntLike. cbn [set_intVal intVal intTyp]. apply intSignExtend_clamp. assumption. Qed.

Lemma encode_range t z : validSize (size t) -> 0 <= encode t z < 2 ^ 64.
Proof. intros. unfold encode, u64. apply Z.mod_pos_bound. lia. Qed.

Lemma encode_idem t z : validSize (size t) -> encode t (encode t z) = encode t z.
Proof.
  intros Hv. unfold encode at 2. rewrite encode_u64 by assumption.
  unfold encode. f_equal. apply cvalue_id; [assumption|]. apply cvalue_inRange; assumption.
Qed.

Ltac cmp_tac :=
  repeat match goal with
  | |- context [?a <? ?b] =>
      first [rewrite (proj2 (Z.ltb_lt a b)) by lia | rewrite (proj2 (Z.ltb_ge a b)) by lia]
  | |- context [?a <=? ?b] =>
      first [rewrite (proj2 (Z.leb_le a b)) by lia | rewrite (proj2 (Z.leb_gt a b)) by lia]
  | |- context [?a =? ?b] =>
      first [rewrite (proj2 (Z.eqb_eq a b)) by lia | rewrite (proj2 (Z.eqb_neq a b)) by lia]
  end.

Lemma represents_lt s u : size u < size s -> represents s u = true.
Proof.
  intros H. unfold represents, bitsOf. apply Z.leb_le.
  assert (2 ^ (8 * size u) <= 2 ^ (8 * size s - 1)); [|lia].
  destruct (Z.lt_ge_cases (8 * size u) 0).
  - rewrite Z.pow_neg_r by lia. apply Z.pow_nonneg. lia.
  - apply Z.pow_le_mono_r; lia.
Qed.

Lemma intBalance_spec a b :
  intBalance a b = Ret (spec_balance a b, spec_balance a b).
Proof.
  destruct a as [wa sa], b as [wb sb].
  unfold intBalance, spec_balance, intType_eqb, intResize, intUnsigned, intSigned.
  cbn [size signed]. rewrite !Z.gtb_ltb, !Z.geb_leb.
  destruct (Z.lt_trichotomy wa wb) as [H|[H|H]];
    destruct sa, sb; cbn [Bool.eqb negb andb]; cmp_tac;
    cbn [bind size signed Bool.eqb negb andb]; cmp_tac;
    cbn [bind size signed Bool.eqb negb andb]; cmp_tac;
    rewrite ?(Z.max_r wa wb), ?(Z.max_l wa wb) by lia;
    try (rewrite represents_lt by (cbn [size]; lia));
    try subst wb; try reflexivity.
Qed.

Lemma intPromote_spec t : intPromote t = spec_promote t.
Proof. reflexivity. Qed.

Lemma intPromote_idem t : intPromote (intPromote t) = intPromote t.
Proof.
  unfold intPromote, intSize. destruct (Z.ltb_spec (size t) 4) as [H|H]; cbn [size].
  - reflexivity.
  - destruct (Z.ltb_spec (size t) 4); [lia|reflexivity].
Qed.

Lemma set_intType_twice v a b : set_intType (set_intType v a) b = set_intType v b.
Proof. destruct v; reflexivity. Qed.

Lemma intTyp_set_intType v a : intTyp (set_intType v a) = a.
Proof. destruct v; reflexivity. Qed.

Lemma intTyp_newValueIntLike v val : intTyp (newValueIntLike v val) = intTyp v.
Proof. destruct v; reflexivity. Qed.

Lemma typ_newValueIntLike v val : typ (newValueIntLike v val) = typ v.
Proof. destruct v; reflexivity. Qed.

Lemma magnitude_intTyp v : intTyp (snd (magnitude v)) = intTyp v.
Proof. unfold magnitude. destruct (signed (intTyp v) && (AsInt v <? 0)); destruct v; reflexivity. Qed.

Lemma magnitude_typ v : typ (snd (magnitude v)) = typ v.
Proof. unfold magnitude. destruct (signed (intTyp v) && (AsInt v <? 0)); destruct v; reflexivity. Qed.

(** The operand conversion of a balancing operator, in the words of the
    specification. *)
Lemma operatorApply_balancing op v1 v2 v3 :
  balancing (tok_typ op) = true -> IsInt v1 = true -> IsInt v2 = true ->
  let T := spec_balance (spec_promote (intTyp v1)) (spec_promote (intTyp v2)) in
  operatorApply op 2 v1 v2 v3
  = operandEval op 2 (set_intType v1 T) (set_intType v2 T) v3.
Proof.
  intros Hb H1 H2 T. unfold operatorApply, operandCheck, operandConvert, checkBinary.
  destruct (tok_typ op) eqn:Et; try discriminate Hb;
    cbn [Z.eqb Pos.eqb negb]; rewrite ?H1, ?H2; cbn [negb];
    unfold convertBalance; rewrite ?intTyp_set_intType, ?intPromote_idem;
    rewrite intBalance_spec; cbn [bind fst snd];
    rewrite ?set_intType_twice; reflexivity.
Qed.


(** C1: for two integer operands of a binary arithmetic, relational,
    equality, bitwise or logical operator (shifts excluded) the evaluator
    promotes each operand type ([intPromote] is the promotion of the
    specification) and balances the two ([intBalance] never panics and yields
    twice the common type [spec_balance] of the specification); the operator
    is then evaluated on the operands at that common type [T].  An arithmetic
    or bitwise result has type [T], the other results are the booleans.  And
    (0x7fffffff: s32) + (1: u32) is the unsigned 32-bit value 0x80000000. *)
Theorem promotion_then_balancing op v1 v2 v3 :
  balancing (tok_typ op) = true -> IsInt v1 = true -> IsInt v2 = true ->
  let T := spec_balance (spec_promote (intTyp v1)) (spec_promote (intTyp v2)) in
  (forall t, intPromote t = spec_promote t) /\
  (forall a b, intBalance a b = Ret (spec_balance a b, spec_balance a b)) /\
  operatorApply op 2 v1 v2 v3
    = operandEval op 2 (set_intType v1 T) (set_intType v2 T) v3 /\
  (forall r, operatorApply op 2 v1 v2 v3 = Ret r ->
     if arithmetic (tok_typ op) then IsInt r = true /\ intTyp r = T
     else r = valueTrue \/ r = valueFalse) /\
  operatorApply (mkToken tokenPlus 0 "+") 2
    (NewValueInt 0x7fffffff 4 true) (NewValueInt 1 4 false) zeroValue
    = Ret (NewValueInt 0x80000000 4 false).
Proof.
  intros Hb H1 H2 T.
  split; [exact intPromote_spec|]. split; [exact intBalance_spec|].
  split; [apply operatorApply_balancing; assumption|].
  split; [|reflexivity].
  intros r. rewrite operatorApply_balancing by assumption. fold T.
  unfold operandEval.
  destruct (tok_typ op) eqn:Et; try discriminate Hb; cbn [arithmetic Z.eqb Pos.eqb].
  all: try (intros [= <-]; rewrite typ_newValueIntLike || idtac).
  all: try (unfold IsInt; rewrite typ_newValueIntLike, intTyp_newValueIntLike, intTyp_set_intType;
            split; [destruct v1; exact H1|reflexivity]).
  all: try (match goal with |- context [NewValueBool ?b] => destruct b end; cbn; auto; fail).
  all: try (destruct (signed (intTyp (set_intType v1 T))); intros [= <-];
            match goal with |- context [NewValueBool ?b] => destruct b end; cbn; auto; fail).
  - (* division *)
    pose proof (magnitude_intTyp (set_intType v1 T)) as Ht.
    pose proof (magnitude_typ (set_intType v1 T)) as Hty.
    destruct (magnitude (set_intType v1 T)) as [i1 m1].
    destruct (magnitude (set_intType v2 T)) as [i2 m2].
    cbn [snd] in *.
    destruct (AsUint64 m2 =? 0); [discriminate|]. intros [= <-].
    unfold IsInt. rewrite typ_newValueIntLike, intTyp_newValueIntLike, Ht, Hty, intTyp_set_intType.
    split; [destruct v1; exact H1|reflexivity].
  - pose proof (magnitude_intTyp (set_intType v1 T)) as Ht.
    pose proof (magnitude_typ (set_intType v1 T)) as Hty.
    destruct (magnitude (set_intType v1 T)) as [i1 m1].
    destruct (magnitude (set_intType v2 T)) as [i2 m2].
    cbn [snd] in *.
    destruct (AsUint64 m2 =? 0); [discriminate|]. intros [= <-].
    unfold IsInt. rewrite typ_newValueIntLike, intTyp_newValueIntLike, Ht, Hty, intTyp_set_intType.
    split; [destruct v1; exact H1|reflexivity].
Qed.

(** C1, at the operands of the specification's example: the signed side is
    evaluated as unsigned 32-bit. *)
Lemma promotion_then_balancing_witness :
  operatorApply (opToken tokenPlus "+") 2
    (NewValueInt 0x7fffffff 4 true) (NewValueInt 1 4 false) zeroValue
  = operandEval (opToken tokenPlus "+") 2
      (NewValueInt 0x7fffffff 4 false) (NewValueInt 1 4 false) zeroValue.
Proof.
  exact (proj1 (proj2 (proj2
           (promotion_then_balancing (opToken tokenPlus "+")
              (NewValueInt 0x7fffffff 4 true) (NewValueInt 1 4 false) zeroValue
              eq_refl eq_refl eq_refl)))).
Defined.

(** *** Division and modulus *)

Lemma quot_magnitude a b : b <> 0 ->
  Z.quot a b = if xorb (a <? 0) (b <? 0) then - (Z.abs a / Z.abs b) else Z.abs a / Z.abs b.
Proof.
  intros Hb.
  destruct (Z.ltb_spec a 0), (Z.ltb_spec b 0); cbn [xorb].
  - rewrite <- (Z.opp_involutive a) at 1. rewrite <- (Z.opp_involutive b) at 1.
    rewrite Z.quot_opp_opp by lia. rewrite Z.quot_div_nonneg by lia.
    rewrite !Z.abs_neq by lia. reflexivity.
  - rewrite <- (Z.opp_involutive a) at 1. rewrite Z.quot_opp_l by lia.
    rewrite Z.quot_div_nonneg by lia. rewrite Z.abs_neq, Z.abs_eq by lia. reflexivity.
  - rewrite <- (Z.opp_involutive b) at 1. rewrite Z.quot_opp_r by lia.
    rewrite Z.quot_div_nonneg by lia. rewrite Z.abs_eq, Z.abs_neq by lia. reflexivity.
  - rewrite Z.quot_div_nonneg by lia. rewrite !Z.abs_eq by lia. reflexivity.
Qed.

Lemma rem_magnitude a b : b <> 0 ->
  Z.rem a b = if a <? 0 then - (Z.abs a mod Z.abs b) else Z.abs a mod Z.abs b.
Proof.
  intros Hb.
  destruct (Z.ltb_spec a 0), (Z.ltb_spec b 0).
  - rewrite <- (Z.opp_involutive a) at 1. rewrite <- (Z.opp_involutive b) at 1.
    rewrite Z.rem_opp_opp by lia. rewrite Z.rem_mod_nonneg by lia.
    rewrite !Z.abs_neq by lia. reflexivity.
  - rewrite <- (Z.opp_involutive a) at 1. rewrite Z.rem_opp_l by lia.
    rewrite Z.rem_mod_nonneg by lia. rewrite Z.abs_neq, Z.abs_eq by lia. reflexivity.
  - rewrite <- (Z.opp_involutive b) at 1. rewrite Z.rem_opp_r by lia.
    rewrite Z.rem_mod_nonneg by lia. rewrite Z.abs_eq, Z.abs_neq by lia. reflexivity.
  - rewrite Z.rem_mod_nonneg by lia. rewrite !Z.abs_eq by lia. reflexivity.
Qed.

Lemma int64_u64 x : - 2 ^ 63 <= x < 2 ^ 63 -> int64 (u64 x) = x.
Proof.
  intros Hx. unfold int64, u64. rewrite Z.mod_mod by lia.
  destruct (Z.le_gt_cases 0 x).
  - rewrite Z.mod_small by lia. destruct (Z.ltb_spec x (2^63)); lia.
  - assert (E : x mod 2 ^ 64 = x + 2 ^ 64) by (symmetry; apply Z.mod_unique with (q := -1); lia).
    rewrite E. destruct (Z.ltb_spec (x + 2^64) (2^63)); lia.
Qed.

Lemma validSize_cases t : validSize (size t) ->
  exists s, t = mkIntType 1 s \/ t = mkIntType 2 s \/ t = mkIntType 4 s \/ t = mkIntType 8 s.
Proof.
  destruct t as [w s]. cbn [size]. intros [->|[->|[->| ->]]]; exists s; auto.
Qed.

Lemma balance_valid t1 t2 : validSize (size t1) -> validSize (size t2) ->
  validSize (size (spec_balance (spec_promote t1) (spec_promote t2))).
Proof.
  intros H1 H2.
  destruct (validSize_cases t1 H1) as [s1 [->|[->|[->| ->]]]];
  destruct (validSize_cases t2 H2) as [s2 [->|[->|[->| ->]]]];
  destruct s1, s2; vm_compute; auto.
Qed.

Lemma promote_valid t : validSize (size t) -> validSize (size (intPromote t)).
Proof.
  intros H. destruct (validSize_cases t H) as [s [->|[->|[->| ->]]]]; vm_compute; auto.
Qed.

Lemma balance_range t1 t2 x :
  validSize (size t1) -> validSize (size t2) -> inRange t1 x ->
  forall T, T = spec_balance (spec_promote t1) (spec_promote t2) \/
            T = spec_balance (spec_promote t2) (spec_promote t1) ->
  signed T = true -> inRange T x.
Proof.
  intros H1 H2 Hr T HT Hs.
  destruct (validSize_cases t1 H1) as [s1 [->|[->|[->| ->]]]];
  destruct (validSize_cases t2 H2) as [s2 [->|[->|[->| ->]]]];
  destruct s1, s2; destruct HT as [-> | ->];
  vm_compute in Hs; try discriminate Hs;
  unfold inRange, bitsOf in *; cbn [size signed spec_balance] in *;
  match goal with
  | |- context [spec_balance ?a ?b] =>
      let r := eval vm_compute in (spec_balance a b) in
      change (spec_balance a b) with r
  end; cbn [size signed]; lia.
Qed.

Lemma inRange_int64 t x : validSize (size t) -> signed t = true -> inRange t x ->
  - 2 ^ 63 <= x < 2 ^ 63.
Proof.
  intros Hv Hs Hr. unfold inRange in Hr. rewrite Hs in Hr.
  destruct (bitsOf_valid t Hv) as [Hk _].
  assert (2 ^ (bitsOf t - 1) <= 2 ^ 63) by (apply Z.pow_le_mono_r; lia). lia.
Qed.

Lemma canonical_value v : validSize (size (intTyp v)) -> canonical v ->
  exists x, inRange (intTyp v) x /\ intVal v = u64 x.
Proof.
  intros Hv Hc. exists (cvalue (intTyp v) (intVal v)). split.
  - apply cvalue_inRange; assumption.
  - exact Hc.
Qed.

(** Under a signed common type the stored pattern of an operand, read as
    [int64], is the operand's value at the common type. *)
Lemma signed_operand_view v t2 T :
  validSize (size (intTyp v)) -> validSize (size t2) -> canonical v ->
  T = spec_balance (spec_promote (intTyp v)) (spec_promote t2) \/
  T = spec_balance (spec_promote t2) (spec_promote (intTyp v)) ->
  signed T = true ->
  AsInt (set_intType v T) = cvalue T (intVal v).
Proof.
  intros H1 H2 Hc HT Hs.
  destruct (canonical_value v H1 Hc) as [x [Hr Hx]].
  assert (HvT : validSize (size T))
    by (destruct HT as [-> | ->]; apply balance_valid; assumption).
  pose proof (balance_range _ _ _ H1 H2 Hr T HT Hs) as HrT.
  unfold AsInt. destruct v as [ty sv iv it lv]. cbn [set_intType intVal intTyp] in *.
  rewrite Hx, cvalue_u64, cvalue_id by assumption.
  apply int64_u64. eapply inRange_int64; eassumption.
Qed.

Lemma AsUint64_set v T : validSize (size T) ->
  AsUint64 (set_intType v T) = intVal v mod 2 ^ bitsOf T.
Proof.
  intros. destruct v. unfold AsUint64. cbn [set_intType intVal intTyp].
  apply intClamp_mod. assumption.
Qed.

(** [magnitude] yields the sign and the absolute value of the operand. *)
Lemma magnitude_spec v T :
  validSize (size T) ->
  (signed T = true -> AsInt (set_intType v T) = cvalue T (intVal v)) ->
  let a := cvalue T (intVal v) in
  exists m, magnitude (set_intType v T) = (a <? 0, m) /\
            AsUint64 m = Z.abs a /\ intTyp m = T /\ typ m = typ v.
Proof.
  intros HvT Hview a.
  destruct (bitsOf_valid T HvT) as [Hk Hd].
  pose proof (pow_bits_split (bitsOf T) ltac:(lia)) as Hsplit.
  pose proof (cvalue_inRange T (intVal v) HvT) as Hr. fold a in Hr.
  unfold magnitude. rewrite intTyp_set_intType.
  destruct (signed T) eqn:Hs; cbn [andb].
  - rewrite (Hview eq_refl). fold a. unfold inRange in Hr. rewrite Hs in Hr.
    destruct (Z.ltb_spec a 0).
    + eexists. split; [reflexivity|].
      destruct v as [ty sv iv it lv]. unfold AsUint64.
      cbn [set_intType set_intVal intVal intTyp typ].
      split; [|split; reflexivity].
      rewrite intClamp_mod by assumption. rewrite mod_u64 by assumption.
      rewrite Z.abs_neq by lia. apply Z.mod_small. lia.
    + eexists. split; [reflexivity|]. split; [|split].
      * rewrite AsUint64_set by assumption. rewrite Z.abs_eq by lia.
        unfold a, cvalue in *. rewrite Hs in *. cbn [andb] in *.
        pose proof (Z.mod_pos_bound (intVal v) (2 ^ bitsOf T) ltac:(lia)).
        destruct (Z.leb_spec (2 ^ (bitsOf T - 1)) (intVal v mod 2 ^ bitsOf T)); lia.
      * apply intTyp_set_intType.
      * destruct v; reflexivity.
  - assert (Ha : a = intVal v mod 2 ^ bitsOf T)
      by (unfold a, cvalue; rewrite Hs; reflexivity).
    pose proof (Z.mod_pos_bound (intVal v) (2 ^ bitsOf T) ltac:(lia)).
    replace (a <? 0) with false by (symmetry; apply Z.ltb_ge; lia).
    eexists. split; [reflexivity|]. split; [|split].
    + rewrite AsUint64_set by assumption. rewrite Z.abs_eq by lia. auto.
    + apply intTyp_set_intType.
    + destruct v; reflexivity.
Qed.

Lemma encode_neg_int64 T r : validSize (size T) ->
  encode T (u64 (- int64 r)) = encode T (- r).
Proof.
  intros Hv. rewrite encode_u64 by assumption. apply encode_congr.
  destruct (bitsOf_valid T Hv) as [Hk Hd].
  rewrite <- (Z.mod_mod_divide (- int64 r) _ _ Hd), <- (Z.mod_mod_divide (- r) _ _ Hd).
  f_equal. unfold int64, u64.
  pose proof (Z.div_mod r (2 ^ 64) ltac:(lia)) as E.
  destruct (r mod 2 ^ 64 <? 2 ^ 63).
  - replace (- (r mod 2 ^ 64)) with (- r + (r / 2 ^ 64) * 2 ^ 64) by lia.
    apply Z.mod_add. lia.
  - replace (- (r mod 2 ^ 64 - 2 ^ 64)) with (- r + (r / 2 ^ 64 + 1) * 2 ^ 64) by lia.
    apply Z.mod_add. lia.
Qed.

Lemma div_mod_eval (modulo : bool) v1 v2 :
  IsInt v1 = true ->
  validSize (size (intTyp v1)) -> validSize (size (intTyp v2)) ->
  canonical v1 -> canonical v2 ->
  let T := spec_balance (spec_promote (intTyp v1)) (spec_promote (intTyp v2)) in
  let a := cvalue T (intVal v1) in
  let b := cvalue T (intVal v2) in
  b <> 0 ->
  forall op v3, tok_typ op = (if modulo then tokenMod else tokenDiv) ->
  exists r, operandEval op 2 (set_intType v1 T) (set_intType v2 T) v3 = Ret r /\
            IsInt r = true /\ intTyp r = T /\
            intVal r = encode T (if modulo then Z.rem a b else Z.quot a b).
Proof.
  intros Hi1 H1 H2 C1 C2 T a b Hb op v3 Hop.
  assert (HvT : validSize (size T)) by (apply balance_valid; assumption).
  destruct (magnitude_spec v1 T HvT) as [m1 [E1 [A1 [T1 Y1]]]].
  { intros Hs. apply (signed_operand_view v1 (intTyp v2) T); auto. }
  destruct (magnitude_spec v2 T HvT) as [m2 [E2 [A2 [T2 Y2]]]].
  { intros Hs. apply (signed_operand_view v2 (intTyp v1) T); auto. }
  fold a in E1, A1. fold b in E2, A2.
  unfold operandEval. rewrite Hop.
  destruct modulo; rewrite E1, E2, A1, A2;
    (replace (Z.abs b =? 0) with false by (symmetry; apply Z.eqb_neq; lia));
    eexists; (split; [reflexivity|]);
    unfold IsInt; rewrite typ_newValueIntLike, intTyp_newValueIntLike, Y1, T1;
    (split; [exact Hi1|]); (split; [reflexivity|]);
    rewrite newValueIntLike_intVal by (rewrite T1; exact HvT); rewrite T1.
  - rewrite rem_magnitude by assumption.
    destruct (a <? 0); [apply encode_neg_int64; assumption|reflexivity].
  - rewrite quot_magnitude by assumption.
    destruct (xorb (a <? 0) (b <? 0)); [apply encode_neg_int64; assumption|reflexivity].
Qed.

(** C2: for two integer operands with canonical stored patterns and a
    divisor that is not zero at the balanced type [T], [/] yields the
    truncating quotient [Z.quot a b] and [%] the remainder [Z.rem a b] of the
    operands' values [a], [b] at [T], wrapped into [T]: the sign of the
    quotient is the XOR of the operands' signs, the sign of the remainder is
    the sign of the dividend (C99).  And -8 / 3 = -2, -8 % 3 = -2,
    8 / -3 = -2, 8 % -3 = 2. *)
Theorem division_modulus_c99 op v1 v2 v3 :
  IsInt v1 = true -> IsInt v2 = true ->
  validSize (size (intTyp v1)) -> validSize (size (intTyp v2)) ->
  canonical v1 -> canonical v2 ->
  let T := spec_balance (spec_promote (intTyp v1)) (spec_promote (intTyp v2)) in
  let a := cvalue T (intVal v1) in
  let b := cvalue T (intVal v2) in
  b <> 0 ->
  (tok_typ op = tokenDiv ->
   exists r, operatorApply op 2 v1 v2 v3 = Ret r /\ IsInt r = true /\
             intTyp r = T /\ intVal r = encode T (Z.quot a b)) /\
  (tok_typ op = tokenMod ->
   exists r, operatorApply op 2 v1 v2 v3 = Ret r /\ IsInt r = true /\
             intTyp r = T /\ intVal r = encode T (Z.rem a b)) /\
  (forall (EvalContext Variable_ Function_ : Type)
          (VG : Variable_ -> EvalContext -> outcome Value)
          (FG : Function_ -> EvalContext -> list Value -> outcome Value)
          (ctx : EvalContext),
     let eval e := Expression_Value VG FG e ctx in
     let neg := unary tokenMinus "-" in
     eval (binary tokenDiv "/" (neg (lit 8)) (lit 3)) = eval (neg (lit 2)) /\
     eval (binary tokenMod "%" (neg (lit 8)) (lit 3)) = eval (neg (lit 2)) /\
     eval (binary tokenDiv "/" (lit 8) (neg (lit 3))) = eval (neg (lit 2)) /\
     eval (binary tokenMod "%" (lit 8) (neg (lit 3))) = eval (lit 2) /\
     eval (neg (lit 2)) = Ret (NewValueInt (2 ^ 64 - 2) 4 true)).
Proof.
  intros Hi1 Hi2 H1 H2 C1 C2 T a b Hb. split; [|split].
  - intros Hop. rewrite operatorApply_balancing by (rewrite ?Hop; auto).
    apply (div_mod_eval false); assumption.
  - intros Hop. rewrite operatorApply_balancing by (rewrite ?Hop; auto).
    apply (div_mod_eval true); assumption.
  - intros. repeat split; vm_compute; reflexivity.
Qed.

(** C2, at -8 / 3 on [int] operands. *)
Lemma division_modulus_c99_witness :
  exists r, operatorApply (opToken tokenDiv "/") 2
              (NewValueInt (2 ^ 64 - 8) 4 true) (NewValueInt 3 4 true) zeroValue = Ret r /\
            IsInt r = true /\ intTyp r = mkIntType 4 true /\
            intVal r = encode (mkIntType 4 true) (Z.quot (-8) 3).
Proof.
  refine (proj1 (division_modulus_c99 (opToken tokenDiv "/")
            (NewValueInt (2 ^ 64 - 8) 4 true) (NewValueInt 3 4 true) zeroValue
            eq_refl eq_refl _ _ _ _ _) eq_refl).
  - right; right; left; reflexivity.
  - right; right; left; reflexivity.
  - vm_compute; reflexivity.
  - vm_compute; reflexivity.
  - vm_compute; discriminate.
Defined.

(** *** Shifts *)

Lemma shr64_div x c : 0 <= x < 2 ^ 64 -> 0 <= c -> shr64 x c = x / 2 ^ c.
Proof.
  intros Hx Hc. unfold shr64. destruct (Z.leb_spec 64 c).
  - symmetry. apply Z.div_small.
    assert (2 ^ 64 <= 2 ^ c) by (apply Z.pow_le_mono_r; lia). lia.
  - apply Z.shiftr_div_pow2. lia.
Qed.

Lemma encode_shl64 T x c : validSize (size T) -> 0 <= c ->
  encode T (shl64 x c) = encode T (x * 2 ^ c).
Proof.
  intros Hv Hc. destruct (bitsOf_valid T Hv) as [Hk Hd].
  unfold shl64. destruct (Z.leb_spec 64 c).
  - apply encode_congr. rewrite Z.mod_0_l by lia. symmetry.
    replace c with ((c - bitsOf T) + bitsOf T) by lia.
    rewrite Z.pow_add_r by lia. rewrite Z.mul_assoc. apply Z.mod_mul. lia.
  - rewrite encode_u64 by assumption. rewrite Z.shiftl_mul_pow2 by lia. reflexivity.
Qed.

Lemma mod_bits_range T p : validSize (size T) ->
  0 <= p mod 2 ^ bitsOf T < 2 ^ bitsOf T /\ 2 ^ bitsOf T <= 2 ^ 64.
Proof.
  intros Hv. destruct (bitsOf_valid T Hv) as [Hk Hd]. split.
  - apply Z.mod_pos_bound. lia.
  - apply Z.pow_le_mono_r; lia.
Qed.

Lemma encode_small T y : validSize (size T) -> 0 <= y < 2 ^ (bitsOf T - 1) ->
  encode T y = y.
Proof.
  intros Hv Hy. destruct (bitsOf_valid T Hv) as [Hk Hd].
  pose proof (pow_bits_split (bitsOf T) ltac:(lia)) as Hs.
  assert (2 ^ bitsOf T <= 2 ^ 64) by (apply Z.pow_le_mono_r; lia).
  unfold encode. rewrite cvalue_id; [apply Z.mod_small; lia|assumption|].
  unfold inRange. destruct (signed T); lia.
Qed.

Lemma shift_apply op v1 v2 v3 :
  tok_typ op = tokenLeftShift \/ tok_typ op = tokenRightShift ->
  IsInt v1 = true -> IsInt v2 = true ->
  operatorApply op 2 v1 v2 v3
  = operandEval op 2 (set_intType v1 (spec_promote (intTyp v1)))
                     (set_intType v2 (spec_promote (intTyp v2))) v3.
Proof.
  intros Hop H1 H2. unfold operatorApply, operandCheck, operandConvert, checkBinary.
  destruct Hop as [-> | ->]; cbn [Z.eqb Pos.eqb negb]; rewrite H1, H2; reflexivity.
Qed.

(** C3, as the code has it: [<<] and [>>] promote each operand on its own
    and do not balance; the count [c] is the right operand clamped to its
    promoted width, read as unsigned; the left operand is clamped to its
    promoted width before the shift, so [>>] is the logical shift [x / 2^c]
    of the zero-extended pattern [x] for signed and unsigned left operands
    alike; the result is wrapped into the left operand's promoted type, and
    after a shift by a count that is not zero it is never negative. *)
Theorem shifts_promote_and_shift_logically op v1 v2 v3 :
  IsInt v1 = true -> IsInt v2 = true ->
  validSize (size (intTyp v1)) -> validSize (size (intTyp v2)) ->
  let T1 := spec_promote (intTyp v1) in
  let T2 := spec_promote (intTyp v2) in
  let x := intVal v1 mod 2 ^ bitsOf T1 in
  let c := intVal v2 mod 2 ^ bitsOf T2 in
  (tok_typ op = tokenLeftShift ->
   exists r, operatorApply op 2 v1 v2 v3 = Ret r /\ IsInt r = true /\
             intTyp r = T1 /\ intVal r = encode T1 (x * 2 ^ c)) /\
  (tok_typ op = tokenRightShift ->
   exists r, operatorApply op 2 v1 v2 v3 = Ret r /\ IsInt r = true /\
             intTyp r = T1 /\ intVal r = encode T1 (x / 2 ^ c) /\
             (0 < c -> intVal r = x / 2 ^ c /\ 0 <= cvalue T1 (intVal r))).
Proof.
  intros Hi1 Hi2 H1 H2 T1 T2 x c.
  assert (HT1 : validSize (size T1)) by (apply promote_valid; assumption).
  assert (HT2 : validSize (size T2)) by (apply promote_valid; assumption).
  destruct (mod_bits_range T1 (intVal v1) HT1) as [Hx Hx64]. fold x in Hx.
  destruct (mod_bits_range T2 (intVal v2) HT2) as [Hc Hc64]. fold c in Hc.
  destruct (bitsOf_valid T1 HT1) as [Hk Hd].
  pose proof (pow_bits_split (bitsOf T1) ltac:(lia)) as Hs.
  split; intros Hop; rewrite shift_apply by auto;
    unfold operandEval; rewrite Hop; rewrite !AsUint64_set by assumption;
    fold T1 T2 x c; eexists; (split; [reflexivity|]);
    unfold IsInt; rewrite typ_newValueIntLike, intTyp_newValueIntLike, intTyp_set_intType;
    (split; [destruct v1; exact Hi1|]); (split; [reflexivity|]);
    rewrite newValueIntLike_intVal by (rewrite intTyp_set_intType; exact HT1);
    rewrite intTyp_set_intType.
  - apply encode_shl64; [assumption|lia].
  - rewrite shr64_div by lia. split; [reflexivity|]. intros Hpos.
    assert (Hq : 0 <= x / 2 ^ c < 2 ^ (bitsOf T1 - 1)).
    { split; [apply Z.div_pos; lia|].
      apply Z.div_lt_upper_bound; [lia|].
      assert (2 ^ 1 <= 2 ^ c) by (apply Z.pow_le_mono_r; lia).
      change (2 ^ 1) with 2 in *. nia. }
    rewrite encode_small by assumption. split; [reflexivity|].
    rewrite cvalue_id; [lia|assumption|].
    unfold inRange. destruct (signed T1); lia.
Qed.

(** C3, at -8 >> 1 on [int] operands. *)
Lemma shifts_promote_and_shift_logically_witness :
  exists r, operatorApply (opToken tokenRightShift ">>") 2
              (NewValueInt (2 ^ 64 - 8) 4 true) (NewValueInt 1 4 true) zeroValue = Ret r /\
            IsInt r = true /\ intTyp r = mkIntType 4 true /\
            intVal r = encode (mkIntType 4 true) (4294967288 / 2 ^ 1) /\
            (0 < 1 -> intVal r = 4294967288 / 2 ^ 1 /\
                      0 <= cvalue (mkIntType 4 true) (intVal r)).
Proof.
  refine (proj2 (shifts_promote_and_shift_logically (opToken tokenRightShift ">>")
            (NewValueInt (2 ^ 64 - 8) 4 true) (NewValueInt 1 4 true) zeroValue
            eq_refl eq_refl _ _) eq_refl).
  - right; right; left; reflexivity.
  - right; right; left; reflexivity.
Defined.

(** C3 fails as stated: -8 >> 1 on [int] operands is 2147483644, not a
    negative number; the sign of the left operand is lost. *)
Lemma right_shift_of_negative_is_not_arithmetic :
  evalConst (unary tokenMinus "-" (lit 8)) = Ret (NewValueInt (2 ^ 64 - 8) 4 true) /\
  cvalue (mkIntType 4 true) (2 ^ 64 - 8) = -8 /\
  evalConst (binary tokenRightShift ">>" (unary tokenMinus "-" (lit 8)) (lit 1))
    = Ret (NewValueInt 2147483644 4 true) /\
  cvalue (mkIntType 4 true) 2147483644 = 2147483644 /\
  ~ (cvalue (mkIntType 4 true) 2147483644 < 0).
Proof.
  repeat split; try (vm_compute; reflexivity).
  vm_compute. discriminate.
Qed.

(** *** The conditional operator *)

Lemma ternary_apply op v1 v2 v3 :
  tok_typ op = tokenQuestion ->
  operatorApply op 3 v1 v2 v3 =
  Ret (if negb (IsInt v1) then
         NewValueError ("expected integer as operand to " ++ tok_val op)
       else
         let T := spec_balance (spec_promote (intTyp v2)) (spec_promote (intTyp v3)) in
         if AsBool v1 then set_intType v2 T else set_intType v3 T).
Proof.
  intros Hop. unfold operatorApply, operandCheck, operandConvert, operandEval.
  rewrite Hop. cbn [Z.eqb Pos.eqb negb].
  destruct (IsInt v1); cbn [negb]; [|reflexivity].
  rewrite intBalance_spec. cbn [bind fst snd].
  destruct v1 as [ty sv iv it lv]. unfold AsBool. cbn [intVal].
  destruct (negb (iv =? 0)); reflexivity.
Qed.

Section Conditional.
Context {EvalContext Variable_ Function_ : Type}.
Context (VG : Variable_ -> EvalContext -> outcome Value).
Context (FG : Function_ -> EvalContext -> list Value -> outcome Value).
Context (ctx : EvalContext).

(** C4, as the code has it: all three operands of [a ? b : c] are
    evaluated, in order, before the condition is looked at.  With [a] and [b]
    evaluated to values that are not Errors: a panic in [c] is a panic of the
    whole expression, an Error value of [c] is the result whatever [a] says,
    and otherwise the result is the stored pattern of the chosen arm under
    the balanced type of the promoted types of [b] and [c]. *)
Theorem conditional_evaluates_all_operands op a b c va vb :
  tok_typ op = tokenQuestion ->
  Expression_Value VG FG a ctx = Ret va -> IsError va = false ->
  Expression_Value VG FG b ctx = Ret vb -> IsError vb = false ->
  (forall msg, Expression_Value VG FG c ctx = Panic msg ->
     Expression_Value VG FG (operatorExpression op [a; b; c]) ctx = Panic msg) /\
  (forall vc, Expression_Value VG FG c ctx = Ret vc ->
     Expression_Value VG FG (operatorExpression op [a; b; c]) ctx =
     Ret (if IsError vc then vc
          else if negb (IsInt va) then
            NewValueError ("expected integer as operand to " ++ tok_val op)
          else
            let T := spec_balance (spec_promote (intTyp vb)) (spec_promote (intTyp vc)) in
            if AsBool va then set_intType vb T else set_intType vc T)).
Proof.
  intros Hop Ea Ha Eb Hb. split.
  - intros msg Ec. cbn [Expression_Value]. rewrite Ea. cbn [bind]. rewrite Ha.
    rewrite Eb. cbn [bind]. rewrite Hb. rewrite Ec. reflexivity.
  - intros vc Ec. cbn [Expression_Value]. rewrite Ea. cbn [bind]. rewrite Ha.
    rewrite Eb. cbn [bind]. rewrite Hb. rewrite Ec. cbn [bind].
    destruct (IsError vc); [reflexivity|].
    change (Z.of_nat (List.length [a; b; c])) with 3.
    apply ternary_apply. exact Hop.
Qed.

End Conditional.

(** C4, at [1 ? 2 : 3u]: the chosen arm comes back as unsigned 32-bit. *)
Lemma conditional_evaluates_all_operands_witness :
  evalConst (ternary (lit 1) (lit 2) (litU 3)) = Ret (NewValueInt 2 4 false).
Proof.
  refine (proj2 (conditional_evaluates_all_operands _ _ tt
            (opToken tokenQuestion "?") (lit 1) (lit 2) (litU 3)
            (NewValueInt 1 4 true) (NewValueInt 2 4 true)
            eq_refl eq_refl eq_refl eq_refl eq_refl)
          (NewValueInt 3 4 false) eq_refl).
Defined.

(** C4 fails as stated: with a condition that is not zero and the arm [b]
    equal to 2, an Error value in the arm [c] is the result. *)
Lemma unchosen_arm_is_evaluated :
  evalConst (ternary (lit 1) (lit 2) (constantExpression None (NewValueError "boom")))
    = Ret (NewValueError "boom") /\
  evalConst (lit 2) = Ret (NewValueInt 2 4 true) /\
  NewValueError "boom" <> NewValueInt 2 4 true.
Proof.
  repeat split; try (vm_compute; reflexivity). discriminate.
Qed.

(** *** The representation invariant *)

Lemma high_bits_clear m k i : 0 <= k <= i -> 0 <= m < 2 ^ k -> Z.testbit m i = false.
Proof.
  intros Hk Hm. rewrite <- (Z.mod_small m (2 ^ k)) by lia.
  apply Z.mod_pow2_bits_high. lia.
Qed.

Lemma high_mask_bits k i : 0 <= k <= i -> i < 64 ->
  Z.testbit (2 ^ 64 - 2 ^ k) i = true.
Proof.
  intros Hk Hi.
  replace (2 ^ 64 - 2 ^ k) with (Z.shiftl (Z.ones (64 - k)) k).
  - rewrite Z.shiftl_spec_high by lia. apply Z.ones_spec_low. lia.
  - rewrite Z.shiftl_mul_pow2, Z.ones_equiv by lia.
    replace (2 ^ 64) with (2 ^ (64 - k) * 2 ^ k)
      by (rewrite <- Z.pow_add_r by lia; f_equal; lia).
    lia.
Qed.

Lemma encode_normalized t z : validSize (size t) -> normalized t (encode t z).
Proof.
  intros Hv. destruct (bitsOf_valid t Hv) as [Hk Hd].
  pose proof (pow_bits_split (bitsOf t) ltac:(lia)) as Hs.
  destruct (mod_bits_range t z Hv) as [Hm H64].
  split; [apply encode_range; assumption|].
  unfold encode, cvalue in *. set (m := z mod 2 ^ bitsOf t) in *.
  destruct (signed t) eqn:Hsg; cbn [andb] in *.
  - destruct (Z.leb_spec (2 ^ (bitsOf t - 1)) m) as [Hneg|Hpos].
    + assert (Ep : u64 (m - 2 ^ bitsOf t) = Z.lor m (2 ^ 64 - 2 ^ bitsOf t)).
      { rewrite lor_high by lia. unfold u64. symmetry.
        apply Z.mod_unique with (q := -1); lia. }
      rewrite Ep.
      assert (Top : Z.testbit m (bitsOf t - 1) = true).
      { rewrite testbit_top; [apply Z.leb_le; assumption|lia|].
        replace (bitsOf t - 1 + 1) with (bitsOf t) by lia. lia. }
      split; [discriminate|]. split.
      * intros _ _ i Hi. rewrite Z.lor_spec.
        destruct (Z.eq_dec i (bitsOf t - 1)) as [->|Hne].
        -- rewrite Top. reflexivity.
        -- rewrite high_mask_bits by lia. apply orb_true_r.
      * intros _ Hf. rewrite Z.lor_spec, Top in Hf. discriminate Hf.
    + assert (Ep : u64 m = m) by (apply Z.mod_small; lia). rewrite Ep.
      split; [discriminate|]. split.
      * intros _ Ht. rewrite (high_bits_clear m (bitsOf t - 1)) in Ht by lia.
        discriminate Ht.
      * intros _ _ i Hi. apply (high_bits_clear m (bitsOf t - 1)); lia.
  - assert (Ep : u64 m = m) by (apply Z.mod_small; lia). rewrite Ep.
    split; [|split; discriminate].
    intros _ i Hi. apply (high_bits_clear m (bitsOf t)); lia.
Qed.

Lemma intTyp_newValueIntCast v t : intTyp (newValueIntCast v t) = t.
Proof. destruct v; reflexivity. Qed.

Lemma newValueIntCast_intVal v t : validSize (size t) ->
  intVal (newValueIntCast v t) = encode t (intVal v).
Proof.
  intros. destruct v. unfold newValueIntCast. cbn [set_intType set_intVal intVal intTyp].
  apply intSignExtend_clamp. assumption.
Qed.


Lemma normalized_newValueIntLike v val : validSize (size (intTyp v)) ->
  normalized (intTyp (newValueIntLike v val)) (intVal (newValueIntLike v val)).
Proof.
  intros Hv. rewrite intTyp_newValueIntLike, newValueIntLike_intVal by assumption.
  apply encode_normalized. assumption.
Qed.

Lemma normalized_bool b :
  normalized (intTyp (NewValueBool b)) (intVal (NewValueBool b)).
Proof.
  assert (Hv : validSize (size (mkIntType 4 true))) by (right; right; left; reflexivity).
  destruct b; cbn [NewValueBool valueTrue valueFalse NewValueInt intTyp intVal].
  - change 1 with (encode (mkIntType 4 true) 1). apply encode_normalized, Hv.
  - change 0 with (encode (mkIntType 4 true) 0). apply encode_normalized, Hv.
Qed.

Lemma error_not_int s : IsInt (NewValueError s) = false.
Proof. reflexivity. Qed.

Lemma operandEval_normalized op n V1 V2 V3 r :
  renormalizing (tok_typ op) n = true ->
  validSize (size (intTyp V1)) ->
  operandEval op n V1 V2 V3 = Ret r ->
  normalized (intTyp r) (intVal r).
Proof.
  intros Hop H1 Hr. unfold operandEval in Hr.
  destruct (tok_typ op) eqn:Et; try discriminate Hop; cbn [renormalizing] in Hop.
  all: try (injection Hr as <-; first [apply normalized_bool
                                      | apply normalized_newValueIntLike; assumption]).
  all: try (destruct (signed (intTyp V1)); injection Hr as <-; apply normalized_bool).
  - (* binary + *)
    apply Z.eqb_eq in Hop. subst n. cbn [Z.eqb Pos.eqb] in Hr.
    injection Hr as <-. apply normalized_newValueIntLike; assumption.
  - (* - *)
    destruct (n =? 1); injection Hr as <-; apply normalized_newValueIntLike; assumption.
  - (* / *)
    pose proof (magnitude_intTyp V1) as Ht.
    destruct (magnitude V1) as [i1 m1]; destruct (magnitude V2) as [i2 m2].
    cbn [snd] in Ht. destruct (AsUint64 m2 =? 0); [discriminate Hr|].
    injection Hr as <-. apply normalized_newValueIntLike. rewrite Ht. assumption.
  - (* % *)
    pose proof (magnitude_intTyp V1) as Ht.
    destruct (magnitude V1) as [i1 m1]; destruct (magnitude V2) as [i2 m2].
    cbn [snd] in Ht. destruct (AsUint64 m2 =? 0); [discriminate Hr|].
    injection Hr as <-. apply normalized_newValueIntLike. rewrite Ht. assumption.
Qed.

Lemma operatorApply_converted op n v1 v2 v3 r :
  renormalizing (tok_typ op) n = true ->
  operatorApply op n v1 v2 v3 = Ret r -> IsInt r = true ->
  exists V1 V2,
    operandEval op n V1 V2 v3 = Ret r /\
    (intTyp V1 = intPromote (intTyp v1) \/
     intTyp V1 = spec_balance (spec_promote (intTyp v1)) (spec_promote (intTyp v2))).
Proof.
  intros Hop Hr Hi.
  unfold operatorApply in Hr.
  destruct (operandCheck op n v1 v2 v3) as [err|] eqn:Ec.
  { exfalso. injection Hr as <-.
    unfold operandCheck, checkBinary in Ec.
    destruct (tok_typ op); try discriminate Hop;
      repeat match type of Ec with
        | context [if ?b then _ else _] => destruct b
        end;
      try discriminate Ec; injection Ec as <-; discriminate Hi. }
  unfold operandConvert, convertBalance in Hr.
  destruct (tok_typ op) eqn:Et; try discriminate Hop;
    rewrite ?intTyp_set_intType, ?intPromote_idem, ?intBalance_spec in Hr;
    cbn [bind fst snd] in Hr.
  all: try (eexists; eexists; split; [exact Hr|];
            rewrite intTyp_set_intType; auto; fail).
  all: destruct (n =? 1); rewrite ?intBalance_spec in Hr; cbn [bind fst snd] in Hr;
       rewrite ?set_intType_twice in Hr.
  all: eexists; eexists; (split; [exact Hr|]).
  all: rewrite intTyp_set_intType; auto.
Qed.

Lemma operator_results_normalized op n v1 v2 v3 r :
  renormalizing (tok_typ op) n = true ->
  validSize (size (intTyp v1)) -> validSize (size (intTyp v2)) ->
  operatorApply op n v1 v2 v3 = Ret r -> IsInt r = true ->
  normalized (intTyp r) (intVal r).
Proof.
  intros Hop H1 H2 Hr Hi.
  destruct (operatorApply_converted op n v1 v2 v3 r Hop Hr Hi) as [V1 [V2 [He HT]]].
  apply (operandEval_normalized op n V1 V2 v3 r Hop); [|exact He].
  destruct HT as [-> | ->]; [apply promote_valid|apply balance_valid]; assumption.
Qed.

(** C5, as the code has it: at the widths 1, 2, 4 and 8 a Value built by
    [newValueIntLike] or by [newValueIntCast] stores a normalized pattern
    (an unsigned pattern has no bit at or above its width; a signed pattern
    with the top bit of its width set has every bit from there up to bit 63
    set, and with that bit clear no bit above it), and so does every integer
    result of an operator other than unary [+] and [?:]. *)
Theorem built_values_are_normalized v val t op n v1 v2 v3 :
  validSize (size (intTyp v)) -> validSize (size t) ->
  validSize (size (intTyp v1)) -> validSize (size (intTyp v2)) ->
  (intTyp (newValueIntLike v val) = intTyp v /\
   normalized (intTyp v) (intVal (newValueIntLike v val))) /\
  (intTyp (newValueIntCast v t) = t /\
   normalized t (intVal (newValueIntCast v t))) /\
  (renormalizing (tok_typ op) n = true ->
   forall r, operatorApply op n v1 v2 v3 = Ret r -> IsInt r = true ->
             normalized (intTyp r) (intVal r)).
Proof.
  intros Hv Ht H1 H2. split; [|split].
  - split; [apply intTyp_newValueIntLike|].
    rewrite newValueIntLike_intVal by assumption. apply encode_normalized; assumption.
  - split; [apply intTyp_newValueIntCast|].
    rewrite newValueIntCast_intVal by assumption. apply encode_normalized; assumption.
  - intros Hop r Hr Hi.
    exact (operator_results_normalized op n v1 v2 v3 r Hop H1 H2 Hr Hi).
Qed.

(** C5, at the pattern 0xffffffff stored into an [int] and at the cast of
    255 to [signed char]. *)
Lemma built_values_are_normalized_witness :
  normalized (mkIntType 4 true)
    (intVal (newValueIntLike (NewValueInt 255 4 true) (2 ^ 32 - 1))) /\
  normalized (mkIntType 1 true)
    (intVal (newValueIntCast (NewValueInt 255 4 true) (mkIntType 1 true))).
Proof.
  assert (V4 : validSize 4) by (right; right; left; reflexivity).
  assert (V1 : validSize 1) by (left; reflexivity).
  destruct (built_values_are_normalized (NewValueInt 255 4 true) (2 ^ 32 - 1)
              (mkIntType 1 true) (opToken tokenPlus "+") 2
              (NewValueInt 255 4 true) (NewValueInt 1 4 true) zeroValue
              V4 V1 V4 V4) as [[_ A] [[_ B] _]].
  split; [exact A|exact B].
Defined.

(** C5 fails as stated: [1 ? -1 : 0u] evaluates to an unsigned 32-bit
    Value whose pattern has all 64 bits set. *)
Lemma conditional_result_not_normalized :
  evalConst (unary tokenMinus "-" (lit 1)) = Ret (NewValueInt (2 ^ 64 - 1) 4 true) /\
  evalConst (ternary (lit 1) (unary tokenMinus "-" (lit 1)) (litU 0))
    = Ret (NewValueInt (2 ^ 64 - 1) 4 false) /\
  ~ normalized (mkIntType 4 false) (2 ^ 64 - 1).
Proof.
  split; [vm_compute; reflexivity|]. split; [vm_compute; reflexivity|].
  intros [_ [H _]]. specialize (H eq_refl 32).
  assert (B : bitsOf (mkIntType 4 false) <= 32) by (vm_compute; discriminate).
  specialize (H B). vm_compute in H. discriminate H.
Qed.
End CparseFacts.

(** ** Facts about the page decoder *)

Module FtraceFacts.
Import Go Ftrace Fixtures.

Lemma byteZ_byteOf z : byteZ (byteOf z) = z mod 256.
Proof.
  unfold byteZ, byteOf.
  pose proof (Z.mod_pos_bound z 256 ltac:(lia)) as H.
  destruct (Byte.of_N (Z.to_N (z mod 256))) eqn:E.
  - apply Byte.to_of_N in E. rewrite E. lia.
  - exfalso. apply Byte.of_N_None_iff in E. lia.
Qed.

Lemma le_leBytes n z : le (leBytes n z) = z mod 2 ^ (8 * Z.of_nat n).
Proof.
  revert z. induction n as [|n IH]; intros z.
  - cbn [leBytes le]. change (8 * Z.of_nat 0) with 0. rewrite Z.pow_0_r, Z.mod_1_r. reflexivity.
  - cbn [leBytes le]. rewrite IH, byteZ_byteOf.
    replace (8 * Z.of_nat (S n)) with (8 + 8 * Z.of_nat n) by lia.
    rewrite Z.pow_add_r by lia. change (2 ^ 8) with 256.
    rewrite Z.rem_mul_r by lia. reflexivity.
Qed.

Lemma length_leBytes n z : List.length (leBytes n z) = n.
Proof. revert z. induction n; intros; cbn [leBytes List.length]; auto. Qed.

Lemma firstn_app_exact {A} (l r : list A) : firstn (List.length l) (l ++ r) = l.
Proof.
  rewrite firstn_app, Nat.sub_diag, firstn_all. cbn [firstn]. apply app_nil_r.
Qed.

Lemma skipn_app_exact {A} (l r : list A) : skipn (List.length l) (l ++ r) = r.
Proof.
  rewrite skipn_app, Nat.sub_diag, skipn_all. reflexivity.
Qed.

(** Reading a little-endian word that starts the slice. *)
Lemma orderUint_app k w rest n :
  0 <= w < 2 ^ (8 * Z.of_nat k) -> Z.of_nat k <= n ->
  orderUint (Z.of_nat k) (mkSlice (leBytes k w ++ rest) n) = Ret w.
Proof.
  intros Hw Hn. unfold orderUint. cbn [len arr].
  replace (n <? Z.of_nat k) with false by (symmetry; apply Z.ltb_ge; lia).
  rewrite Nat2Z.id.
  rewrite <- (length_leBytes k w) at 1. rewrite firstn_app_exact.
  rewrite le_leBytes. f_equal. apply Z.mod_small. lia.
Qed.

(** Dropping the bytes that start the slice. *)
Lemma resliceFrom_app l rest n :
  Z.of_nat (List.length l) <= n <= Z.of_nat (List.length (l ++ rest)) ->
  resliceFrom (mkSlice (l ++ rest) n) (Z.of_nat (List.length l))
  = Ret (mkSlice rest (n - Z.of_nat (List.length l))).
Proof.
  intros Hn. unfold resliceFrom, reslice, cap. cbn [len arr].
  replace (0 <=? Z.of_nat (List.length l)) with true by (symmetry; apply Z.leb_le; lia).
  replace (Z.of_nat (List.length l) <=? n) with true by (symmetry; apply Z.leb_le; lia).
  replace (n <=? Z.of_nat (List.length (l ++ rest))) with true
    by (symmetry; apply Z.leb_le; lia).
  cbn [andb]. rewrite Nat2Z.id, skipn_app_exact. reflexivity.
Qed.

Lemma resliceFrom_drop l rest n k :
  k = Z.of_nat (List.length l) -> k <= n <= k + Z.of_nat (List.length rest) ->
  resliceFrom (mkSlice (l ++ rest) n) k = Ret (mkSlice rest (n - k)).
Proof.
  intros -> Hn. apply resliceFrom_app. rewrite length_app. lia.
Qed.

Lemma resliceFrom_word w rest n :
  4 <= n <= 4 + Z.of_nat (List.length rest) ->
  resliceFrom (mkSlice (leBytes 4 w ++ rest) n) 4 = Ret (mkSlice rest (n - 4)).
Proof.
  intros Hn. apply resliceFrom_drop; [rewrite length_leBytes; reflexivity|lia].
Qed.

Lemma Uint32_word w rest n : 0 <= w < 2 ^ 32 -> 4 <= n ->
  Uint32 (mkSlice (leBytes 4 w ++ rest) n) = Ret w.
Proof. intros. apply (orderUint_app 4); [exact H|lia]. Qed.

(** The two bit fields of an entry header. *)
Lemma entry_fields tl d : 0 <= tl < 32 -> 0 <= d < 2 ^ 27 ->
  Z.land (Z.shiftr (tl + 32 * d) entryTypeLenShift) entryTypeLenMask = tl /\
  Z.land (Z.shiftr (tl + 32 * d) entryTimeDeltaShift) entryTimeDeltaMask = d.
Proof.
  intros Ht Hd.
  change entryTypeLenShift with 0. change entryTypeLenMask with (Z.ones 5).
  change entryTimeDeltaShift with 5. change entryTimeDeltaMask with (Z.ones 27).
  rewrite Z.shiftr_0_r, !Z.land_ones, Z.shiftr_div_pow2 by lia.
  change (2 ^ 5) with 32. replace (tl + 32 * d) with (tl + d * 32) by lia. split.
  - rewrite Z.mod_add by lia. apply Z.mod_small. lia.
  - rewrite Z.div_add by lia.
    rewrite (Z.div_small tl 32) by lia. rewrite Z.add_0_l. apply Z.mod_small. lia.
Qed.

Lemma lor_shift_add lo hi : 0 <= lo < 2 ^ 27 -> 0 <= hi ->
  Z.lor lo (Z.shiftl hi 27) = lo + hi * 2 ^ 27.
Proof.
  intros Hlo Hhi.
  assert (L : Z.land lo (Z.shiftl hi 27) = 0).
  { apply Z.bits_inj'. intros i Hi. rewrite Z.land_spec, Z.bits_0.
    destruct (Z.ltb_spec i 27).
    - rewrite Z.shiftl_spec_low by lia. apply andb_false_r.
    - rewrite <- (Z.mod_small lo (2 ^ 27)) by lia.
      rewrite Z.mod_pow2_bits_high by lia. reflexivity. }
  rewrite <- Z.lxor_lor by exact L. rewrite <- Z.add_nocarry_lxor by exact L.
  rewrite Z.shiftl_mul_pow2 by lia. reflexivity.
Qed.

Lemma ldiff_round tl : 0 <= tl -> Z.ldiff (tl * 4 + 3) 3 = tl * 4.
Proof.
  intros H. change 3 with (Z.ones 2) at 2. rewrite Z.ldiff_ones_r by lia.
  rewrite Z.shiftr_div_pow2, Z.shiftl_mul_pow2 by lia. change (2 ^ 2) with 4.
  rewrite Z.add_comm, Z.div_add by lia. change (3 / 4) with 0. lia.
Qed.

Lemma DecodeEvent_When et data cpu w ev :
  DecodeEvent et data cpu w = Ret (inl ev) -> When ev = w /\ Cpu ev = cpu.
Proof.
  unfold DecodeEvent. destruct (len data <? size et); [discriminate|].
  destruct (sliceFields data (fields et)) as [vs|]; cbn [bind]; [|discriminate].
  destruct (valueAt vs (pidField et)) as [pv|]; cbn [bind]; [|discriminate].
  destruct (DecodeInt pv) as [pid|]; cbn [bind]; [|discriminate].
  destruct (valueAt vs (flagsField et)) as [fv|]; cbn [bind]; [|discriminate].
  destruct (DecodeUint fv) as [fl|]; cbn [bind]; [|discriminate].
  destruct (valueAt vs (preemptField et)) as [qv|]; cbn [bind]; [|discriminate].
  destruct (DecodeInt qv) as [pr|]; cbn [bind]; [|discriminate].
  intros [= <-]. split; reflexivity.
Qed.

(** *** One pass of the loop body, entry kind by entry kind *)

Section Body.
Variables (f : ftrace) (cpu : Z) (fullData : slice) (pageLen pageOffset : Z).
Variables (whn : Z) (evs : Events) (lz : option error).

Lemma length_entryWord tl d : List.length (entryWord tl d) = 4%nat.
Proof. apply length_leBytes. Qed.

Lemma entryWord_range tl d : 0 <= tl < 32 -> 0 <= d < 2 ^ 27 ->
  0 <= tl + 32 * d < 2 ^ 32.
Proof. intros. change (2 ^ 32) with (32 * 2 ^ 27). lia. Qed.

Lemma body_padding_end rest n d :
  d = 0 -> 4 <= n <= 4 + Z.of_nat (List.length rest) ->
  loopBody f cpu fullData pageLen pageOffset
    (mkLoopState whn (mkSlice (entryWord 29 d ++ rest) n) evs lz)
  = Ret (Return evs lz).
Proof.
  intros -> Hn.
  unfold loopBody; cbn [data len when events lazyErr].
  replace (n <? 4) with false by (symmetry; apply Z.ltb_ge; lia).
  unfold entryWord.
  rewrite Uint32_word by (try apply entryWord_range; lia). cbn [bind].
  rewrite resliceFrom_word by lia. cbn [bind].
  destruct (entry_fields 29 0 ltac:(lia) ltac:(lia)) as [-> ->].
  reflexivity.
Qed.

Lemma body_padding_skip rest rest' n d padding :
  0 < d < 2 ^ 27 -> 0 <= padding < 2 ^ 32 ->
  rest = (leBytes 4 padding ++ rest')%list ->
  8 <= n <= 4 + Z.of_nat (List.length rest) -> padding <= n - 4 ->
  loopBody f cpu fullData pageLen pageOffset
    (mkLoopState whn (mkSlice (entryWord 29 d ++ rest) n) evs lz)
  = Ret (Continue (mkLoopState whn
           (mkSlice (skipn (Z.to_nat padding) rest) (n - 4 - padding)) evs lz)).
Proof.
  intros Hd Hp Hrest Hn Hpn.
  unfold loopBody; cbn [data len when events lazyErr].
  replace (n <? 4) with false by (symmetry; apply Z.ltb_ge; lia).
  unfold entryWord.
  rewrite Uint32_word by (try apply entryWord_range; lia). cbn [bind].
  rewrite resliceFrom_word by lia. cbn [bind].
  destruct (entry_fields 29 d ltac:(lia) ltac:(lia)) as [-> ->].
  change (29 <=? entryTypeDataMax) with false.
  change (29 =? entryTypePadding) with true. cbn iota.
  replace (d =? 0) with false by (symmetry; apply Z.eqb_neq; lia).
  cbn [len].
  replace (n - 4 <? 4) with false by (symmetry; apply Z.ltb_ge; lia).
  rewrite Hrest at 1.
  rewrite Uint32_word by lia.
  cbn [bind]. unfold resliceFrom, reslice, cap. cbn [len arr].
  replace (0 <=? padding) with true by (symmetry; apply Z.leb_le; lia).
  replace (padding <=? n - 4) with true by (symmetry; apply Z.leb_le; lia).
  replace (n - 4 <=? Z.of_nat (List.length rest)) with true
    by (symmetry; apply Z.leb_le; lia).
  cbn [andb bind]. reflexivity.
Qed.

Lemma body_time_extend rest n lo hi :
  0 <= lo < 2 ^ 27 -> 0 <= hi < 2 ^ 32 ->
  8 <= n <= 8 + Z.of_nat (List.length rest) ->
  loopBody f cpu fullData pageLen pageOffset
    (mkLoopState whn (mkSlice (entryWord 30 lo ++ leBytes 4 hi ++ rest) n) evs lz)
  = Ret (Continue (mkLoopState (u64 (whn + Z.lor lo (Z.shiftl hi 27)))
                     (mkSlice rest (n - 8)) evs lz)).
Proof.
  intros Hlo Hhi Hn.
  unfold loopBody; cbn [data len when events lazyErr].
  replace (n <? 4) with false by (symmetry; apply Z.ltb_ge; lia).
  unfold entryWord.
  rewrite Uint32_word by (try apply entryWord_range; lia). cbn [bind].
  rewrite resliceFrom_word by (rewrite length_app, length_leBytes; lia). cbn [bind].
  destruct (entry_fields 30 lo ltac:(lia) ltac:(lia)) as [-> ->].
  change (30 <=? entryTypeDataMax) with false.
  change (30 =? entryTypePadding) with false.
  change (30 =? entryTypeTimeExt) with true. cbn iota. cbn [len].
  replace (n - 4 <? 4) with false by (symmetry; apply Z.ltb_ge; lia).
  rewrite Uint32_word by lia. cbn [bind].
  rewrite resliceFrom_word by lia. cbn [bind].
  rewrite lor_shift_add by lia.
  change entryTimeDeltaBits with 27. rewrite Z.shiftl_mul_pow2 by lia.
  assert (Hh : 0 <= hi * 2 ^ 27 < 2 ^ 59).
  { change (2 ^ 59) with (2 ^ 32 * 2 ^ 27). nia. }
  unfold u64 at 3. rewrite (Z.mod_small (hi * 2 ^ 27)) by lia.
  unfold u64 at 2. rewrite (Z.mod_small (lo + hi * 2 ^ 27)) by lia.
  replace (n - 4 - 4) with (n - 8) by lia. reflexivity.
Qed.

Lemma firstn_short {A} (k : nat) (l r : list A) :
  (k <= List.length l)%nat -> firstn k (l ++ r) = firstn k l.
Proof.
  intros H. rewrite firstn_app.
  replace (k - List.length l)%nat with 0%nat by lia.
  cbn [firstn]. apply app_nil_r.
Qed.

Lemma body_data_event record rest n tl d et ev :
  1 <= tl <= 28 -> 0 <= d < 2 ^ 27 ->
  Z.of_nat (List.length record) = tl * 4 ->
  4 + tl * 4 <= n <= 4 + tl * 4 + Z.of_nat (List.length rest) ->
  eventTypes f (le (firstn 2 record)) = Some et ->
  DecodeEvent et (mkSlice (record ++ rest) (tl * 4)) cpu (u64 (whn + d))
    = Ret (inl ev) ->
  loopBody f cpu fullData pageLen pageOffset
    (mkLoopState whn (mkSlice (entryWord tl d ++ record ++ rest) n) evs lz)
  = Ret (Continue (mkLoopState (u64 (whn + d)) (mkSlice rest (n - 4 - tl * 4))
                     (evs ++ [ev])%list lz)).
Proof.
  intros Htl Hd Hrec Hn Het Hdec.
  unfold loopBody; cbn [data len when events lazyErr].
  replace (n <? 4) with false by (symmetry; apply Z.ltb_ge; lia).
  unfold entryWord.
  rewrite Uint32_word by (try apply entryWord_range; lia). cbn [bind].
  rewrite resliceFrom_word by (rewrite length_app; lia). cbn [bind].
  destruct (entry_fields tl d ltac:(lia) ltac:(lia)) as [-> ->].
  unfold entryTypeDataMax.
  replace (tl <=? 28) with true by (symmetry; apply Z.leb_le; lia).
  replace (tl =? 0) with false by (symmetry; apply Z.eqb_neq; lia).
  cbn [bind len].
  replace (n - 4 <? tl * 4) with false by (symmetry; apply Z.ltb_ge; lia).
  replace (tl * 4 <? 2) with false by (symmetry; apply Z.ltb_ge; lia).
  cbn [orb].
  unfold resliceTo, reslice, cap. cbn [arr len].
  replace (tl * 4 <=? Z.of_nat (List.length (record ++ rest))) with true
    by (symmetry; apply Z.leb_le; rewrite length_app; lia).
  replace (0 <=? tl * 4) with true by (symmetry; apply Z.leb_le; lia).
  cbn [Z.leb Z.compare andb bind Z.to_nat skipn].
  rewrite Z.sub_0_r.
  rewrite ldiff_round by lia.
  rewrite resliceFrom_drop by lia. cbn [bind].
  unfold Uint16, orderUint. cbn [len arr].
  replace (tl * 4 <? 2) with false by (symmetry; apply Z.ltb_ge; lia).
  change (Z.to_nat 2) with 2%nat. rewrite firstn_short by lia. cbn [bind].
  rewrite Het, Hdec. cbn [bind]. reflexivity.
Qed.
End Body.

(** *** The loop and the page *)

Lemma dataLoop_step fuel f cpu fullData pageLen pageOffset st st' :
  0 < len (data st) ->
  loopBody f cpu fullData pageLen pageOffset st = Ret (Continue st') ->
  dataLoop (S fuel) f cpu fullData pageLen pageOffset st
  = dataLoop fuel f cpu fullData pageLen pageOffset st'.
Proof.
  intros Hl Hb. cbn [dataLoop].
  replace (len (data st) >? 0) with true by (symmetry; apply Z.gtb_lt; lia).
  rewrite Hb. reflexivity.
Qed.

Lemma dataLoop_return fuel f cpu fullData pageLen pageOffset st evs err :
  0 < len (data st) ->
  loopBody f cpu fullData pageLen pageOffset st = Ret (Return evs err) ->
  dataLoop (S fuel) f cpu fullData pageLen pageOffset st = Some (Ret (evs, err)).
Proof.
  intros Hl Hb. cbn [dataLoop].
  replace (len (data st) >? 0) with true by (symmetry; apply Z.gtb_lt; lia).
  rewrite Hb. reflexivity.
Qed.

Lemma dataLoop_exit fuel f cpu fullData pageLen pageOffset st :
  len (data st) <= 0 ->
  dataLoop fuel f cpu fullData pageLen pageOffset st
  = Some (Ret (events st, lazyErr st)).
Proof.
  intros Hl. destruct fuel; cbn [dataLoop];
    replace (len (data st) >? 0) with false
      by (symmetry; rewrite Z.gtb_ltb; apply Z.ltb_ge; lia);
    reflexivity.
Qed.

(** After the header is read, the loop starts on the entries. *)
Lemma decodePage_entries f cpu page base pageLen pageOffset entries :
  pagePrologue f page = Ret (inl (base, pageLen, pageOffset)) ->
  0 <= pageOffset -> pageLen = Z.of_nat (List.length entries) ->
  pageOffset + pageLen <= len page <= cap page ->
  window page pageOffset pageLen = entries ->
  exists fullData,
    decodePage f cpu page
    = dataLoop (S (Z.to_nat pageLen)) f cpu fullData pageLen pageOffset
        (mkLoopState base
           (mkSlice (entries ++ skipn (Z.to_nat (pageOffset + pageLen)) (arr page))
                    pageLen) [] None).
Proof.
  intros Hp Ho Hl Hb Hw. unfold decodePage. rewrite Hp.
  replace (pageLen <? 0) with false by (symmetry; apply Z.ltb_ge; lia).
  replace (len page <? pageOffset + pageLen) with false
    by (symmetry; apply Z.ltb_ge; lia).
  cbn [orb]. unfold reslice.
  replace (pageOffset + pageLen <=? cap page) with true
    by (symmetry; apply Z.leb_le; lia).
  replace (0 <=? pageOffset + pageLen) with true by (symmetry; apply Z.leb_le; lia).
  replace (0 <=? pageOffset) with true by (symmetry; apply Z.leb_le; lia).
  replace (pageOffset <=? pageOffset + pageLen) with true
    by (symmetry; apply Z.leb_le; lia).
  cbn [Z.leb Z.compare andb len].
  replace (pageOffset + pageLen - pageOffset) with pageLen by lia.
  eexists. f_equal. f_equal. f_equal.
  unfold window in Hw.
  rewrite <- (firstn_skipn (Z.to_nat pageLen) (skipn (Z.to_nat pageOffset) (arr page))).
  rewrite Hw. f_equal. rewrite skipn_skipn. f_equal. lia.
Qed.

(** C6, as the code has it: a page whose entries are a time extend (low
    part [lo], following word [hi]) and one data event of a registered type
    whose record decodes yields exactly that event, with the time stamp
    [base + (lo | hi << 27) + d] modulo 2^64, where [d] is the time delta in
    the header of the data event itself; with [d = 0] this is
    [base + (lo | hi << 27)]. *)
Theorem time_extend_then_event f cpu page base pageLen pageOffset lo hi tl d
        record et ev :
  pagePrologue f page = Ret (inl (base, pageLen, pageOffset)) ->
  0 <= pageOffset -> pageOffset + pageLen <= len page <= cap page ->
  0 <= lo < 2 ^ 27 -> 0 <= hi < 2 ^ 32 -> 1 <= tl <= 28 -> 0 <= d < 2 ^ 27 ->
  Z.of_nat (List.length record) = tl * 4 ->
  pageLen = 12 + tl * 4 ->
  window page pageOffset pageLen
    = (entryWord 30 lo ++ leBytes 4 hi ++ entryWord tl d ++ record)%list ->
  eventTypes f (le (firstn 2 record)) = Some et ->
  let W := u64 (base + Z.lor lo (Z.shiftl hi 27) + d) in
  DecodeEvent et (mkSlice (skipn (Z.to_nat (pageOffset + 12)) (arr page)) (tl * 4))
              cpu W = Ret (inl ev) ->
  decodePage f cpu page = Some (Ret ([ev], None)) /\ When ev = W /\
  (d = 0 -> When ev = u64 (base + Z.lor lo (Z.shiftl hi 27))).
Proof.
  intros Hp Ho Hb Hlo Hhi Htl Hd Hrec Hlen Hw Het W Hdec.
  set (entries := (entryWord 30 lo ++ leBytes 4 hi ++ entryWord tl d ++ record)%list) in *.
  assert (Hel : pageLen = Z.of_nat (List.length entries)).
  { unfold entries. rewrite !length_app, !length_entryWord, length_leBytes. lia. }
  destruct (decodePage_entries f cpu page base pageLen pageOffset entries
              Hp Ho Hel Hb Hw) as [fullData ->].
  set (tail := skipn (Z.to_nat (pageOffset + pageLen)) (arr page)).
  assert (Hcut : skipn (Z.to_nat (pageOffset + 12)) (arr page) = (record ++ tail)%list).
  { unfold window in Hw.
    pose proof (firstn_skipn (Z.to_nat pageLen) (skipn (Z.to_nat pageOffset) (arr page))) as E.
    rewrite Hw, skipn_skipn in E.
    replace (Z.to_nat pageLen + Z.to_nat pageOffset)%nat
      with (Z.to_nat (pageOffset + pageLen)) in E by lia.
    fold tail in E.
    replace (Z.to_nat (pageOffset + 12)) with (12 + Z.to_nat pageOffset)%nat by lia.
    rewrite <- skipn_skipn, <- E. unfold entries.
    rewrite <- !app_assoc.
    change 12%nat with (4 + (4 + 4))%nat.
    rewrite <- !skipn_skipn.
    rewrite <- (length_entryWord 30 lo) at 3. rewrite skipn_app_exact.
    rewrite <- (length_leBytes 4 hi) at 2. rewrite skipn_app_exact.
    rewrite <- (length_entryWord tl d) at 1. rewrite skipn_app_exact.
    reflexivity. }
  rewrite Hcut in Hdec.
  assert (HW : W = u64 (u64 (base + Z.lor lo (Z.shiftl hi 27)) + d)).
  { unfold W, u64. rewrite Zplus_mod_idemp_l. reflexivity. }
  rewrite HW in Hdec.
  destruct (Z.to_nat pageLen) as [|fuel] eqn:Ef; [lia|].
  unfold entries. rewrite <- !app_assoc.
  assert (Hpos : 0 < pageLen) by lia.
  assert (B1 := body_time_extend f cpu fullData pageLen pageOffset base [] None
                  (entryWord tl d ++ record ++ tail)%list pageLen lo hi Hlo Hhi
                  ltac:(rewrite !length_app, length_entryWord; lia)).
  erewrite dataLoop_step by (first [exact B1 | cbn [data len]; lia]).
  assert (Hpos2 : 0 < pageLen - 8) by lia.
  assert (B2 := body_data_event f cpu fullData pageLen pageOffset
                  (u64 (base + Z.lor lo (Z.shiftl hi 27))) [] None
                  record tail (pageLen - 8) tl d et ev Htl Hd Hrec
                  ltac:(lia) Het Hdec).
  destruct fuel as [|fuel]; [lia|].
  erewrite dataLoop_step by (first [exact B2 | cbn [data len]; lia]).
  rewrite dataLoop_exit by (cbn [data len]; lia).
  cbn [events lazyErr app]. split; [reflexivity|].
  destruct (DecodeEvent_When _ _ _ _ _ Hdec) as [Hwhen _].
  split; [rewrite Hwhen; symmetry; exact HW|].
  intros Hd0. rewrite Hwhen, Hd0, Z.add_0_r. unfold u64. apply Z.mod_mod. lia.
Qed.

(** C6, at the page [extendPage]. *)
Lemma time_extend_then_event_witness :
  exists ev, decodePage sampleFtrace 0 extendPage = Some (Ret ([ev], None)) /\
             When ev = 1003.
Proof.
  eexists.
  refine (let H := time_extend_then_event sampleFtrace 0 extendPage 1000 20 16 1 0 2 2
                     sampleRecord sampleType _ _ _ _ _ _ _ _ _ _ _ _ _ in
          conj (proj1 H) (proj1 (proj2 H))).
  - vm_compute; reflexivity.
  - lia.
  - vm_compute; split; discriminate.
  - lia.
  - lia.
  - lia.
  - lia.
  - reflexivity.
  - reflexivity.
  - vm_compute; reflexivity.
  - vm_compute; reflexivity.
  - vm_compute; reflexivity.
Defined.

(** C6 fails as stated: with base 1000, a time extend of 1 and a data event
    whose own time delta is 2 the time stamp is 1003, not 1001. *)
Lemma event_delta_is_added :
  window extendPage 16 20
    = (entryWord 30 1 ++ leBytes 4 0 ++ entryWord 2 2 ++ sampleRecord)%list /\
  pagePrologue sampleFtrace extendPage = Ret (inl (1000, 20, 16)) /\
  timestamps (decodePage sampleFtrace 0 extendPage) = Some ([1003], None) /\
  1000 + Z.lor 1 (Z.shiftl 0 27) = 1001.
Proof. repeat split; vm_compute; reflexivity. Qed.

Lemma length_window page lo n :
  0 <= lo -> 0 <= n -> lo + n <= cap page ->
  Z.of_nat (List.length (window page lo n)) = n.
Proof.
  intros Hlo Hn Hc. unfold window, cap in *.
  rewrite length_firstn, length_skipn. lia.
Qed.

(** C7: an entry with [type_len] 29 is padding.  With [time_delta] 0 the
    pass through the loop body returns the events decoded so far with the
    pending lazy error and no error of its own, whatever follows, and so the
    loop ends; a page whose first entry it is decodes to no event and no
    error.  With another [time_delta] the next 32-bit word is the padding
    length: that many bytes, counted from this word, are dropped and the
    loop goes on with the entry after them, all else unchanged. *)
Theorem padding_entry f cpu fullData pageLen pageOffset whn evs lz d rest n :
  0 <= d < 2 ^ 27 -> 4 <= n <= 4 + Z.of_nat (List.length rest) ->
  let st := mkLoopState whn (mkSlice (entryWord 29 d ++ rest) n) evs lz in
  (d = 0 ->
   loopBody f cpu fullData pageLen pageOffset st = Ret (Return evs lz) /\
   forall fuel,
     dataLoop (S fuel) f cpu fullData pageLen pageOffset st = Some (Ret (evs, lz))) /\
  (d <> 0 ->
   forall padding rest',
     rest = (leBytes 4 padding ++ rest')%list -> 0 <= padding < 2 ^ 32 ->
     8 <= n -> padding <= n - 4 ->
     let st' := mkLoopState whn
                  (mkSlice (skipn (Z.to_nat padding) rest) (n - 4 - padding)) evs lz in
     loopBody f cpu fullData pageLen pageOffset st = Ret (Continue st') /\
     forall fuel,
       dataLoop (S fuel) f cpu fullData pageLen pageOffset st
       = dataLoop fuel f cpu fullData pageLen pageOffset st') /\
  (forall page base,
     pagePrologue f page = Ret (inl (base, pageLen, pageOffset)) ->
     0 <= pageOffset -> 4 <= pageLen ->
     pageOffset + pageLen <= len page <= cap page ->
     window page pageOffset 4 = entryWord 29 0 ->
     decodePage f cpu page = Some (Ret ([], None))).
Proof.
  intros Hd Hn st. split; [|split].
  - intros Hd0.
    pose proof (body_padding_end f cpu fullData pageLen pageOffset whn evs lz
                  rest n d Hd0 Hn) as B.
    split; [exact B|]. intros fuel.
    apply dataLoop_return; [cbn [st data len]; lia|exact B].
  - intros Hd0 padding rest' Hrest Hp Hn8 Hpn st'.
    pose proof (body_padding_skip f cpu fullData pageLen pageOffset whn evs lz
                  rest rest' n d padding ltac:(lia) Hp Hrest ltac:(lia) Hpn) as B.
    split; [exact B|]. intros fuel.
    apply dataLoop_step; [cbn [st data len]; lia|exact B].
  - intros page base Hp Ho Hl Hb Hw.
    set (entries := window page pageOffset pageLen).
    assert (Hel : pageLen = Z.of_nat (List.length entries))
      by (symmetry; apply length_window; lia).
    destruct (decodePage_entries f cpu page base pageLen pageOffset entries
                Hp Ho Hel Hb eq_refl) as [fd ->].
    assert (He : entries = (entryWord 29 0 ++ skipn 4 entries)%list).
    { rewrite <- Hw. unfold entries, window.
      rewrite <- (firstn_skipn 4 (firstn (Z.to_nat pageLen) _)) at 1.
      f_equal. rewrite firstn_firstn. f_equal. lia. }
    rewrite He, <- app_assoc.
    apply dataLoop_return; [cbn [data len]; lia|].
    apply body_padding_end; [reflexivity|].
    rewrite length_app, length_skipn. lia.
Qed.

(** C7, at a terminator, at a padding of 8 bytes, and at the page
    [terminatedPage]. *)
Lemma padding_entry_witness :
  dataLoop 1 sampleFtrace 0 (sliceOf []) 4 16
    (mkLoopState 1000 (mkSlice (entryWord 29 0) 4) [] None) = Some (Ret ([], None)) /\
  dataLoop 1 sampleFtrace 0 (sliceOf []) 12 16
    (mkLoopState 1000 (mkSlice (entryWord 29 1 ++ leBytes 4 8 ++ leBytes 4 99) 12) [] None)
  = dataLoop 0 sampleFtrace 0 (sliceOf []) 12 16
      (mkLoopState 1000 (mkSlice [] 0) [] None) /\
  decodePage sampleFtrace 0 terminatedPage = Some (Ret ([], None)).
Proof.
  split; [|split].
  - refine (proj2 (proj1 (padding_entry sampleFtrace 0 (sliceOf []) 4 16 1000 [] None
                            0 [] 4 _ _) eq_refl) 0%nat).
    + lia.
    + cbn; lia.
  - refine (proj2 (proj1 (proj2 (padding_entry sampleFtrace 0 (sliceOf []) 12 16 1000
                                   [] None 1 (leBytes 4 8 ++ leBytes 4 99)%list 12 _ _))
                     _ 8 (leBytes 4 99) eq_refl _ _ _) 0%nat).
    + lia.
    + cbn; lia.
    + discriminate.
    + lia.
    + lia.
    + lia.
  - refine (proj2 (proj2 (padding_entry sampleFtrace 0 (sliceOf []) 16 16 1000 [] None
                            0 [] 4 _ _)) terminatedPage 1000 _ _ _ _ _).
    + lia.
    + cbn; lia.
    + vm_compute; reflexivity.
    + lia.
    + lia.
    + vm_compute; split; discriminate.
    + vm_compute; reflexivity.
Defined.

(** *** The loop terminates: every pass drops at least the header word *)

Lemma bind_Ret {A B} (m : outcome A) (k : A -> outcome B) r :
  bind m k = Ret r -> exists a, m = Ret a /\ k a = Ret r.
Proof. destruct m; cbn [bind]; [eauto|discriminate]. Qed.

Lemma resliceFrom_len s k s' :
  resliceFrom s k = Ret s' -> len s' = len s - k /\ 0 <= k.
Proof.
  unfold resliceFrom, reslice.
  destruct (Z.leb_spec 0 k); cbn [andb]; [|discriminate].
  destruct ((k <=? len s) && (len s <=? cap s)); [|discriminate].
  intros [= <-]. cbn [len]. lia.
Qed.

Tactic Notation "unbind" hyp(H) "as" ident(a) ident(E) :=
  apply bind_Ret in H; destruct H as [a [E H]].

Lemma loopBody_decreases f cpu fullData pageLen pageOffset st st' :
  loopBody f cpu fullData pageLen pageOffset st = Ret (Continue st') ->
  len (data st') <= len (data st) - 4.
Proof.
  unfold loopBody. intros H.
  destruct (len (data st) <? 4); [discriminate|].
  unbind H as hdr Eh. unbind H as d0 E0.
  apply resliceFrom_len in E0. destruct E0 as [L0 _].
  match type of H with
  | (if ?c then _ else _) = _ => destruct c
  end.
  - unbind H as r1 E1.
    destruct r1 as [[dataLen d1]|err]; [|discriminate].
    assert (Ld : len d1 <= len d0).
    { match type of E1 with
      | (if ?c then _ else _) = _ => destruct c
      end.
      - destruct (len d0 <? 4); [discriminate|].
        unbind E1 as w Ew. unbind E1 as d2 E2. injection E1 as _ <-.
        apply resliceFrom_len in E2. lia.
      - injection E1 as _ <-. lia. }
    destruct ((len d1 <? dataLen) || (dataLen <? 2)); [discriminate|].
    unbind H as ed Ee. unbind H as d3 E3. unbind H as tid Et.
    apply resliceFrom_len in E3. destruct E3 as [L3 P3].
    assert (0 <= Z.ldiff (dataLen + 3) 3) by exact P3.
    destruct (eventTypes f tid).
    + unbind H as dec Ed. destruct dec; injection H as <-; cbn [data]; lia.
    + injection H as <-. cbn [data]. lia.
  - match type of H with
    | (if ?c then _ else _) = _ => destruct c
    end.
    + destruct (_ =? 0); [discriminate|].
      destruct (len d0 <? 4); [discriminate|].
      unbind H as pad Ep. unbind H as d2 E2. injection H as <-. cbn [data].
      apply resliceFrom_len in E2. lia.
    + match type of H with
      | (if ?c then _ else _) = _ => destruct c
      end.
      * destruct (len d0 <? 4); [discriminate|].
        unbind H as ext Ex. unbind H as d2 E2. injection H as <-. cbn [data].
        apply resliceFrom_len in E2. lia.
      * injection H as <-. cbn [data]. lia.
Qed.

Lemma dataLoop_fuel fuel f cpu fullData pageLen pageOffset st :
  len (data st) < Z.of_nat fuel ->
  dataLoop fuel f cpu fullData pageLen pageOffset st <> None.
Proof.
  revert st. induction fuel as [|fuel IH]; intros st Hl.
  - rewrite dataLoop_exit by lia. discriminate.
  - cbn [dataLoop]. destruct (len (data st) >? 0); [|discriminate].
    destruct (loopBody f cpu fullData pageLen pageOffset st) as [[st'|evs err]|msg] eqn:Hb;
      try discriminate.
    apply IH. apply loopBody_decreases in Hb. lia.
Qed.

(** [decodePage] always comes to an end: it returns or it panics. *)
Lemma decodePage_terminates f cpu page : decodePage f cpu page <> None.
Proof.
  unfold decodePage.
  destruct (pagePrologue f page) as [[[[w pageLen] pageOffset]|err]|msg];
    try discriminate.
  destruct ((pageLen <? 0) || (len page <? pageOffset + pageLen)); [discriminate|].
  destruct (reslice page 0 (pageOffset + pageLen)) as [fullData|]; [|discriminate].
  destruct (reslice page pageOffset (pageOffset + pageLen)) as [d|]; [|discriminate].
  apply dataLoop_fuel. cbn [data]. lia.
Qed.

(** C10 fails on the code: on a page whose padding entry (time delta 1)
    announces 65535 bytes with 4 bytes left, [decodePage] panics on the slice
    expression instead of returning an error; so it does on a data entry of
    extended length 5 with 5 bytes left. *)
Theorem padding_overrun_panics :
  window paddingOverrunPage 16 8 = (entryWord 29 1 ++ leBytes 4 65535)%list /\
  pagePrologue sampleFtrace paddingOverrunPage = Ret (inl (1000, 8, 16)) /\
  decodePage sampleFtrace 0 paddingOverrunPage = Some (Panic boundsPanic) /\
  decodePage sampleFtrace 0 unalignedTailPage = Some (Panic boundsPanic).
Proof. repeat split; vm_compute; reflexivity. Qed.

(** *** The printf conversion hook *)

Lemma munge_pf m rest arg :
  mungePrintfConversions (mkConversion "p" m (String "f" rest) arg)
  = mkConversion "s" "" rest
      (Cparse.CallFunction (Some (eventFunction printkFunctionPointer))
         "__printk_pf" [arg]).
Proof. reflexivity. Qed.

Lemma munge_pF m rest arg :
  mungePrintfConversions (mkConversion "p" m (String "F" rest) arg)
  = mkConversion "s" "" rest
      (Cparse.CallFunction (Some (eventFunction printkFunctionPointerOffset))
         "__printk_pF" [arg]).
Proof. reflexivity. Qed.

(** C8 fails on the code for [%pK]: the helper is looked up as
    [__printk_pK] and is registered as [__printk_pk], so the conversion stays
    [p], the argument is not replaced, and a failure text goes into the
    format string. *)
Theorem munge_pK_fails m rest arg :
  kernelFunctions "__printk_pK" = None /\
  kernelFunctions "__printk_pk" = Some printkKernelSymbol /\
  mungePrintfConversions (mkConversion "p" m (String "K" rest) arg)
  = mkConversion "p" m ("FAILED POINTER MODIFIER K " ++ rest) arg.
Proof. repeat split; reflexivity. Qed.

(** *** Paths *)

Lemma SafeFtracePath_list_element :
  SafeFtracePath ".." = false /\ SafeFtracePath "events:.." = false.
Proof. split; reflexivity. Qed.

(** C9 fails on the code: the path is split at [':'] and not at ['/'], so
    a path with [..] components counts as safe and the three operations go
    to the file system with it. *)
Theorem parent_component_is_accepted :
  SplitList "../../../../etc/passwd" = ["../../../../etc/passwd"] /\
  SafeFtracePath "../../../../etc/passwd" = true /\
  ReadFtraceFile "../../../../etc/passwd"
    = FileSystem (ReadFile ftracePath "../../../../etc/passwd") /\
  WriteFtraceFile "../../../../etc/passwd" []
    = FileSystem (WriteFile ftracePath "../../../../etc/passwd" []) /\
  OpenFtrace "../../../../etc/passwd"
    = FileSystem (Open ftracePath "../../../../etc/passwd").
Proof. repeat split; reflexivity. Qed.
End FtraceFacts.


(** ** More about operator evaluation *)

Module OperatorFacts.
Import Go Cparse Spec CparseFacts.

Lemma cvalue_mod T p : validSize (size T) -> cvalue T p mod 2 ^ bitsOf T = p mod 2 ^ bitsOf T.
Proof.
  intros Hv. destruct (bitsOf_valid T Hv) as [Hk _]. unfold cvalue.
  destruct (signed T && (2 ^ (bitsOf T - 1) <=? p mod 2 ^ bitsOf T)).
  - replace (p mod 2 ^ bitsOf T - 2 ^ bitsOf T)
      with (p mod 2 ^ bitsOf T + (-1) * 2 ^ bitsOf T) by lia.
    rewrite Z.mod_add by lia. apply Z.mod_mod. lia.
  - apply Z.mod_mod. lia.
Qed.

Lemma IsInt_newValueIntLike_set v T val :
  IsInt v = true -> IsInt (newValueIntLike (set_intType v T) val) = true.
Proof. destruct v. intros H. exact H. Qed.

Lemma intTyp_newValueIntLike_set v T val :
  intTyp (newValueIntLike (set_intType v T) val) = T.
Proof. destruct v. reflexivity. Qed.

Lemma intVal_newValueIntLike_set v T val : validSize (size T) ->
  intVal (newValueIntLike (set_intType v T) val) = encode T val.
Proof.
  intros Hv. rewrite newValueIntLike_intVal; rewrite intTyp_set_intType; auto.
Qed.

Lemma arithmetic_eval op v1 v2 v3 :
  IsInt v1 = true -> IsInt v2 = true ->
  validSize (size (intTyp v1)) -> validSize (size (intTyp v2)) ->
  let T := spec_balance (spec_promote (intTyp v1)) (spec_promote (intTyp v2)) in
  let a := cvalue T (intVal v1) in
  let b := cvalue T (intVal v2) in
  forall f : Z -> Z -> Z,
    (tok_typ op = tokenPlus /\ f = Z.add) \/
    (tok_typ op = tokenMinus /\ f = Z.sub) \/
    (tok_typ op = tokenMult /\ f = Z.mul) ->
    exists r, operatorApply op 2 v1 v2 v3 = Ret r /\ IsInt r = true /\
              intTyp r = T /\ intVal r = encode T (f a b).
Proof.
  intros Hi1 Hi2 H1 H2 T a b f Hop.
  assert (HvT : validSize (size T)) by (apply balance_valid; assumption).
  pose proof (cvalue_mod T (intVal v1) HvT) as Ma. fold a in Ma.
  pose proof (cvalue_mod T (intVal v2) HvT) as Mb. fold b in Mb.
  assert (Hb : balancing (tok_typ op) = true)
    by (destruct Hop as [[-> _]|[[-> _]|[-> _]]]; reflexivity).
  rewrite operatorApply_balancing by assumption. fold T.
  unfold operandEval.
  destruct Hop as [[-> ->]|[[-> ->]|[-> ->]]]; cbn [Z.eqb Pos.eqb];
    eexists; (split; [reflexivity|]);
    (split; [apply IsInt_newValueIntLike_set; assumption|]);
    (split; [apply intTyp_newValueIntLike_set|]);
    rewrite intVal_newValueIntLike_set by assumption;
    rewrite encode_u64 by assumption; apply encode_congr;
    rewrite !AsUint64_set by assumption; rewrite <- Ma, <- Mb.
  - rewrite <- Zplus_mod. reflexivity.
  - rewrite <- Zminus_mod. reflexivity.
  - rewrite <- Zmult_mod. reflexivity.
Qed.

(** X1: on integer operands of the widths 1, 2, 4, 8 the operators [+], [-]
    and [*] yield the sum, difference and product of the operand values at
    the balanced type, wrapped into that type. *)
Theorem arithmetic_wraps op v1 v2 v3 :
  IsInt v1 = true -> IsInt v2 = true ->
  validSize (size (intTyp v1)) -> validSize (size (intTyp v2)) ->
  let T := spec_balance (spec_promote (intTyp v1)) (spec_promote (intTyp v2)) in
  let a := cvalue T (intVal v1) in
  let b := cvalue T (intVal v2) in
  (tok_typ op = tokenPlus ->
   exists r, operatorApply op 2 v1 v2 v3 = Ret r /\ IsInt r = true /\
             intTyp r = T /\ intVal r = encode T (a + b)) /\
  (tok_typ op = tokenMinus ->
   exists r, operatorApply op 2 v1 v2 v3 = Ret r /\ IsInt r = true /\
             intTyp r = T /\ intVal r = encode T (a - b)) /\
  (tok_typ op = tokenMult ->
   exists r, operatorApply op 2 v1 v2 v3 = Ret r /\ IsInt r = true /\
             intTyp r = T /\ intVal r = encode T (a * b)).
Proof.
  intros Hi1 Hi2 H1 H2 T a b. repeat split; intros Hop.
  - apply (arithmetic_eval op v1 v2 v3 Hi1 Hi2 H1 H2 Z.add); auto.
  - apply (arithmetic_eval op v1 v2 v3 Hi1 Hi2 H1 H2 Z.sub); auto.
  - apply (arithmetic_eval op v1 v2 v3 Hi1 Hi2 H1 H2 Z.mul); auto.
Qed.

(** At 65536 * 65536u, which wraps to 0. *)
Lemma arithmetic_wraps_witness :
  exists r, operatorApply (opToken tokenMult "*") 2
              (NewValueInt 65536 4 true) (NewValueInt 65536 4 false) zeroValue = Ret r /\
            IsInt r = true /\ intTyp r = mkIntType 4 false /\
            intVal r = encode (mkIntType 4 false) (65536 * 65536).
Proof.
  refine (proj2 (proj2 (arithmetic_wraps (opToken tokenMult "*")
            (NewValueInt 65536 4 true) (NewValueInt 65536 4 false) zeroValue
            eq_refl eq_refl _ _)) eq_refl).
  - right; right; left; reflexivity.
  - right; right; left; reflexivity.
Defined.

(** *** Comparisons *)

Lemma cvalue_eqb T p q : validSize (size T) ->
  (p mod 2 ^ bitsOf T =? q mod 2 ^ bitsOf T) = (cvalue T p =? cvalue T q).
Proof.
  intros Hv. destruct (Z.eqb_spec (p mod 2 ^ bitsOf T) (q mod 2 ^ bitsOf T)) as [E|N].
  - symmetry. apply Z.eqb_eq. apply cvalue_congr. exact E.
  - symmetry. apply Z.eqb_neq. intros E. apply N.
    rewrite <- (cvalue_mod T p Hv), <- (cvalue_mod T q Hv), E. reflexivity.
Qed.

(** X2: [==] and [!=] compare the operand values at the balanced type,
    whatever the stored patterns are above the width of that type. *)
Theorem equality_compares_values op v1 v2 v3 :
  IsInt v1 = true -> IsInt v2 = true ->
  validSize (size (intTyp v1)) -> validSize (size (intTyp v2)) ->
  let T := spec_balance (spec_promote (intTyp v1)) (spec_promote (intTyp v2)) in
  let a := cvalue T (intVal v1) in
  let b := cvalue T (intVal v2) in
  (tok_typ op = tokenEqual ->
   operatorApply op 2 v1 v2 v3 = Ret (NewValueBool (a =? b))) /\
  (tok_typ op = tokenNotEqual ->
   operatorApply op 2 v1 v2 v3 = Ret (NewValueBool (negb (a =? b)))).
Proof.
  intros Hi1 Hi2 H1 H2 T a b.
  assert (HvT : validSize (size T)) by (apply balance_valid; assumption).
  split; intros Hop; rewrite operatorApply_balancing by (rewrite ?Hop; auto);
    fold T; unfold operandEval; rewrite Hop;
    rewrite !AsUint64_set by assumption; rewrite cvalue_eqb by assumption;
    reflexivity.
Qed.

Lemma equality_compares_values_witness :
  operatorApply (opToken tokenEqual "==") 2
    (NewValueInt (2 ^ 64 - 1) 4 true) (NewValueInt (2 ^ 32 - 1) 4 true) zeroValue
  = Ret (NewValueBool true).
Proof.
  refine (proj1 (equality_compares_values (opToken tokenEqual "==")
            (NewValueInt (2 ^ 64 - 1) 4 true) (NewValueInt (2 ^ 32 - 1) 4 true)
            zeroValue eq_refl eq_refl _ _) eq_refl).
  - right; right; left; reflexivity.
  - right; right; left; reflexivity.
Defined.

Lemma unsigned_view v T : validSize (size T) -> signed T = false ->
  AsUint64 (set_intType v T) = cvalue T (intVal v).
Proof.
  intros Hv Hs. rewrite AsUint64_set by assumption. unfold cvalue. rewrite Hs.
  reflexivity.
Qed.

(** X3: on operands with canonical patterns the relational operators
    compare the operand values at the balanced type: as signed numbers when
    that type is signed, as unsigned numbers when it is not. *)
Theorem relational_compares_values op v1 v2 v3 :
  IsInt v1 = true -> IsInt v2 = true ->
  validSize (size (intTyp v1)) -> validSize (size (intTyp v2)) ->
  canonical v1 -> canonical v2 ->
  let T := spec_balance (spec_promote (intTyp v1)) (spec_promote (intTyp v2)) in
  let a := cvalue T (intVal v1) in
  let b := cvalue T (intVal v2) in
  (tok_typ op = tokenLess ->
   operatorApply op 2 v1 v2 v3 = Ret (NewValueBool (a <? b))) /\
  (tok_typ op = tokenLessEqual ->
   operatorApply op 2 v1 v2 v3 = Ret (NewValueBool (a <=? b))) /\
  (tok_typ op = tokenGreater ->
   operatorApply op 2 v1 v2 v3 = Ret (NewValueBool (a >? b))) /\
  (tok_typ op = tokenGreaterEqual ->
   operatorApply op 2 v1 v2 v3 = Ret (NewValueBool (a >=? b))).
Proof.
  intros Hi1 Hi2 H1 H2 C1 C2 T a b.
  assert (HvT : validSize (size T)) by (apply balance_valid; assumption).
  assert (S1 : signed T = true -> AsInt (set_intType v1 T) = a)
    by (intros Hs; apply (signed_operand_view v1 (intTyp v2) T); auto).
  assert (S2 : signed T = true -> AsInt (set_intType v2 T) = b)
    by (intros Hs; apply (signed_operand_view v2 (intTyp v1) T); auto).
  assert (U1 : signed T = false -> AsUint64 (set_intType v1 T) = a)
    by (intros Hs; apply unsigned_view; assumption).
  assert (U2 : signed T = false -> AsUint64 (set_intType v2 T) = b)
    by (intros Hs; apply unsigned_view; assumption).
  repeat split; intros Hop; rewrite operatorApply_balancing by (rewrite ?Hop; auto);
    fold T; unfold operandEval; rewrite Hop; rewrite intTyp_set_intType;
    destruct (signed T);
    rewrite ?(S1 eq_refl), ?(S2 eq_refl), ?(U1 eq_refl), ?(U2 eq_refl); reflexivity.
Qed.

Lemma relational_compares_values_witness :
  operatorApply (opToken tokenLess "<") 2
    (NewValueInt (2 ^ 64 - 1) 4 true) (NewValueInt 0 4 false) zeroValue
  = Ret (NewValueBool (4294967295 <? 0)).
Proof.
  refine (proj1 (relational_compares_values (opToken tokenLess "<")
            (NewValueInt (2 ^ 64 - 1) 4 true) (NewValueInt 0 4 false)
            zeroValue eq_refl eq_refl _ _ _ _) eq_refl).
  - right; right; left; reflexivity.
  - right; right; left; reflexivity.
  - vm_compute; reflexivity.
  - vm_compute; reflexivity.
Defined.

(** *** Bitwise operators and the unary operators *)

Lemma mod_ones p k : 0 <= k -> p mod 2 ^ k = Z.land p (Z.ones k).
Proof. intros. symmetry. apply Z.land_ones. assumption. Qed.

Lemma land_mod p q k : 0 <= k ->
  Z.land (p mod 2 ^ k) (q mod 2 ^ k) mod 2 ^ k = Z.land p q mod 2 ^ k.
Proof.
  intros Hk. rewrite !mod_ones by assumption. apply Z.bits_inj'. intros i Hi.
  rewrite !Z.land_spec. destruct (Z.testbit (Z.ones k) i), (Z.testbit p i), (Z.testbit q i);
    reflexivity.
Qed.

Lemma lor_mod p q k : 0 <= k ->
  Z.lor (p mod 2 ^ k) (q mod 2 ^ k) mod 2 ^ k = Z.lor p q mod 2 ^ k.
Proof.
  intros Hk. rewrite !mod_ones by assumption. apply Z.bits_inj'. intros i Hi.
  rewrite !Z.land_spec, !Z.lor_spec, !Z.land_spec.
  destruct (Z.testbit (Z.ones k) i), (Z.testbit p i), (Z.testbit q i); reflexivity.
Qed.

Lemma lxor_mod p q k : 0 <= k ->
  Z.lxor (p mod 2 ^ k) (q mod 2 ^ k) mod 2 ^ k = Z.lxor p q mod 2 ^ k.
Proof.
  intros Hk. rewrite !mod_ones by assumption. apply Z.bits_inj'. intros i Hi.
  rewrite !Z.land_spec, !Z.lxor_spec, !Z.land_spec.
  destruct (Z.testbit (Z.ones k) i), (Z.testbit p i), (Z.testbit q i); reflexivity.
Qed.

Lemma bitwise_eval op v1 v2 v3 (f : Z -> Z -> Z) :
  IsInt v1 = true -> IsInt v2 = true ->
  validSize (size (intTyp v1)) -> validSize (size (intTyp v2)) ->
  let T := spec_balance (spec_promote (intTyp v1)) (spec_promote (intTyp v2)) in
  let a := cvalue T (intVal v1) in
  let b := cvalue T (intVal v2) in
  (tok_typ op = tokenAnd /\ f = Z.land) \/
  (tok_typ op = tokenOr /\ f = Z.lor) \/
  (tok_typ op = tokenXor /\ f = Z.lxor) ->
  exists r, operatorApply op 2 v1 v2 v3 = Ret r /\ IsInt r = true /\
            intTyp r = T /\ intVal r = encode T (f a b).
Proof.
  intros Hi1 Hi2 H1 H2 T a b Hop.
  assert (HvT : validSize (size T)) by (apply balance_valid; assumption).
  destruct (bitsOf_valid T HvT) as [Hk _].
  pose proof (cvalue_mod T (intVal v1) HvT) as Ma. fold a in Ma.
  pose proof (cvalue_mod T (intVal v2) HvT) as Mb. fold b in Mb.
  assert (Hb : balancing (tok_typ op) = true)
    by (destruct Hop as [[-> _]|[[-> _]|[-> _]]]; reflexivity).
  rewrite operatorApply_balancing by assumption. fold T.
  unfold operandEval.
  destruct Hop as [[-> ->]|[[-> ->]|[-> ->]]];
    eexists; (split; [reflexivity|]);
    (split; [apply IsInt_newValueIntLike_set; assumption|]);
    (split; [apply intTyp_newValueIntLike_set|]);
    rewrite intVal_newValueIntLike_set by assumption;
    apply encode_congr;
    rewrite !AsUint64_set by assumption; rewrite <- Ma, <- Mb.
  - rewrite land_mod by lia. reflexivity.
  - rewrite lor_mod by lia. reflexivity.
  - rewrite lxor_mod by lia. reflexivity.
Qed.

(** X4: [&], [|] and [^] are the two's complement operations on the
    operand values at the balanced type. *)
Theorem bitwise_on_values op v1 v2 v3 :
  IsInt v1 = true -> IsInt v2 = true ->
  validSize (size (intTyp v1)) -> validSize (size (intTyp v2)) ->
  let T := spec_balance (spec_promote (intTyp v1)) (spec_promote (intTyp v2)) in
  let a := cvalue T (intVal v1) in
  let b := cvalue T (intVal v2) in
  (tok_typ op = tokenAnd ->
   exists r, operatorApply op 2 v1 v2 v3 = Ret r /\ IsInt r = true /\
             intTyp r = T /\ intVal r = encode T (Z.land a b)) /\
  (tok_typ op = tokenOr ->
   exists r, operatorApply op 2 v1 v2 v3 = Ret r /\ IsInt r = true /\
             intTyp r = T /\ intVal r = encode T (Z.lor a b)) /\
  (tok_typ op = tokenXor ->
   exists r, operatorApply op 2 v1 v2 v3 = Ret r /\ IsInt r = true /\
             intTyp r = T /\ intVal r = encode T (Z.lxor a b)).
Proof.
  intros Hi1 Hi2 H1 H2 T a b. repeat split; intros Hop.
  - apply (bitwise_eval op v1 v2 v3 Z.land Hi1 Hi2 H1 H2); auto.
  - apply (bitwise_eval op v1 v2 v3 Z.lor Hi1 Hi2 H1 H2); auto.
  - apply (bitwise_eval op v1 v2 v3 Z.lxor Hi1 Hi2 H1 H2); auto.
Qed.

Lemma bitwise_on_values_witness :
  exists r, operatorApply (opToken tokenAnd "&") 2
              (NewValueInt (2 ^ 64 - 1) 1 true) (NewValueInt 255 8 false) zeroValue = Ret r /\
            IsInt r = true /\ intTyp r = mkIntType 8 false /\
            intVal r = encode (mkIntType 8 false) (Z.land (2 ^ 64 - 1) 255).
Proof.
  refine (proj1 (bitwise_on_values (opToken tokenAnd "&")
            (NewValueInt (2 ^ 64 - 1) 1 true) (NewValueInt 255 8 false) zeroValue
            eq_refl eq_refl _ _) eq_refl).
  - left; reflexivity.
  - right; right; right; reflexivity.
Defined.

Lemma unary_apply op v1 v2 v3 :
  tok_typ op = tokenMinus \/ tok_typ op = tokenNot \/ tok_typ op = tokenPlus ->
  IsInt v1 = true ->
  operatorApply op 1 v1 v2 v3
  = operandEval op 1 (set_intType v1 (spec_promote (intTyp v1))) v2 v3.
Proof.
  intros Hop H1. unfold operatorApply, operandCheck, operandConvert.
  destruct Hop as [-> |[-> | ->]]; cbn [Z.eqb Pos.eqb negb]; rewrite H1; reflexivity.
Qed.

Lemma not64_lnot x : 0 <= x < 2 ^ 64 -> not64 x mod 2 ^ 64 = Z.lnot x mod 2 ^ 64.
Proof.
  intros Hx. unfold not64. change (2 ^ 64 - 1) with (Z.ones 64).
  rewrite !mod_ones by lia. apply Z.bits_inj'. intros i Hi.
  rewrite !Z.land_spec, Z.lxor_spec, Z.lnot_spec by assumption.
  destruct (Z.ltb_spec i 64).
  - rewrite Z.ones_spec_low by lia. destruct (Z.testbit x i); reflexivity.
  - rewrite Z.ones_spec_high by lia. rewrite !andb_false_r. reflexivity.
Qed.

(** X5: unary [-] yields the negated value and [~] the complemented value
    of its operand at the promoted type, wrapped into that type; unary [+]
    only promotes the type and leaves the stored pattern as it is. *)
Theorem unary_on_values op v1 v2 v3 :
  IsInt v1 = true -> validSize (size (intTyp v1)) ->
  let T := spec_promote (intTyp v1) in
  let a := cvalue T (intVal v1) in
  (tok_typ op = tokenMinus ->
   exists r, operatorApply op 1 v1 v2 v3 = Ret r /\ IsInt r = true /\
             intTyp r = T /\ intVal r = encode T (- a)) /\
  (tok_typ op = tokenNot ->
   exists r, operatorApply op 1 v1 v2 v3 = Ret r /\ IsInt r = true /\
             intTyp r = T /\ intVal r = encode T (Z.lnot a)) /\
  (tok_typ op = tokenPlus ->
   operatorApply op 1 v1 v2 v3 = Ret (set_intType v1 T)).
Proof.
  intros Hi1 H1 T a.
  assert (HvT : validSize (size T)) by (apply promote_valid; assumption).
  destruct (bitsOf_valid T HvT) as [Hk Hd].
  pose proof (cvalue_mod T (intVal v1) HvT) as Ma. fold a in Ma.
  repeat split; intros Hop; rewrite unary_apply by auto; fold T;
    unfold operandEval; rewrite Hop; cbn [Z.eqb Pos.eqb]; try reflexivity;
    eexists; (split; [reflexivity|]);
    (split; [apply IsInt_newValueIntLike_set; assumption|]);
    (split; [apply intTyp_newValueIntLike_set|]);
    rewrite intVal_newValueIntLike_set by assumption;
    rewrite AsUint64_set by assumption.
  - unfold neg64. rewrite encode_u64 by assumption. apply encode_congr.
    rewrite <- Ma. rewrite <- (Z.sub_0_l (a mod _)), <- (Z.sub_0_l a).
    rewrite Zminus_mod_idemp_r. reflexivity.
  - apply encode_congr.
    pose proof (Z.mod_pos_bound (intVal v1) (2 ^ bitsOf T) ltac:(lia)) as Hm.
    assert (H64 : 2 ^ bitsOf T <= 2 ^ 64) by (apply Z.pow_le_mono_r; lia).
    rewrite <- (Z.mod_mod_divide (not64 _) _ _ Hd).
    rewrite not64_lnot by lia. rewrite (Z.mod_mod_divide _ _ _ Hd).
    rewrite <- Ma. unfold Z.lnot.
    pose proof (Z.div_mod a (2 ^ bitsOf T) ltac:(lia)) as E.
    replace (Z.pred (- (a mod 2 ^ bitsOf T)))
      with (Z.pred (- a) + (a / 2 ^ bitsOf T) * 2 ^ bitsOf T) by lia.
    apply Z.mod_add. lia.
Qed.

Lemma unary_on_values_witness :
  exists r, operatorApply (opToken tokenNot "~") 1
              (NewValueInt 0 1 false) zeroValue zeroValue = Ret r /\
            IsInt r = true /\ intTyp r = mkIntType 4 true /\
            intVal r = encode (mkIntType 4 true) (Z.lnot 0).
Proof.
  refine (proj1 (proj2 (unary_on_values (opToken tokenNot "~")
            (NewValueInt 0 1 false) zeroValue zeroValue eq_refl _)) eq_refl).
  left; reflexivity.
Defined.

(** *** Logical operators *)




End OperatorFacts.

(** ** Expressions: errors, casts and constant folding *)

Module ExpressionFacts.
Import Go Cparse Spec CparseFacts CparseFold SpecMore.

Lemma cvalue_encode ty p : validSize (size ty) -> cvalue ty (encode ty p) = cvalue ty p.
Proof.
  intros Hv. unfold encode. rewrite cvalue_u64 by assumption.
  apply cvalue_id; [assumption|]. apply cvalue_inRange. assumption.
Qed.

(** The value of a canonical pattern read at a type that holds it. *)
Lemma canonical_cvalue_at v ty :
  validSize (size (intTyp v)) -> validSize (size ty) -> canonical v ->
  inRange ty (cvalue (intTyp v) (intVal v)) ->
  cvalue ty (intVal v) = cvalue (intTyp v) (intVal v).
Proof.
  intros Hv Hty Hc Hr. unfold canonical, encode in Hc. rewrite Hc at 1.
  rewrite cvalue_u64 by assumption. apply cvalue_id; assumption.
Qed.

Section Evaluation.
Context {EvalContext Variable_ Function_ : Type}.
Context (VG : Variable_ -> EvalContext -> outcome Value).
Context (FG : Function_ -> EvalContext -> list Value -> outcome Value).
Context (ctx : EvalContext).



(** X8: a cast of an integer yields the operand's stored pattern wrapped
    into the target type, which keeps the operand's value when the target
    type has it; a cast of anything else, an Error included, yields a new
    Error that quotes the operand and not the operand itself. *)
Theorem cast_value (e : @Expression Variable_ Function_) ty v :
  Expression_Value VG FG e ctx = Ret v ->
  validSize (size ty) ->
  (IsInt v = false ->
   Expression_Value VG FG (castExpression ty (Some e)) ctx
   = Ret (NewValueError ("cast applied to non-integer " ++ Value_dump v))) /\
  (IsInt v = true ->
   exists r, Expression_Value VG FG (castExpression ty (Some e)) ctx = Ret r /\
             IsInt r = true /\ intTyp r = ty /\
             intVal r = encode ty (intVal v) /\
             (validSize (size (intTyp v)) -> canonical v ->
              inRange ty (cvalue (intTyp v) (intVal v)) ->
              cvalue ty (intVal r) = cvalue (intTyp v) (intVal v))).
Proof.
  intros Ee Hty. split; intros Hi; cbn [Expression_Value]; rewrite Ee; cbn [bind];
    rewrite Hi; cbn [negb]; [reflexivity|].
  eexists. split; [reflexivity|].
  split; [destruct v; exact Hi|]. split; [apply intTyp_newValueIntCast|].
  split; [apply newValueIntCast_intVal; assumption|].
  intros Hv Hc Hr. rewrite newValueIntCast_intVal by assumption.
  rewrite cvalue_encode by assumption. apply canonical_cvalue_at; assumption.
Qed.

End Evaluation.


Lemma cast_value_witness :
  evalConst (castExpression (mkIntType 1 true)
               (Some (constantExpression None (NewValueError "e"))))
  = Ret (NewValueError "cast applied to non-integer value error: e").
Proof.
  refine (proj1 (cast_value _ _ tt (constantExpression None (NewValueError "e"))
                   (mkIntType 1 true) (NewValueError "e") eq_refl _) eq_refl).
  left; reflexivity.
Defined.

(** X9: a value with a canonical pattern that is cast to a type holding its
    value and then cast back to its own type is the value again. *)
Theorem cast_round_trip v ty :
  validSize (size (intTyp v)) -> validSize (size ty) -> canonical v ->
  inRange ty (cvalue (intTyp v) (intVal v)) ->
  newValueIntCast (newValueIntCast v ty) (intTyp v) = v.
Proof.
  intros Hv Hty Hc Hr.
  assert (E2 : intVal (newValueIntCast (newValueIntCast v ty) (intTyp v)) = intVal v).
  { rewrite newValueIntCast_intVal by assumption.
    rewrite newValueIntCast_intVal by assumption.
    unfold encode at 1. unfold encode at 1. rewrite cvalue_u64 by assumption.
    rewrite (canonical_cvalue_at v ty) by assumption.
    rewrite (cvalue_id (intTyp v)) by (try apply cvalue_inRange; assumption).
    symmetry. exact Hc. }
  destruct v as [ty0 sv iv it lv].
  unfold newValueIntCast in *. cbn [set_intType set_intVal intVal intTyp typ stringVal listVal] in *.
  rewrite E2. reflexivity.
Qed.

Lemma cast_round_trip_witness :
  newValueIntCast (newValueIntCast (NewValueInt (2 ^ 64 - 1) 1 true) (mkIntType 8 true))
                  (mkIntType 1 true)
  = NewValueInt (2 ^ 64 - 1) 1 true.
Proof.
  refine (cast_round_trip (NewValueInt (2 ^ 64 - 1) 1 true) (mkIntType 8 true) _ _ _ _).
  - left; reflexivity.
  - right; right; right; reflexivity.
  - vm_compute; reflexivity.
  - vm_compute; split; [discriminate|reflexivity].
Defined.

(** *** Constant folding *)

Section Fold.
Context {EvalContext Variable_ Function_ : Type}.
Context (VG : Variable_ -> EvalContext -> outcome Value).
Context (FG : Function_ -> EvalContext -> list Value -> outcome Value).
Context (nilCtx : EvalContext).

Lemma constant_any_ctx (e : @Expression Variable_ Function_) ctx1 ctx2 :
  IsConstant e = true ->
  Expression_Value VG FG e ctx1 = Expression_Value VG FG e ctx2.
Proof. destruct e; try discriminate. reflexivity. Qed.

Lemma operator_constants_any_ctx op (args : list (@Expression Variable_ Function_))
      ctx1 ctx2 :
  listIsConstants args = true ->
  Expression_Value VG FG (operatorExpression op args) ctx1
  = Expression_Value VG FG (operatorExpression op args) ctx2.
Proof.
  intros H. unfold listIsConstants in H.
  destruct args as [|a1 [|a2 [|a3 r]]]; cbn [forallb] in H;
    repeat match type of H with
      | (_ && _) = true => apply andb_prop in H; destruct H as [? H]
      end;
    cbn [Expression_Value];
    rewrite ?(constant_any_ctx a1 ctx1 ctx2), ?(constant_any_ctx a2 ctx1 ctx2),
            ?(constant_any_ctx a3 ctx1 ctx2) by assumption;
    reflexivity.
Qed.

Lemma list_constants_any_ctx (vals : list (@Expression Variable_ Function_)) ctx1 ctx2 :
  listIsConstants vals = true ->
  Expression_Value VG FG (listExpression vals) ctx1
  = Expression_Value VG FG (listExpression vals) ctx2.
Proof.
  intros H. cbn [Expression_Value]. f_equal.
  unfold listIsConstants in H. induction vals as [|a r IH]; [reflexivity|].
  cbn [forallb] in H. apply andb_prop in H. destruct H as [Ha Hr].
  rewrite (constant_any_ctx a ctx1 ctx2 Ha). rewrite (IH Hr). reflexivity.
Qed.

Lemma cast_constant_any_ctx ty (val : @Expression Variable_ Function_) ctx1 ctx2 :
  IsConstant val = true ->
  Expression_Value VG FG (castExpression ty (Some val)) ctx1
  = Expression_Value VG FG (castExpression ty (Some val)) ctx2.
Proof.
  intros H. cbn [Expression_Value]. rewrite (constant_any_ctx val ctx1 ctx2 H).
  reflexivity.
Qed.

Lemma listExpression_evalList (l : list (@Expression Variable_ Function_)) ctx :
  Expression_Value VG FG (listExpression l) ctx
  = (vs <- evalList VG FG l ctx ;; Ret (NewValueList vs)).
Proof.
  cbn [Expression_Value]. f_equal.
  induction l as [|a r IH]; [reflexivity|]. cbn [evalList]. rewrite IH. reflexivity.
Qed.

Lemma evalList_app (l1 l2 : list (@Expression Variable_ Function_)) ctx v1 v2 :
  evalList VG FG l1 ctx = Ret v1 -> evalList VG FG l2 ctx = Ret v2 ->
  evalList VG FG (l1 ++ l2) ctx = Ret (v1 ++ v2)%list.
Proof.
  revert v1. induction l1 as [|a r IH]; intros v1 E1 E2.
  - injection E1 as <-. exact E2.
  - cbn [evalList app] in *.
    destruct (Expression_Value VG FG a ctx) as [v|]; cbn [bind] in *; [|discriminate].
    destruct (evalList VG FG r ctx) as [vs|]; cbn [bind] in *; [|discriminate].
    injection E1 as <-. rewrite (IH vs eq_refl E2). reflexivity.
Qed.

(** The values of the elements a list constructor takes from an operand. *)
Lemma operand_elements (e : @Expression Variable_ Function_) ctx v :
  Expression_Value VG FG e ctx = Ret v ->
  evalList VG FG (match e with listExpression l => l | _ => [e] end) ctx
  = Ret (match e with listExpression _ => listVal v | _ => [v] end).
Proof.
  intros E.
  destruct e; try (cbn [evalList]; rewrite E; reflexivity).
  rewrite listExpression_evalList in E.
  destruct (evalList VG FG vals ctx) as [vs|]; cbn [bind] in E; [|discriminate].
  injection E as <-. reflexivity.
Qed.

Lemma toConstant_value (e e' : @Expression Variable_ Function_) :
  toConstant VG FG nilCtx e = Ret e' ->
  IsConstant e' = true /\
  forall ctx, Expression_Value VG FG e' ctx = Expression_Value VG FG e nilCtx.
Proof.
  unfold toConstant. destruct (Expression_Value VG FG e nilCtx) as [v|m] eqn:E;
    cbn [bind]; [|discriminate].
  intros [= <-]. split; reflexivity.
Qed.

(** X10: an expression that [newOperatorExpression], [newCastExpression] or
    [newListExpression] returns evaluates, in every context, to what the
    expression evaluates to without folding; it is marked constant exactly
    when the operands are; and folding operands whose evaluation panics
    panics while the expression is built. *)
Theorem folding_preserves_value op args ty val left right :
  (forall e', newOperatorExpression VG FG nilCtx op args = Ret e' ->
     IsConstant e' = listIsConstants args /\
     forall ctx, Expression_Value VG FG e' ctx
                 = Expression_Value VG FG (operatorExpression op args) ctx) /\
  (forall e', newCastExpression VG FG nilCtx ty val = Ret e' ->
     IsConstant e' = IsConstant val /\
     forall ctx, Expression_Value VG FG e' ctx
                 = Expression_Value VG FG (castExpression ty (Some val)) ctx) /\
  (forall e', newListExpression VG FG nilCtx left right = Ret e' ->
     forall ctx vl vr,
       Expression_Value VG FG left ctx = Ret vl ->
       Expression_Value VG FG right ctx = Ret vr ->
       Expression_Value VG FG e' ctx
       = Ret (NewValueList
                ((match left with listExpression _ => listVal vl | _ => [vl] end) ++
                 (match right with listExpression _ => listVal vr | _ => [vr] end)))) /\
  (forall msg, listIsConstants args = true ->
     Expression_Value VG FG (operatorExpression op args) nilCtx = Panic msg ->
     newOperatorExpression VG FG nilCtx op args = Panic msg).
Proof.
  repeat split.
  - unfold newOperatorExpression in H.
    destruct (listIsConstants args) eqn:C.
    + apply toConstant_value in H. apply H.
    + injection H as <-. reflexivity.
  - intros ctx. unfold newOperatorExpression in H.
    destruct (listIsConstants args) eqn:C.
    + apply toConstant_value in H. destruct H as [_ H]. rewrite H.
      apply operator_constants_any_ctx. exact C.
    + injection H as <-. reflexivity.
  - unfold newCastExpression in H.
    destruct (IsConstant val) eqn:C.
    + apply toConstant_value in H. apply H.
    + injection H as <-. reflexivity.
  - intros ctx. unfold newCastExpression in H.
    destruct (IsConstant val) eqn:C.
    + apply toConstant_value in H. destruct H as [_ H]. rewrite H.
      apply cast_constant_any_ctx. exact C.
    + injection H as <-. reflexivity.
  - intros e' H ctx vl vr El Er.
    assert (Ev : Expression_Value VG FG
                   (listExpression
                      ((match left with listExpression l => l | _ => [left] end) ++
                       (match right with listExpression l => l | _ => [right] end))) ctx
                 = Ret (NewValueList
                          ((match left with listExpression _ => listVal vl | _ => [vl] end) ++
                           (match right with listExpression _ => listVal vr | _ => [vr] end)))).
    { rewrite listExpression_evalList.
      rewrite (evalList_app _ _ ctx _ _ (operand_elements left ctx vl El)
                 (operand_elements right ctx vr Er)).
      reflexivity. }
    unfold newListExpression in H.
    match type of H with
    | (if ?c then _ else _) = _ => destruct c eqn:C
    end.
    + apply toConstant_value in H. destruct H as [_ H]. rewrite H.
      rewrite <- Ev. apply list_constants_any_ctx. exact C.
    + injection H as <-. exact Ev.
  - intros msg C E. unfold newOperatorExpression, toConstant. rewrite C, E. reflexivity.
Qed.
End Fold.
End ExpressionFacts.

(** ** Facts about event types and decoded events *)

Module EventFacts.
Import Go Cparse CparseAccess Spec Ftrace Fixtures Strings Kernel SpecEvent.
Import CparseFacts FtraceFacts.



Lemma le_range l : 0 <= le l < 2 ^ (8 * Z.of_nat (List.length l)).
Proof.
  induction l as [|b r IH]; cbn [le List.length].
  - vm_compute. split; [discriminate|reflexivity].
  - rewrite Nat2Z.inj_succ.
    replace (8 * Z.succ (Z.of_nat (List.length r)))
      with (8 + 8 * Z.of_nat (List.length r)) by lia.
    rewrite Z.pow_add_r by lia. change (2 ^ 8) with 256.
    assert (0 <= byteZ b < 256).
    { unfold byteZ. pose proof (Byte.to_N_bounded b). lia. }
    lia.
Qed.

Lemma length_firstn_arr (s : slice) n :
  wfSlice s -> 0 <= n <= len s ->
  List.length (firstn (Z.to_nat n) (arr s)) = Z.to_nat n.
Proof.
  intros [W1 W2] N. unfold cap in W2. apply firstn_length_le. lia.
Qed.

Lemma orderUint_total n s :
  wfSlice s -> 0 <= n <= len s ->
  orderUint n s = Ret (le (firstn (Z.to_nat n) (arr s))).
Proof.
  intros W N. unfold orderUint.
  destruct (Z.ltb_spec (len s) n); [lia|reflexivity].
Qed.

Lemma index_first s :
  wfSlice s -> 1 <= len s ->
  exists b, index s 0 = Ret b /\ le (firstn 1 (arr s)) = byteZ b.
Proof.
  intros [W1 W2] N. unfold index, cap in *.
  destruct (arr s) as [|b r] eqn:E; cbn [List.length] in W2; [lia|].
  exists b. destruct (Z.ltb_spec 0 (len s)); [|lia].
  cbn. split; [reflexivity|lia].
Qed.

Lemma sext_range n x : 0 < n -> 0 <= x < 2 ^ n ->
  - 2 ^ (n - 1) <= sext n x < 2 ^ (n - 1) /\ sext n x mod 2 ^ n = x.
Proof.
  intros N X. unfold sext.
  assert (P : 2 ^ n = 2 * 2 ^ (n - 1)).
  { replace n with (Z.succ (n - 1)) at 1 by lia. apply Z.pow_succ_r. lia. }
  assert (0 < 2 ^ (n - 1)) by (apply Z.pow_pos_nonneg; lia).
  destruct (Z.ltb_spec x (2 ^ (n - 1))).
  - split; [lia|]. apply Z.mod_small. lia.
  - split; [lia|]. symmetry. apply (Z.mod_unique _ _ (-1)); lia.
Qed.

Lemma decode_fields v :
  wfSlice (contents v) -> validSize (fsize (field v)) ->
  fsize (field v) <= len (contents v) ->
  let n := fsize (field v) in
  let x := le (firstn (Z.to_nat n) (arr (contents v))) in
  DecodeUint v = Ret x /\ DecodeInt v = Ret (sext (8 * n) x) /\
  0 <= x < 2 ^ (8 * n) /\
  - 2 ^ (8 * n - 1) <= sext (8 * n) x < 2 ^ (8 * n - 1) /\
  sext (8 * n) x mod 2 ^ (8 * n) = x.
Proof.
  intros W V L n x.
  assert (R : 0 <= x < 2 ^ (8 * n)).
  { subst x. pose proof (le_range (firstn (Z.to_nat n) (arr (contents v)))) as R.
    rewrite length_firstn_arr in R by (auto; unfold validSize in V; lia).
    rewrite Z2Nat.id in R by (unfold validSize in V; lia). exact R. }
  assert (S := sext_range (8 * n) x ltac:(unfold validSize in V; lia) R).
  assert (D : DecodeUint v = Ret x /\ DecodeInt v = Ret (sext (8 * n) x)).
  { unfold DecodeUint, DecodeInt. subst x n.
    destruct V as [V|[V|[V|V]]]; rewrite V in *.
    - destruct (index_first _ W L) as (b & I & B).
      rewrite I. cbn [bind]. change (Z.to_nat 1) with 1%nat. rewrite B. split; reflexivity.
    - unfold Uint16. rewrite orderUint_total by (auto; lia). split; reflexivity.
    - unfold Uint32. rewrite orderUint_total by (auto; lia). split; reflexivity.
    - unfold Uint64. rewrite orderUint_total by (auto; lia). split; reflexivity. }
  tauto.
Qed.

(** X11: on a field of 1, 2, 4 or 8 bytes, [DecodeUint] is the
    little-endian value of the field's bytes, and [DecodeInt] is the same
    bits read as a two's complement number. *)
Theorem decoders_agree v :
  wfSlice (contents v) -> validSize (fsize (field v)) ->
  fsize (field v) <= len (contents v) ->
  let n := fsize (field v) in
  let x := le (firstn (Z.to_nat n) (arr (contents v))) in
  DecodeUint v = Ret x /\ DecodeInt v = Ret (sext (8 * n) x) /\
  0 <= x < 2 ^ (8 * n) /\
  - 2 ^ (8 * n - 1) <= sext (8 * n) x < 2 ^ (8 * n - 1) /\
  sext (8 * n) x mod 2 ^ (8 * n) = x.
Proof. exact (decode_fields v). Qed.

Lemma decoders_agree_witness :
  let v := mkEventFieldValue (mkEventField "common_pid" 4 4 true false "int" false)
             (sliceOf (leBytes 4 (-5))) in
  DecodeUint v = Ret 4294967291 /\ DecodeInt v = Ret (-5).
Proof.
  cbv zeta.
  pose proof (decoders_agree
    (mkEventFieldValue (mkEventField "common_pid" 4 4 true false "int" false)
       (sliceOf (leBytes 4 (-5))))) as H.
  cbv zeta in H.
  destruct H as (U & I & _).
  - vm_compute. split; discriminate.
  - right; right; left; reflexivity.
  - vm_compute. discriminate.
  - split; [exact U | exact I].
Defined.

Lemma wfSlice_sliceOf l : wfSlice (sliceOf l).
Proof. unfold wfSlice, sliceOf, cap. cbn [len arr]. lia. Qed.

Lemma cvalue_as_sext t p : validSize (Cparse.size t) ->
  cvalue t p = if signed t then sext (bitsOf t) (p mod 2 ^ bitsOf t)
               else p mod 2 ^ bitsOf t.
Proof.
  intros V. unfold cvalue, sext. cbv zeta.
  destruct (signed t); cbn [andb]; [|reflexivity].
  destruct (Z.leb_spec (2 ^ (bitsOf t - 1)) (p mod 2 ^ bitsOf t));
    destruct (Z.ltb_spec (p mod 2 ^ bitsOf t) (2 ^ (bitsOf t - 1))); lia || reflexivity.
Qed.

(** X12: decoding inverts the little-endian encoding.  A field of [n] bytes
    (1, 2, 4 or 8) that holds the [n] low bytes of [x], whatever follows
    them in the record, decodes to [x] wrapped to [n] bytes: unsigned with
    [DecodeUint], two's complement with [DecodeInt]. *)
Theorem decode_round_trip (n : nat) f x rest :
  fsize f = Z.of_nat n -> validSize (fsize f) ->
  let v := mkEventFieldValue f (mkSlice (leBytes n x ++ rest) (fsize f)) in
  DecodeUint v = Ret (cvalue (mkIntType (fsize f) false) x) /\
  DecodeInt v = Ret (cvalue (mkIntType (fsize f) true) x).
Proof.
  intros N V v.
  assert (W : wfSlice (contents v)).
  { subst v. unfold wfSlice, cap. cbn [contents len arr].
    rewrite length_app, length_leBytes. unfold validSize in V. lia. }
  destruct (decode_fields v W V) as (U & I & _).
  { subst v. cbn [contents field len]. lia. }
  cbv zeta in U, I.
  assert (E : le (firstn (Z.to_nat (fsize (field v))) (arr (contents v)))
              = x mod 2 ^ (8 * fsize f)).
  { subst v. cbn [field contents arr]. rewrite N, Nat2Z.id.
    rewrite <- (length_leBytes n x) at 1. rewrite firstn_app_exact.
    apply le_leBytes. }
  rewrite E in U, I. rewrite U, I.
  rewrite !cvalue_as_sext by exact V.
  unfold bitsOf. cbn [Cparse.size signed]. subst v. cbn [field]. split; reflexivity.
Qed.

Lemma decode_round_trip_witness :
  DecodeUint (mkEventFieldValue (mkEventField "x" 2 0 false false "short" false)
                (mkSlice (leBytes 2 (-2) ++ [x07])%list 2))
  = Ret 65534 /\
  DecodeInt (mkEventFieldValue (mkEventField "x" 2 0 false false "short" false)
               (mkSlice (leBytes 2 (-2) ++ [x07])%list 2))
  = Ret (-2).
Proof.
  exact (decode_round_trip 2 (mkEventField "x" 2 0 false false "short" false) (-2) [x07]
           eq_refl (or_intror (or_introl eq_refl))).
Defined.

(** *** Decoding a record *)

Lemma reslice_field data f :
  wfSlice data -> 0 <= foffset f -> 0 <= fsize f ->
  foffset f + fsize f <= len data ->
  exists c, reslice data (foffset f) (foffset f + fsize f) = Ret c /\
            wfSlice c /\ len c = fsize f /\ bytes c = fieldBytes data f.
Proof.
  intros [W1 W2] O S L. unfold reslice.
  destruct (Z.leb_spec 0 (foffset f)); [|lia].
  destruct (Z.leb_spec (foffset f) (foffset f + fsize f)); [|lia].
  destruct (Z.leb_spec (foffset f + fsize f) (cap data)); [|lia].
  cbn [andb]. eexists. split; [reflexivity|].
  unfold wfSlice, cap, bytes, fieldBytes, window in *. cbn [len arr].
  rewrite length_skipn.
  replace (foffset f + fsize f - foffset f) with (fsize f) by lia.
  repeat split; try lia.
Qed.

Lemma sliceFields_total data fs :
  wfSlice data ->
  (forall f, In f fs -> 0 <= foffset f /\ 0 <= fsize f /\
                        foffset f + fsize f <= len data) ->
  exists vs, sliceFields data fs = Ret vs /\ map field vs = fs /\
             Forall (sliced data) vs.
Proof.
  intros W. induction fs as [|f r IH]; intros F; cbn [sliceFields].
  - exists []. repeat split. constructor.
  - destruct (F f (or_introl eq_refl)) as (O & S & L).
    destruct (reslice_field data f W O S L) as (c & Ec & Wc & Lc & Bc).
    destruct IH as (vs & Ev & Mv & Fv); [intros g I; apply F; right; exact I|].
    rewrite Ec, Ev. cbn [bind]. eexists. split; [reflexivity|].
    cbn [map field]. split; [rewrite Mv; reflexivity|].
    constructor; [|exact Fv]. unfold sliced. cbn [contents field]. auto.
Qed.

Lemma decode_small_or_zero v :
  validSize (fsize (field v)) \/ (DecodeUint v = Ret 0 /\ DecodeInt v = Ret 0).
Proof.
  unfold DecodeUint, DecodeInt, validSize.
  destruct (fsize (field v)) as [|p|p];
    [right; split; reflexivity| |right; split; reflexivity].
  do 4 (try (destruct p as [p|p|]);
        first [right; split; reflexivity | left; lia | idtac]).
Qed.

Lemma decode_total data v : sliced data v ->
  (exists u, DecodeUint v = Ret u) /\ (exists i, DecodeInt v = Ret i).
Proof.
  intros (W & L & _).
  destruct (decode_small_or_zero v) as [V|[U I]].
  - destruct (decode_fields v W V ltac:(lia)) as (U & I & _). eauto.
  - eauto.
Qed.

Lemma valueAt_total vs i : 0 <= i < Z.of_nat (List.length vs) ->
  exists v, valueAt vs i = Ret v /\ In v vs.
Proof.
  intros R. unfold valueAt.
  destruct (Z.leb_spec 0 i); [|lia].
  destruct (Z.ltb_spec i (Z.of_nat (List.length vs))); [|lia]. cbn [andb].
  destruct (nth_error vs (Z.to_nat i)) as [v|] eqn:E.
  - exists v. split; [reflexivity|]. eapply nth_error_In; eassumption.
  - apply nth_error_None in E. lia.
Qed.

Lemma valueAt_out vs i : ~ 0 <= i < Z.of_nat (List.length vs) ->
  valueAt vs i = Panic indexPanic.
Proof.
  intros R. unfold valueAt.
  destruct (Z.leb_spec 0 i); destruct (Z.ltb_spec i (Z.of_nat (List.length vs)));
    cbn [andb]; try reflexivity. lia.
Qed.

Lemma fieldsFit_data et data : fieldsFit et -> Ftrace.size et <= len data ->
  forall f, In f (fields et) ->
    0 <= foffset f /\ 0 <= fsize f /\ foffset f + fsize f <= len data.
Proof. intros F L f I. destruct (F f I) as (A & B & C). lia. Qed.

Lemma common_value data vs i : Forall (sliced data) vs ->
  0 <= i < Z.of_nat (List.length vs) ->
  exists v u n, valueAt vs i = Ret v /\ DecodeUint v = Ret u /\ DecodeInt v = Ret n.
Proof.
  intros F R. destruct (valueAt_total vs i R) as (v & E & I).
  rewrite Forall_forall in F.
  destruct (decode_total data v (F v I)) as ((u & U) & (n & N)).
  exists v, u, n. auto.
Qed.

(** X13: [DecodeEvent] on a type whose fields lie inside its size and whose
    common fields exist.  A record shorter than the size is refused with
    [BadEventData]; any other record is decoded without a panic, into an
    event of that type, CPU and time that keeps the record and gives each
    field, in order, exactly the bytes at its offset. *)
Theorem DecodeEvent_slices_fields et data cpu when :
  wfSlice data -> fieldsFit et -> commonFields et ->
  (len data < Ftrace.size et ->
   DecodeEvent et data cpu when = Ret (inr BadEventData)) /\
  (Ftrace.size et <= len data ->
   exists e, DecodeEvent et data cpu when = Ret (inl e) /\
             etype e = et /\ Cpu e = cpu /\ When e = when /\ econtents e = data /\
             map field (values e) = fields et /\
             Forall (fun v => bytes (contents v) = fieldBytes data (field v))
                    (values e)).
Proof.
  intros W F (P & G & Q). unfold DecodeEvent. split; intros L.
  - destruct (Z.ltb_spec (len data) (Ftrace.size et)); [reflexivity|lia].
  - destruct (Z.ltb_spec (len data) (Ftrace.size et)); [lia|].
    destruct (sliceFields_total data (fields et) W (fieldsFit_data et data F L))
      as (vs & Ev & Mv & Fv).
    assert (N : List.length vs = List.length (fields et))
      by (rewrite <- Mv; symmetry; apply length_map).
    rewrite <- N in P, G, Q.
    destruct (common_value data vs _ Fv P) as (pv & ? & pid & E1 & _ & E2).
    destruct (common_value data vs _ Fv G) as (fv & flags & ? & E3 & E4 & _).
    destruct (common_value data vs _ Fv Q) as (qv & ? & preempt & E5 & _ & E6).
    rewrite Ev. cbn [bind]. rewrite E1. cbn [bind]. rewrite E2. cbn [bind].
    rewrite E3. cbn [bind]. rewrite E4. cbn [bind]. rewrite E5. cbn [bind].
    rewrite E6. cbn [bind].
    eexists. split; [reflexivity|]. cbn [etype Cpu When econtents values].
    repeat split; try assumption.
    eapply Forall_impl; [|exact Fv]. intros v (_ & _ & B). exact B.
Qed.

Lemma DecodeEvent_slices_fields_witness :
  exists e, DecodeEvent sampleType (sliceOf sampleRecord) 3 1000 = Ret (inl e) /\
            etype e = sampleType /\ Cpu e = 3 /\ When e = 1000 /\
            econtents e = sliceOf sampleRecord /\
            map field (values e) = fields sampleType /\
            Forall (fun v => bytes (contents v)
                             = fieldBytes (sliceOf sampleRecord) (field v))
                   (values e).
Proof.
  refine (proj2 (DecodeEvent_slices_fields sampleType (sliceOf sampleRecord) 3 1000
                   (wfSlice_sliceOf _) _ _) _).
  - intros f I. cbn in I.
    repeat (destruct I as [<-|I]; [vm_compute; repeat split; discriminate|]).
    destruct I.
  - vm_compute. repeat split; discriminate || reflexivity.
  - vm_compute. discriminate.
Defined.

(** *** Looking fields up by name *)

Lemma getFieldNumFrom_none i fs name :
  (forall f, In f fs -> fname f <> name) -> getFieldNumFrom i fs name = -1.
Proof.
  revert i. induction fs as [|g r IH]; intros i N; cbn [getFieldNumFrom]; [reflexivity|].
  destruct (String.eqb_spec (fname g) name) as [E|E].
  - exfalso. exact (N g (or_introl eq_refl) E).
  - apply IH. intros f I. apply N. right. exact I.
Qed.

Lemma getFieldNumFrom_first i pre f post name :
  fname f = name -> (forall g, In g pre -> fname g <> name) ->
  getFieldNumFrom i (pre ++ f :: post) name = i + Z.of_nat (List.length pre).
Proof.
  intros E. revert i. induction pre as [|g r IH]; intros i N;
    cbn [getFieldNumFrom app List.length].
  - rewrite E, String.eqb_refl. lia.
  - destruct (String.eqb_spec (fname g) name) as [G|G].
    + exfalso. exact (N g (or_introl eq_refl) G).
    + rewrite IH by (intros h I; apply N; right; exact I). lia.
Qed.

Lemma first_named (fs : list eventField) name :
  (forall f, In f fs -> fname f <> name) \/
  exists pre f post, fs = (pre ++ f :: post)%list /\ fname f = name /\
                     forall g, In g pre -> fname g <> name.
Proof.
  induction fs as [|g r IH].
  - left. intros f [].
  - destruct (String.eqb_spec (fname g) name) as [G|G].
    + right. exists [], g, r. repeat split; [exact G|intros h []].
    + destruct IH as [N|(pre & f & post & -> & E & N)].
      * left. intros f [<-|I]; auto.
      * right. exists (g :: pre), f, post. repeat split; [exact E|].
        intros h [<-|I]; auto.
Qed.

Lemma getFieldNum_cases et name :
  (getFieldNum et name = -1 /\ forall f, In f (fields et) -> fname f <> name) \/
  exists pre f post,
    fields et = (pre ++ f :: post)%list /\ fname f = name /\
    (forall g, In g pre -> fname g <> name) /\
    getFieldNum et name = Z.of_nat (List.length pre).
Proof.
  unfold getFieldNum.
  destruct (first_named (fields et) name) as [N|(pre & f & post & E & F & N)].
  - left. split; [apply getFieldNumFrom_none; exact N|exact N].
  - right. exists pre, f, post. rewrite E.
    rewrite (getFieldNumFrom_first 0 pre f post name F N). auto.
Qed.

Lemma fieldAt_middle (pre : list eventField) f post :
  fieldAt (pre ++ f :: post) (Z.of_nat (List.length pre)) = Ret f.
Proof.
  unfold fieldAt. rewrite length_app. cbn [List.length].
  destruct (Z.leb_spec 0 (Z.of_nat (List.length pre))); [|lia].
  destruct (Z.ltb_spec (Z.of_nat (List.length pre))
              (Z.of_nat (List.length pre + S (List.length post)))); [|lia].
  cbn [andb]. rewrite Nat2Z.id, nth_error_app2, Nat.sub_diag by lia. reflexivity.
Qed.

Lemma kernelConstants_small name c : kernelConstants name = Some c -> 0 <= c < 10.
Proof.
  unfold kernelConstants.
  repeat (destruct (String.eqb name _); [intros [= <-]; lia|]). discriminate.
Qed.

(** X14: how [GetVariable] resolves a name.  The first field named like
    the name without its [REC->] prefix always wins, and the variable it
    yields indexes that field; only when there is no such field is the
    name, with its prefix, looked up among the kernel constants, which are
    [int] values; a name that is neither yields no variable. *)
Theorem GetVariable_resolves et name :
  match GetVariable et name with
  | Some (eventVariable i) =>
      exists pre f post,
        fields et = (pre ++ f :: post)%list /\ i = Z.of_nat (List.length pre) /\
        fname f = TrimPrefix name "REC->" /\
        (forall g, In g pre -> fname g <> TrimPrefix name "REC->") /\
        fieldAt (fields et) i = Ret f
  | Some (constantVariable v) =>
      (forall f, In f (fields et) -> fname f <> TrimPrefix name "REC->") /\
      exists c, kernelConstants name = Some c /\ v = NewValueInt c 4 true /\
                canonical v
  | None =>
      (forall f, In f (fields et) -> fname f <> TrimPrefix name "REC->") /\
      kernelConstants name = None
  end.
Proof.
  unfold GetVariable.
  destruct (getFieldNum_cases et (TrimPrefix name "REC->"))
    as [[E N]|(pre & f & post & F & Fn & N & E)]; rewrite E.
  - change (-1 >=? 0) with false. cbv iota.
    destruct (kernelConstants name) as [c|] eqn:K; [|auto].
    unfold NewConstantVariable. split; [exact N|]. exists c.
    pose proof (kernelConstants_small name c K) as R.
    assert (U : u64 (int64 c) = c).
    { unfold int64, u64. rewrite (Z.mod_small c) by lia.
      destruct (Z.ltb_spec c (2 ^ 63)); [|lia]. apply Z.mod_small. lia. }
    rewrite U. repeat split.
    unfold canonical. cbn [intVal intTyp NewValueInt]. symmetry.
    apply encode_small; [right; right; left; reflexivity|].
    unfold bitsOf. cbn [Cparse.size]. lia.
  - destruct (Z.geb_spec (Z.of_nat (List.length pre)) 0); [|lia].
    exists pre, f, post. rewrite F. repeat split; try assumption.
    apply fieldAt_middle.
Qed.

(** *** An event type without its common fields *)

Lemma DecodeEvent_bad_pid et data cpu when :
  wfSlice data -> fieldsFit et -> Ftrace.size et <= len data ->
  ~ 0 <= pidField et < Z.of_nat (List.length (fields et)) ->
  DecodeEvent et data cpu when = Panic indexPanic.
Proof.
  intros W F L P. unfold DecodeEvent.
  destruct (Z.ltb_spec (len data) (Ftrace.size et)); [lia|].
  destruct (sliceFields_total data (fields et) W (fieldsFit_data et data F L))
    as (vs & Ev & Mv & Fv).
  assert (N : List.length vs = List.length (fields et))
    by (rewrite <- Mv; symmetry; apply length_map).
  rewrite Ev. cbn [bind]. rewrite valueAt_out by (rewrite N; exact P). reflexivity.
Qed.

(** X15: an event type that has no [common_pid] field, set up as
    [newEventType] does ([pidField] is what [getFieldNum] returns, -1),
    cannot decode anything: on every record that is long enough
    [DecodeEvent] panics with an index out of range. *)
Theorem DecodeEvent_without_pid et data cpu when :
  wfSlice data -> fieldsFit et -> Ftrace.size et <= len data ->
  pidField et = getFieldNum et "common_pid" ->
  (forall f, In f (fields et) -> fname f <> "common_pid") ->
  DecodeEvent et data cpu when = Panic indexPanic.
Proof.
  intros W F L P N. apply DecodeEvent_bad_pid; try assumption.
  rewrite P. unfold getFieldNum. rewrite getFieldNumFrom_none by exact N. lia.
Qed.

Lemma DecodeEvent_without_pid_witness :
  DecodeEvent headerPage (mkPage 1000 []) 0 0 <> Panic indexPanic /\
  DecodeEvent
    (mkEventType "" 0 (fields headerPage) (Ftrace.size headerPage)
       (getFieldNum headerPage "common_pid") 0 0)
    (mkPage 1000 []) 0 0 = Panic indexPanic.
Proof.
  split; [vm_compute; discriminate|].
  apply DecodeEvent_without_pid.
  - apply wfSlice_sliceOf.
  - intros f I. cbn in I.
    repeat (destruct I as [<-|I]; [vm_compute; repeat split; discriminate|]).
    destruct I.
  - vm_compute. discriminate.
  - reflexivity.
  - intros f I. cbn in I.
    repeat (destruct I as [<-|I]; [cbn [fname]; discriminate|]). destruct I.
Defined.

(** *** Strings cut at the first NUL *)

Lemma IndexByte_nul s :
  (IndexByte s nul = -1 /\ nulFree s = true) \/
  exists k rest, IndexByte s nul = Z.of_nat k /\ (k <= String.length s)%nat /\
                 nulFree (take k s) = true /\ s = take k s ++ String nul rest.
Proof.
  induction s as [|a r IH]; cbn [IndexByte nulFree].
  - left. split; reflexivity.
  - destruct (Ascii.eqb_spec a nul) as [E|E].
    + right. exists 0%nat, r. cbn [take String.length append nulFree].
      subst a. repeat split. lia.
    + destruct IH as [[I N]|(k & rest & I & L & N & Hs)].
      * left. rewrite I. split; [reflexivity|]. cbn [negb andb]. exact N.
      * right. exists (S k), rest. rewrite I.
        destruct (Z.eqb_spec (Z.of_nat k) (-1)); [lia|].
        cbn [take String.length append nulFree].
        destruct (Ascii.eqb_spec a nul); [contradiction|]. cbn [negb andb].
        repeat split; [lia|lia|exact N|]. f_equal. exact Hs.
Qed.

Lemma untilNul_cut b :
  exists s, untilNul b = Ret s /\ cutAtNul (string_of_list_byte (bytes b)) s.
Proof.
  unfold untilNul, cutAtNul.
  destruct (IndexByte_nul (string_of_list_byte (bytes b)))
    as [[I N]|(k & rest & I & L & N & S)]; fold nul; rewrite I.
  - cbn [Z.eqb negb]. eexists. split; [reflexivity|]. split; [exact N|]. left; reflexivity.
  - destruct (Z.eqb_spec (Z.of_nat k) (-1)); [lia|]. cbn [negb].
    unfold strSlice, strlen.
    destruct (Z.leb_spec 0 (Z.of_nat k)); [|lia].
    destruct (Z.leb_spec (Z.of_nat k)
                (Z.of_nat (String.length (string_of_list_byte (bytes b))))); [|lia].
    cbn [Z.leb andb Z.to_nat drop]. rewrite Z.sub_0_r, Nat2Z.id.
    eexists. split; [reflexivity|]. split; [exact N|]. right. exists rest. exact S.
Qed.

(** *** Variables that read a field *)

Lemma DecodeEvent_inv et data cpu when e :
  DecodeEvent et data cpu when = Ret (inl e) ->
  sliceFields data (fields et) = Ret (values e) /\ etype e = et /\
  Ftrace.size et <= len data.
Proof.
  unfold DecodeEvent. destruct (Z.ltb_spec (len data) (Ftrace.size et)); [discriminate|].
  intros D.
  apply bind_Ret in D. destruct D as (vs & -> & D).
  apply bind_Ret in D. destruct D as (pv & _ & D).
  apply bind_Ret in D. destruct D as (pid & _ & D).
  apply bind_Ret in D. destruct D as (fv & _ & D).
  apply bind_Ret in D. destruct D as (flags & _ & D).
  apply bind_Ret in D. destruct D as (qv & _ & D).
  apply bind_Ret in D. destruct D as (preempt & _ & D).
  injection D as <-. cbn [values etype]. auto.
Qed.

Lemma fieldAt_inv fs i f : fieldAt fs i = Ret f ->
  0 <= i < Z.of_nat (List.length fs) /\ nth_error fs (Z.to_nat i) = Some f.
Proof.
  unfold fieldAt.
  destruct (Z.leb_spec 0 i); destruct (Z.ltb_spec i (Z.of_nat (List.length fs)));
    cbn [andb]; try discriminate.
  destruct (nth_error fs (Z.to_nat i)); [|discriminate].
  intros [= ->]. auto.
Qed.

Lemma value_of_field data vs fs i f :
  map field vs = fs -> Forall (sliced data) vs -> fieldAt fs i = Ret f ->
  exists v, valueAt vs i = Ret v /\ field v = f /\ sliced data v.
Proof.
  intros M F A. apply fieldAt_inv in A. destruct A as (R & N).
  assert (L : List.length vs = List.length fs) by (rewrite <- M; symmetry; apply length_map).
  rewrite <- L in R.
  destruct (valueAt_total vs i R) as (v & E & I).
  exists v. split; [exact E|].
  unfold valueAt in E.
  destruct (Z.leb_spec 0 i); destruct (Z.ltb_spec i (Z.of_nat (List.length vs)));
    cbn [andb] in E; try discriminate.
  destruct (nth_error vs (Z.to_nat i)) as [v'|] eqn:Nv; [|discriminate].
  injection E as ->.
  rewrite <- M, nth_error_map, Nv in N. cbn [option_map] in N. injection N as N.
  split; [exact N|]. rewrite Forall_forall in F. apply F. exact I.
Qed.

Lemma sliced_value data v : sliced data v -> 0 <= fsize (field v) ->
  firstn (Z.to_nat (fsize (field v))) (arr (contents v)) = fieldBytes data (field v).
Proof. intros (_ & L & B) _. rewrite <- B. unfold bytes. rewrite L. reflexivity. Qed.

Lemma field_int_value data v :
  sliced data v -> validSize (fsize (field v)) ->
  let t := mkIntType (fsize (field v)) (fsigned (field v)) in
  (if fsigned (field v) then x <- DecodeInt v ;; Ret (u64 x) else DecodeUint v)
  = Ret (encode t (le (fieldBytes data (field v)))).
Proof.
  intros S V t. pose proof S as (W & L & B).
  destruct (decode_fields v W V ltac:(lia)) as (U & I & R & _).
  cbv zeta in U, I, R.
  rewrite (sliced_value data v S) in U, I, R by (unfold validSize in V; lia).
  assert (Vt : validSize (Cparse.size t)) by exact V.
  destruct (bitsOf_valid t Vt) as [K D].
  assert (P : 0 < 2 ^ bitsOf t) by (apply Z.pow_pos_nonneg; lia).
  assert (P64 : 2 ^ bitsOf t <= 2 ^ 64).
  { apply Z.divide_pos_le; [reflexivity|exact D]. }
  unfold encode. rewrite (cvalue_as_sext t _ Vt).
  assert (B8 : bitsOf t = 8 * fsize (field v)) by reflexivity.
  rewrite B8 in *. rewrite (Z.mod_small _ _ R).
  subst t. cbn [signed]. destruct (fsigned (field v)).
  - rewrite I. reflexivity.
  - rewrite U. unfold u64. rewrite Z.mod_small by lia. reflexivity.
Qed.

(** X16: the value of a variable that names a field of a decoded event.
    A field of 1, 2, 4 or 8 bytes whose type is not [char] is read as an
    integer of the field's size and signedness: the little-endian value of
    the field's bytes, sign-extended to 64 bits when the field is signed,
    so the result is canonical.  A [char] field is read as the string of its
    bytes up to the first NUL. *)
Theorem field_variable_value et data cpu when e i f :
  wfSlice data -> fieldsFit et ->
  DecodeEvent et data cpu when = Ret (inl e) ->
  fieldAt (fields et) i = Ret f ->
  let t := mkIntType (fsize f) (fsigned f) in
  let v := NewValueInt (encode t (le (fieldBytes data f))) (fsize f) (fsigned f) in
  (ftype f <> "char" -> validSize (fsize f) ->
   eventVariable_Get i e = Ret v /\ canonical v /\ normalized t (intVal v)) /\
  (ftype f = "char" ->
   exists s, eventVariable_Get i e = Ret (NewValueString s) /\
             cutAtNul (string_of_list_byte (fieldBytes data f)) s).
Proof.
  intros W F D A t v.
  destruct (DecodeEvent_inv _ _ _ _ _ D) as (Sv & Et & L).
  destruct (sliceFields_total data (fields et) W (fieldsFit_data et data F L))
    as (vs & Ev & Mv & Fv).
  rewrite Ev in Sv. injection Sv as Sv.
  destruct (value_of_field data vs (fields et) i f Mv Fv A) as (x & Ex & Fx & Sx).
  unfold eventVariable_Get. rewrite Et, A. cbn [bind]. rewrite <- Sv, Ex.
  split.
  - intros C V. destruct (String.eqb_spec (ftype f) "char") as [|_]; [contradiction|].
    assert (I : (if fsigned f
                 then v0 <- Ret x ;; x0 <- DecodeInt v0 ;; Ret (u64 x0)
                 else v0 <- Ret x ;; DecodeUint v0)
                = Ret (encode t (le (fieldBytes data f)))).
    { cbn [bind]. subst t. rewrite <- Fx. apply field_int_value; [exact Sx|].
      rewrite Fx. exact V. }
    rewrite I. cbn [bind]. split; [reflexivity|].
    subst v. unfold canonical. cbn [intVal intTyp NewValueInt]. fold t. split.
    + symmetry. apply encode_idem. exact V.
    + apply encode_normalized. exact V.
  - intros C. rewrite C. cbn [String.eqb Ascii.eqb Bool.eqb]. cbn [bind].
    destruct (untilNul_cut (contents x)) as (s & Es & Cs).
    exists s. rewrite Es. cbn [bind]. split; [reflexivity|].
    destruct Sx as (_ & _ & B). rewrite B, Fx in Cs. exact Cs.
Qed.

Lemma field_variable_value_witness :
  exists e, DecodeEvent sampleType (sliceOf sampleRecord) 0 0 = Ret (inl e) /\
            eventVariable_Get 3 e = Ret (NewValueInt (2 ^ 64 - 5) 4 true).
Proof.
  destruct (DecodeEvent sampleType (sliceOf sampleRecord) 0 0) as [[e|?]|?] eqn:D;
    try (exfalso; vm_compute in D; discriminate).
  exists e. split; [reflexivity|].
  refine (proj1 (proj1 (field_variable_value sampleType (sliceOf sampleRecord) 0 0 e 3
            (mkEventField "common_pid" 4 4 true false "int" false)
            (wfSlice_sliceOf _) _ D eq_refl) _ _)).
  - intros f I. cbn in I.
    repeat (destruct I as [<-|I]; [vm_compute; repeat split; discriminate|]).
    destruct I.
  - cbn [ftype]. discriminate.
  - right; right; left; reflexivity.
Defined.

End EventFacts.

(** ** Facts about the kernel helper functions *)

Module KernelFacts.
Import Go Cparse CparseAccess Spec Ftrace Fixtures Strings Kernel SpecEvent.
Import CparseFacts FtraceFacts EventFacts.

Lemma getString_cases e a :
  wfSlice (econtents e) -> IsInt a = true ->
  let i := AsInt a in
  let offset := Z.land i 65535 in
  let length := Z.shiftr i 16 in
  (0 <= i -> offset < len (econtents e) -> offset + length <= len (econtents e) ->
   exists s, getString e [a] = Ret (NewValueString s) /\
             cutAtNul (string_of_list_byte (window (econtents e) offset length)) s) /\
  (i < 0 -> offset < len (econtents e) -> getString e [a] = Panic boundsPanic) /\
  (len (econtents e) <= offset \/ len (econtents e) < offset + length ->
   exists msg, getString e [a] = Ret (NewValueError msg)).
Proof.
  intros [W1 W2] I i offset length.
  assert (O : 0 <= offset) by (apply Z.land_nonneg; right; lia).
  unfold getString. rewrite I. cbn [negb]. fold i. fold offset. fold length.
  repeat split.
  - intros P A B.
    assert (0 <= length) by (apply Z.shiftr_nonneg; exact P).
    destruct (Z.gtb_spec offset (len (econtents e) - 1)); [lia|].
    destruct (Z.gtb_spec (offset + length) (len (econtents e))); [lia|].
    unfold reslice.
    destruct (Z.leb_spec 0 offset); [|lia].
    destruct (Z.leb_spec offset (offset + length)); [|lia].
    destruct (Z.leb_spec (offset + length) (cap (econtents e))); [|lia].
    cbn [andb bind].
    destruct (untilNul_cut (mkSlice (skipn (Z.to_nat offset) (arr (econtents e)))
                              (offset + length - offset))) as (s & Es & Cs).
    exists s. rewrite Es. cbn [bind]. split; [reflexivity|].
    unfold bytes in Cs. cbn [len arr] in Cs.
    replace (offset + length - offset) with length in Cs by lia. exact Cs.
  - intros N A.
    assert (length < 0) by (apply Z.shiftr_neg; exact N).
    destruct (Z.gtb_spec offset (len (econtents e) - 1)); [lia|].
    destruct (Z.gtb_spec (offset + length) (len (econtents e))); [lia|].
    unfold reslice.
    destruct (Z.leb_spec 0 offset); [|lia].
    destruct (Z.leb_spec offset (offset + length)); [lia|].
    reflexivity.
  - intros [A|A].
    + destruct (Z.gtb_spec offset (len (econtents e) - 1)); [|lia].
      eexists; reflexivity.
    + destruct (Z.gtb_spec offset (len (econtents e) - 1)); [eexists; reflexivity|].
      destruct (Z.gtb_spec (offset + length) (len (econtents e))); [|lia].
      eexists; reflexivity.
Qed.

(** X17: [__get_str] on an integer argument that packs an offset (low 16
    bits) and a length (the bits above).  When the argument is not negative
    and the window lies inside the record, the result is the string of the
    window's bytes up to the first NUL, so nothing outside the record is
    read; a window that does not fit is an error value; a negative argument
    whose offset is inside the record gives a negative length, which passes
    both checks and panics in the slice expression. *)
Theorem getString_reads_inside e a :
  wfSlice (econtents e) -> IsInt a = true ->
  let i := AsInt a in
  let offset := Z.land i 65535 in
  let length := Z.shiftr i 16 in
  (0 <= i -> offset < len (econtents e) -> offset + length <= len (econtents e) ->
   exists s, getString e [a] = Ret (NewValueString s) /\
             cutAtNul (string_of_list_byte (window (econtents e) offset length)) s) /\
  (i < 0 -> offset < len (econtents e) -> getString e [a] = Panic boundsPanic) /\
  (len (econtents e) <= offset \/ len (econtents e) < offset + length ->
   exists msg, getString e [a] = Ret (NewValueError msg)).
Proof. exact (getString_cases e a). Qed.

Lemma getString_reads_inside_witness :
  let e := mkEvent sampleType [] 0 0 0 0 0 (sliceOf sampleRecord) in
  getString e [NewValueInt (2 ^ 64 - 65536 + 4) 4 true] = Panic boundsPanic.
Proof.
  cbv zeta.
  refine (proj1 (proj2 (getString_reads_inside
            (mkEvent sampleType [] 0 0 0 0 0 (sliceOf sampleRecord))
            (NewValueInt (2 ^ 64 - 65536 + 4) 4 true) (wfSlice_sliceOf _) eq_refl)) _ _).
  - vm_compute. reflexivity.
  - vm_compute. reflexivity.
Defined.

(** *** [__print_flags] and [__print_symbolic] *)

Lemma app_string_assoc (a b c : string) : (a ++ b) ++ c = a ++ b ++ c.
Proof. induction a as [|x a IH]; cbn [append]; [reflexivity|rewrite IH; reflexivity]. Qed.

Lemma join_snoc d acc x : acc <> [] ->
  join d (acc ++ [x]) = join d acc ++ d ++ x.
Proof.
  induction acc as [|a r IH]; intros N; [contradiction|].
  destruct r as [|b r].
  - reflexivity.
  - change (join d ((a :: b :: r) ++ [x])) with (a ++ d ++ join d ((b :: r) ++ [x])).
    rewrite IH by discriminate.
    change (join d (a :: b :: r)) with (a ++ d ++ join d (b :: r)).
    rewrite !app_string_assoc. reflexivity.
Qed.

Lemma printFlagsLoop_names v d l :
  Forall isPair l ->
  forall acc first ret,
    (first = true -> acc = []) ->
    (first = false -> acc <> [] /\ ret = join d acc) ->
    (first = true -> ret = "") ->
    printFlagsLoop v d l first ret = NewValueString (join d (acc ++ flagNames v l)).
Proof.
  induction 1 as [|f r (Lf & l0 & l1 & Al & I0 & S1) _ IH]; intros acc first ret A B C.
  - cbn [printFlagsLoop flagNames filter map]. rewrite app_nil_r.
    destruct first.
    + rewrite (A eq_refl), (C eq_refl). reflexivity.
    + destruct (B eq_refl) as [_ ->]. reflexivity.
  - cbn [printFlagsLoop]. rewrite Lf, Al, I0, S1. cbn [negb].
    unfold flagNames. cbn [filter]. unfold pairKey at 1. rewrite Al.
    destruct (Z.land v (AsInt l0) =? 0); cbn [negb map].
    + apply IH; assumption.
    + unfold pairName at 1. rewrite Al.
      replace (acc ++ AsString l1 :: map pairName
                 (filter (fun f0 => negb (Z.land v (pairKey f0) =? 0)) r))%list
        with ((acc ++ [AsString l1]) ++ map pairName
                 (filter (fun f0 => negb (Z.land v (pairKey f0) =? 0)) r))%list
        by (rewrite <- app_assoc; reflexivity).
      destruct first.
      * rewrite (A eq_refl). apply (IH ([] ++ [AsString l1])%list false).
        -- discriminate.
        -- intros _. split; [discriminate|reflexivity].
        -- discriminate.
      * destruct (B eq_refl) as [N ->].
        apply (IH (acc ++ [AsString l1])%list false).
        -- discriminate.
        -- intros _. split; [destruct acc; discriminate|].
           symmetry. apply join_snoc. exact N.
        -- discriminate.
Qed.

(** X18: [__print_flags] with an integer, a delimiter and one or more
    well-formed pairs returns the names of the pairs whose mask has a bit
    in common with the integer, in the order of the pairs, joined by the
    delimiter. *)
Theorem printFlags_joins_names e a0 a1 p ps :
  IsInt a0 = true -> IsString a1 = true -> Forall isPair (p :: ps) ->
  printFlags e (a0 :: a1 :: p :: ps)
  = NewValueString (join (AsString a1) (flagNames (AsInt a0) (p :: ps))).
Proof.
  intros I S P. unfold printFlags. rewrite I, S. cbn [negb].
  apply (printFlagsLoop_names (AsInt a0) (AsString a1) (p :: ps) P [] true "");
    intros; try reflexivity; discriminate.
Qed.

Lemma printFlags_joins_names_witness :
  printFlags (mkEvent sampleType [] 0 0 0 0 0 (sliceOf []))
    [NewValueInt 5 4 true; NewValueString "|";
     NewValueList [NewValueInt 1 4 true; NewValueString "S"];
     NewValueList [NewValueInt 2 4 true; NewValueString "D"];
     NewValueList [NewValueInt 4 4 true; NewValueString "T"]]
  = NewValueString "S|T".
Proof.
  refine (printFlags_joins_names _ (NewValueInt 5 4 true) (NewValueString "|")
            (NewValueList [NewValueInt 1 4 true; NewValueString "S"])
            [NewValueList [NewValueInt 2 4 true; NewValueString "D"];
             NewValueList [NewValueInt 4 4 true; NewValueString "T"]]
            eq_refl eq_refl _).
  apply Forall_cons; [|apply Forall_cons; [|apply Forall_cons; [|apply Forall_nil]]];
    (split; [reflexivity|]; do 2 eexists; repeat split).
Defined.

Lemma printSymbolicLoop_first v pre f post :
  Forall isPair pre -> (forall g, In g pre -> pairKey g <> v) ->
  isPair f -> pairKey f = v ->
  printSymbolicLoop v (pre ++ f :: post) = NewValueString (pairName f).
Proof.
  intros P. induction P as [|g r (Lg & l0 & l1 & Al & I0 & S1) _ IH]; intros N F K.
  - destruct F as (Lf & l0 & l1 & Al & I0 & S1).
    cbn [app printSymbolicLoop]. rewrite Lf, Al, I0, S1. cbn [negb].
    unfold pairKey in K. rewrite Al in K. rewrite K, Z.eqb_refl.
    unfold pairName. rewrite Al. reflexivity.
  - cbn [app printSymbolicLoop]. rewrite Lg, Al, I0, S1. cbn [negb].
    assert (Ng := N g (or_introl eq_refl)). unfold pairKey in Ng. rewrite Al in Ng.
    destruct (Z.eqb_spec v (AsInt l0)); [congruence|].
    apply IH; [|exact F|exact K]. intros h I. apply N. right. exact I.
Qed.

Lemma printSymbolicLoop_none v l :
  Forall isPair l -> (forall g, In g l -> pairKey g <> v) ->
  printSymbolicLoop v l = NewValueString "".
Proof.
  intros P. induction P as [|g r (Lg & l0 & l1 & Al & I0 & S1) _ IH]; intros N.
  - reflexivity.
  - cbn [printSymbolicLoop]. rewrite Lg, Al, I0, S1. cbn [negb].
    assert (Ng := N g (or_introl eq_refl)). unfold pairKey in Ng. rewrite Al in Ng.
    destruct (Z.eqb_spec v (AsInt l0)); [congruence|].
    apply IH. intros h I. apply N. right. exact I.
Qed.

(** X19: [__print_symbolic] returns the name of the first pair whose key
    equals the integer, whatever follows that pair (the arguments after it
    are not looked at, so a malformed one is not reported), and the empty
    string when all pairs are well formed and none matches. *)
Theorem printSymbolic_first_match e a0 pre f post :
  IsInt a0 = true -> Forall isPair pre ->
  (forall g, In g pre -> pairKey g <> AsInt a0) ->
  (isPair f -> pairKey f = AsInt a0 ->
   printSymbolic e (a0 :: pre ++ f :: post) = NewValueString (pairName f)) /\
  (pre <> [] -> printSymbolic e (a0 :: pre) = NewValueString "").
Proof.
  intros I P N. split.
  - intros F K. unfold printSymbolic.
    assert (E : exists x xs, (pre ++ f :: post)%list = x :: xs)
      by (destruct pre; cbn [app]; eauto).
    destruct E as (x & xs & E). rewrite E, I. cbn [negb]. rewrite <- E.
    apply printSymbolicLoop_first; assumption.
  - intros Ne. unfold printSymbolic. destruct pre as [|x xs]; [contradiction|].
    rewrite I. cbn [negb]. apply printSymbolicLoop_none; assumption.
Qed.

Lemma printSymbolic_first_match_witness :
  printSymbolic (mkEvent sampleType [] 0 0 0 0 0 (sliceOf []))
    [NewValueInt 2 4 true;
     NewValueList [NewValueInt 1 4 true; NewValueString "one"];
     NewValueList [NewValueInt 2 4 true; NewValueString "two"];
     NewValueString "not a pair"]
  = NewValueString "two".
Proof.
  refine (proj1 (printSymbolic_first_match _ (NewValueInt 2 4 true)
            [NewValueList [NewValueInt 1 4 true; NewValueString "one"]]
            (NewValueList [NewValueInt 2 4 true; NewValueString "two"])
            [NewValueString "not a pair"] eq_refl _ _) _ eq_refl).
  - apply Forall_cons; [|apply Forall_nil].
    split; [reflexivity|]. do 2 eexists; repeat split.
  - intros g [<-|[]]. vm_compute. discriminate.
  - split; [reflexivity|]. do 2 eexists; repeat split.
Defined.

End KernelFacts.

(** ** More facts about the page decoder *)

Module PageFacts.
Import Go Cparse Spec Ftrace Fixtures Kernel SpecEvent.
Import CparseFacts FtraceFacts EventFacts.

Lemma DecodeEvent_event et data cpu when e :
  DecodeEvent et data cpu when = Ret (inl e) ->
  etype e = et /\ econtents e = data /\ Cpu e = cpu /\
  Ftrace.size et <= len data.
Proof.
  unfold DecodeEvent. destruct (Z.ltb_spec (len data) (Ftrace.size et)); [discriminate|].
  intros D.
  unbind D as vs E0. unbind D as pv E1. unbind D as pid E2. unbind D as fv E3.
  unbind D as flags E4. unbind D as qv E5. unbind D as preempt E6.
  injection D as <-. cbn [etype econtents Cpu]. auto.
Qed.

Lemma loopBody_events f cpu fullData pageLen pageOffset st r :
  loopBody f cpu fullData pageLen pageOffset st = Ret r ->
  match r with
  | Continue st' =>
      events st' = events st \/
      exists e, events st' = (events st ++ [e])%list /\ decodedFor f cpu e
  | Return evs _ => evs = events st
  end.
Proof.
  unfold loopBody. intros H.
  destruct (len (data st) <? 4); [injection H as <-; reflexivity|].
  unbind H as hdr Eh. unbind H as d0 E0.
  match type of H with
  | (if ?c then _ else _) = _ => destruct c
  end.
  - unbind H as r1 E1.
    destruct r1 as [[dataLen d1]|err]; [|injection H as <-; reflexivity].
    destruct ((len d1 <? dataLen) || (dataLen <? 2)); [injection H as <-; reflexivity|].
    unbind H as ed Ee. unbind H as d3 E3. unbind H as tid Et.
    destruct (eventTypes f tid) as [et|] eqn:T.
    + unbind H as dec Ed. destruct dec as [e|err]; injection H as <-; cbn [events].
      * right. exists e. split; [reflexivity|].
        destruct (DecodeEvent_event _ _ _ _ _ Ed) as (A & B & C & D).
        unfold decodedFor. split; [exact C|]. exists tid.
        rewrite A, B. auto.
      * left; reflexivity.
    + injection H as <-. left; reflexivity.
  - match type of H with
    | (if ?c then _ else _) = _ => destruct c
    end.
    + destruct (_ =? 0); [injection H as <-; reflexivity|].
      destruct (len d0 <? 4); [injection H as <-; reflexivity|].
      unbind H as pad Ep. unbind H as d2 E2. injection H as <-. left; reflexivity.
    + match type of H with
      | (if ?c then _ else _) = _ => destruct c
      end.
      * destruct (len d0 <? 4); [injection H as <-; reflexivity|].
        unbind H as ext Ex. unbind H as d2 E2. injection H as <-. left; reflexivity.
      * injection H as <-. left; reflexivity.
Qed.

Lemma dataLoop_events fuel f cpu fullData pageLen pageOffset st evs err :
  dataLoop fuel f cpu fullData pageLen pageOffset st = Some (Ret (evs, err)) ->
  exists more, evs = (events st ++ more)%list /\ Forall (decodedFor f cpu) more.
Proof.
  revert st. induction fuel as [|fuel IH]; intros st; cbn [dataLoop].
  - destruct (len (data st) >? 0); [discriminate|]. intros [= <- _].
    exists []. rewrite app_nil_r. auto.
  - destruct (len (data st) >? 0).
    + destruct (loopBody f cpu fullData pageLen pageOffset st) as [[st'|evs' err']|msg] eqn:B;
        [| |discriminate].
      * intros D. destruct (IH st' D) as (more & -> & F).
        destruct (loopBody_events _ _ _ _ _ _ _ B) as [E|(e & E & P)]; rewrite E.
        -- exists more. auto.
        -- exists (e :: more). rewrite <- app_assoc. auto.
      * intros [= <- _]. rewrite (loopBody_events _ _ _ _ _ _ _ B).
        exists []. rewrite app_nil_r. auto.
    + intros [= <- _]. exists []. rewrite app_nil_r. auto.
Qed.

(** X20: every event [decodePage] returns, also beside an error, carries
    the CPU it was asked for, has a type that is registered under the id in
    the first two bytes of the event's record, and keeps a record at least
    as long as that type's size. *)
Theorem decodePage_events_registered f cpu page evs err :
  decodePage f cpu page = Some (Ret (evs, err)) ->
  Forall (decodedFor f cpu) evs.
Proof.
  unfold decodePage.
  destruct (pagePrologue f page) as [[[[w pageLen] pageOffset]|e]|msg];
    [| intros [= <- _]; constructor | discriminate].
  destruct ((pageLen <? 0) || (len page <? pageOffset + pageLen));
    [intros [= <- _]; constructor|].
  destruct (reslice page 0 (pageOffset + pageLen)) as [fullData|]; [|discriminate].
  destruct (reslice page pageOffset (pageOffset + pageLen)) as [d|]; [|discriminate].
  intros D. apply dataLoop_events in D. destruct D as (more & -> & F). exact F.
Qed.

Lemma decodePage_events_registered_witness :
  exists evs err, decodePage sampleFtrace 0 extendPage = Some (Ret (evs, err)) /\
                  List.length evs = 1%nat /\
                  Forall (decodedFor sampleFtrace 0) evs.
Proof.
  destruct (decodePage sampleFtrace 0 extendPage) as [[[evs err]|msg]|] eqn:D;
    try (exfalso; vm_compute in D; discriminate).
  exists evs, err. split; [reflexivity|]. split.
  - vm_compute in D. injection D as <- _. reflexivity.
  - exact (decodePage_events_registered sampleFtrace 0 extendPage evs err D).
Defined.

Lemma body_unknown_type f cpu fullData pageLen pageOffset whn evs lz
      record rest n tl d :
  1 <= tl <= 28 -> 0 <= d < 2 ^ 27 ->
  Z.of_nat (List.length record) = tl * 4 ->
  4 + tl * 4 <= n <= 4 + tl * 4 + Z.of_nat (List.length rest) ->
  eventTypes f (le (firstn 2 record)) = None ->
  loopBody f cpu fullData pageLen pageOffset
    (mkLoopState whn (mkSlice (entryWord tl d ++ record ++ rest) n) evs lz)
  = Ret (Continue (mkLoopState (u64 (whn + d)) (mkSlice rest (n - 4 - tl * 4))
                     evs (Some (unknownTypeID (le (firstn 2 record)))))).
Proof.
  intros Htl Hd Hrec Hn Het.
  unfold loopBody; cbn [data len when events lazyErr].
  replace (n <? 4) with false by (symmetry; apply Z.ltb_ge; lia).
  unfold entryWord.
  rewrite Uint32_word by (try apply entryWord_range; lia). cbn [bind].
  rewrite resliceFrom_word by (rewrite length_app; lia). cbn [bind].
  destruct (entry_fields tl d ltac:(lia) ltac:(lia)) as [-> ->].
  unfold entryTypeDataMax.
  replace (tl <=? 28) with true by (symmetry; apply Z.leb_le; lia).
  replace (tl =? 0) with false by (symmetry; apply Z.eqb_neq; lia).
  cbn [bind len].
  replace (n - 4 <? tl * 4) with false by (symmetry; apply Z.ltb_ge; lia).
  replace (tl * 4 <? 2) with false by (symmetry; apply Z.ltb_ge; lia).
  cbn [orb].
  unfold resliceTo, reslice, cap. cbn [arr len].
  replace (tl * 4 <=? Z.of_nat (List.length (record ++ rest))) with true
    by (symmetry; apply Z.leb_le; rewrite length_app; lia).
  replace (0 <=? tl * 4) with true by (symmetry; apply Z.leb_le; lia).
  cbn [Z.leb Z.compare andb bind Z.to_nat skipn].
  rewrite Z.sub_0_r.
  rewrite ldiff_round by lia.
  rewrite resliceFrom_drop by lia. cbn [bind].
  unfold Uint16, orderUint. cbn [len arr].
  replace (tl * 4 <? 2) with false by (symmetry; apply Z.ltb_ge; lia).
  change (Z.to_nat 2) with 2%nat. rewrite firstn_short by lia. cbn [bind].
  rewrite Het. reflexivity.
Qed.

(** X21: a data entry whose type id is not registered does not stop the
    page.  The entry is skipped: its time delta is added to the time stamp,
    the events decoded so far are kept, decoding goes on behind the record,
    and the error, which replaces any error noted before, is only returned
    when the page has been read to its end. *)
Theorem unknown_type_is_skipped f cpu fullData pageLen pageOffset whn evs lz
      record rest n tl d :
  1 <= tl <= 28 -> 0 <= d < 2 ^ 27 ->
  Z.of_nat (List.length record) = tl * 4 ->
  4 + tl * 4 <= n <= 4 + tl * 4 + Z.of_nat (List.length rest) ->
  eventTypes f (le (firstn 2 record)) = None ->
  let st := mkLoopState whn (mkSlice (entryWord tl d ++ record ++ rest) n) evs lz in
  let st' := mkLoopState (u64 (whn + d)) (mkSlice rest (n - 4 - tl * 4)) evs
               (Some (unknownTypeID (le (firstn 2 record)))) in
  (forall fuel,
     dataLoop (S fuel) f cpu fullData pageLen pageOffset st
     = dataLoop fuel f cpu fullData pageLen pageOffset st') /\
  (n = 4 + tl * 4 ->
   forall fuel,
     dataLoop (S fuel) f cpu fullData pageLen pageOffset st
     = Some (Ret (evs, Some (unknownTypeID (le (firstn 2 record)))))).
Proof.
  intros Htl Hd Hrec Hn Het st st'.
  assert (B := body_unknown_type f cpu fullData pageLen pageOffset whn evs lz
                 record rest n tl d Htl Hd Hrec Hn Het).
  assert (S1 : forall fuel,
             dataLoop (S fuel) f cpu fullData pageLen pageOffset st
             = dataLoop fuel f cpu fullData pageLen pageOffset st').
  { intros fuel. apply dataLoop_step; [cbn [st data len]; lia|exact B]. }
  split; [exact S1|].
  intros E fuel. rewrite S1. rewrite dataLoop_exit by (cbn [st' data len]; lia).
  reflexivity.
Qed.

Lemma unknown_type_is_skipped_witness :
  dataLoop 1 sampleFtrace 0 (sliceOf []) 12 16
    (mkLoopState 1000 (mkSlice (entryWord 2 5 ++ leBytes 8 9 ++ []) 12) []
       (Some BadPageHeader))
  = Some (Ret ([], Some (unknownTypeID 9))).
Proof.
  refine (proj2 (unknown_type_is_skipped sampleFtrace 0 (sliceOf []) 12 16 1000 []
                   (Some BadPageHeader) (leBytes 8 9) [] 12 2 5 _ _ _ _ _) _ 0%nat).
  - lia.
  - vm_compute. split; [discriminate|reflexivity].
  - reflexivity.
  - cbn. lia.
  - reflexivity.
  - reflexivity.
Defined.

End PageFacts.

(** ** Facts about the methods of events and the registry *)

Module MethodFacts.
Import Go Cparse Spec Ftrace Fixtures Kernel SpecEvent.
Import CparseFacts FtraceFacts EventFacts.

Lemma int64_small x : - 2 ^ 63 <= x < 2 ^ 63 -> int64 x = x.
Proof.
  intros R. rewrite <- (int64_u64 x R) at 2. unfold int64, u64.
  rewrite Z.mod_mod by lia. reflexivity.
Qed.

Lemma int64_wraps x : 2 ^ 63 <= x < 2 ^ 64 -> int64 x = x - 2 ^ 64.
Proof.
  intros R. unfold int64, u64. rewrite Z.mod_small by lia.
  destruct (Z.ltb_spec x (2 ^ 63)); [lia|reflexivity].
Qed.

Lemma whenInMicroseconds_rounds e : 0 <= When e < 2 ^ 63 - 500 ->
  whenInMicroseconds e = (When e + 500) / 1000.
Proof.
  intros R. unfold whenInMicroseconds. change (Z.quot 1000 2) with 500.
  rewrite Z.mul_1_r.
  rewrite (int64_small (When e)) by lia. rewrite (int64_small (When e)) by lia.
  rewrite (int64_small (When e + 500)) by lia.
  rewrite Z.quot_div_nonneg by lia.
  apply int64_small.
  assert (0 <= (When e + 500) / 1000) by (apply Z.div_pos; lia).
  assert ((When e + 500) / 1000 <= When e + 500) by (apply Z.div_le_upper_bound; lia).
  lia.
Qed.

(** X22: the time of an event in seconds and microseconds.  For a time
    stamp below 2^63 - 500 nanoseconds, [whenInMicroseconds] is the time
    stamp rounded to the nearest microsecond, halves up; [Seconds] and
    [Microseconds] split it, with the microseconds in [0, 10^6).  From
    2^63 - 500 on the sum or the conversion to a signed duration wraps and
    the time is reported as zero or negative. *)
Theorem seconds_and_microseconds e :
  (0 <= When e < 2 ^ 63 - 500 ->
   let us := whenInMicroseconds e in
   us = (When e + 500) / 1000 /\
   1000 * us - 500 <= When e < 1000 * us + 500 /\
   Seconds e * 1000000 + Microseconds e = us /\
   0 <= Seconds e /\ 0 <= Microseconds e < 1000000) /\
  (2 ^ 63 - 500 <= When e < 2 ^ 64 -> whenInMicroseconds e <= 0).
Proof.
  split.
  - intros R us. pose proof (whenInMicroseconds_rounds e R) as E. fold us in E.
    assert (P : 0 <= us) by (rewrite E; apply Z.div_pos; lia).
    pose proof (Z.div_mod (When e + 500) 1000 ltac:(lia)) as DM.
    pose proof (Z.mod_pos_bound (When e + 500) 1000 ltac:(lia)) as MB.
    rewrite <- E in DM.
    unfold Seconds, Microseconds. fold us.
    rewrite Z.quot_div_nonneg, Z.rem_mod_nonneg by lia.
    pose proof (Z.div_mod us 1000000 ltac:(lia)) as DM2.
    pose proof (Z.mod_pos_bound us 1000000 ltac:(lia)) as MB2.
    assert (0 <= us / 1000000) by (apply Z.div_pos; lia).
    repeat split; lia.
  - intros R. unfold whenInMicroseconds. change (Z.quot 1000 2) with 500.
    rewrite Z.mul_1_r.
    assert (Q : forall y, - 2 ^ 63 <= y < 500 -> int64 (Z.quot y 1000) <= 0).
    { intros y Y. destruct (Z.le_gt_cases 0 y).
      - rewrite Z.quot_small by lia. vm_compute. discriminate.
      - assert (Z.quot y 1000 <= 0).
        { rewrite <- (Z.opp_involutive y), Z.quot_opp_l by lia.
          assert (0 <= Z.quot (- y) 1000) by (apply Z.quot_pos; lia). lia. }
        assert (- 2 ^ 63 <= Z.quot y 1000).
        { rewrite <- (Z.opp_involutive y), Z.quot_opp_l by lia.
          assert (Z.quot (- y) 1000 <= - y).
          { rewrite Z.quot_div_nonneg by lia. apply Z.div_le_upper_bound; lia. }
          lia. }
        rewrite int64_small by lia. lia. }
    apply Q.
    destruct (Z.lt_ge_cases (When e) (2 ^ 63)).
    + rewrite (int64_small (When e)) by lia. rewrite (int64_small (When e)) by lia.
      rewrite (int64_wraps (When e + 500)) by lia. lia.
    + rewrite (int64_wraps (When e)) by lia.
      rewrite (int64_small (When e - 2 ^ 64)) by lia.
      destruct (Z.lt_ge_cases (When e - 2 ^ 64 + 500) (2 ^ 63)).
      * rewrite int64_small by lia. lia.
      * lia.
Qed.

Lemma seconds_and_microseconds_witness :
  let e := mkEvent sampleType [] 0 1999999500 0 0 0 (sliceOf []) in
  Seconds e = 2 /\ Microseconds e = 0.
Proof.
  cbv zeta.
  pose proof (proj1 (seconds_and_microseconds
                       (mkEvent sampleType [] 0 1999999500 0 0 0 (sliceOf [])))) as H.
  cbv zeta in H. destruct H as (_ & _ & _ & _ & _).
  - vm_compute. split; [discriminate|reflexivity].
  - split; reflexivity.
Defined.

(** *** Ordering events *)

Lemma Less_value evs i j a b : eventAt evs i = Ret a -> eventAt evs j = Ret b ->
  Less evs i j = Ret (if When a =? When b then Cpu a <? Cpu b else When a <? When b).
Proof.
  intros A B. unfold Less. rewrite A, B. cbn [bind].
  destruct (When a =? When b); reflexivity.
Qed.

(** X23: [EventsByTime.Less] on valid indices is a strict weak ordering, the
    lexicographic order on time stamp and CPU: irreflexive, asymmetric and
    transitive, and two events neither of which is below the other have
    the same time stamp and CPU. *)
Theorem Less_is_strict_weak_order evs i j k a b c :
  eventAt evs i = Ret a -> eventAt evs j = Ret b -> eventAt evs k = Ret c ->
  Less evs i i = Ret false /\
  (Less evs i j = Ret true -> Less evs j i = Ret false) /\
  (Less evs i j = Ret true -> Less evs j k = Ret true -> Less evs i k = Ret true) /\
  (Less evs i j = Ret false -> Less evs j i = Ret false ->
   When a = When b /\ Cpu a = Cpu b).
Proof.
  intros A B C.
  rewrite (Less_value evs i i a a A A), (Less_value evs i j a b A B),
    (Less_value evs j i b a B A), (Less_value evs j k b c B C),
    (Less_value evs i k a c A C).
  split; [|split; [|split]].
  - rewrite Z.eqb_refl, Z.ltb_irrefl. reflexivity.
  - intros [= H]. f_equal.
    destruct (Z.eqb_spec (When a) (When b)); destruct (Z.eqb_spec (When b) (When a));
      try lia; apply Z.ltb_lt in H; apply Z.ltb_ge; lia.
  - intros [= H1] [= H2]. f_equal.
    destruct (Z.eqb_spec (When a) (When b)); destruct (Z.eqb_spec (When b) (When c));
      destruct (Z.eqb_spec (When a) (When c));
      apply Z.ltb_lt in H1; apply Z.ltb_lt in H2; try lia; apply Z.ltb_lt; lia.
  - destruct (Z.eqb_spec (When a) (When b)); destruct (Z.eqb_spec (When b) (When a));
      intros [= H1] [= H2]; apply Z.ltb_ge in H1; apply Z.ltb_ge in H2; lia.
Qed.

Lemma Less_is_strict_weak_order_witness :
  let a := mkEvent sampleType [] 1 10 0 0 0 (sliceOf []) in
  let b := mkEvent sampleType [] 0 10 0 0 0 (sliceOf []) in
  Less [a; b] 0 0 = Ret false.
Proof.
  cbv zeta.
  exact (proj1 (Less_is_strict_weak_order
                  [mkEvent sampleType [] 1 10 0 0 0 (sliceOf []);
                   mkEvent sampleType [] 0 10 0 0 0 (sliceOf [])] 0 1 0 _ _ _
                  eq_refl eq_refl eq_refl)).
Defined.

End MethodFacts.

(** ** Facts about the printf conversions *)

Module CprintfFacts.
Import Go Cparse CparseFold Spec Ftrace Strings Cprintf SpecEvent.
Import CparseFacts FtraceFacts.

Lemma IndexByte_ge s c : -1 <= IndexByte s c.
Proof.
  induction s as [|a r IH]; cbn [IndexByte]; [lia|].
  destruct (Ascii.eqb a c); [lia|]. destruct (IndexByte r c =? -1); lia.
Qed.

Lemma IndexAny_ge s chars : -1 <= IndexAny s chars.
Proof.
  induction s as [|a r IH]; cbn [IndexAny]; [lia|].
  destruct (negb (IndexByte chars a =? -1)); [lia|].
  destruct (IndexAny r chars =? -1); lia.
Qed.

Lemma IndexAny_app a b chars :
  IndexAny a chars = -1 -> IndexAny b chars = -1 -> IndexAny (a ++ b) chars = -1.
Proof.
  intros A B. induction a as [|x a IH]; cbn [append IndexAny] in *; [exact B|].
  destruct (negb (IndexByte chars x =? -1)); [discriminate|].
  destruct (Z.eqb_spec (IndexAny a chars) (-1)) as [E|E];
    [|pose proof (IndexAny_ge a chars); lia].
  rewrite (IH E). reflexivity.
Qed.

Lemma runeString_untrimmed m :
  IndexByte trimmedConversionModfiers m = -1 ->
  IndexAny (runeString m) trimmedConversionModfiers = -1.
Proof.
  destruct m as [[] [] [] [] [] [] [] []]; vm_compute; intros H;
    first [reflexivity | discriminate H].
Qed.

Lemma trimModifiers_trimmed m acc :
  IndexAny acc trimmedConversionModfiers = -1 ->
  IndexAny (trimModifiers m acc) trimmedConversionModfiers = -1.
Proof.
  revert acc. induction m as [|x m IH]; intros acc A; cbn [trimModifiers]; [exact A|].
  apply IH. destruct (Z.eqb_spec (IndexByte trimmedConversionModfiers x) (-1)) as [E|E].
  - apply IndexAny_app; [exact A|]. apply runeString_untrimmed. exact E.
  - exact A.
Qed.

Lemma castSize_valid m : validSize (castSize m).
Proof.
  unfold castSize, validSize.
  repeat match goal with |- context [if ?c then _ else _] => destruct c end; lia.
Qed.

(** *** Slicing strings *)

Lemma length_drop n s : String.length (drop n s) = (String.length s - n)%nat.
Proof.
  revert s. induction n as [|n IH]; intros s; destruct s as [|a r];
    cbn [drop String.length]; try lia. apply IH.
Qed.

Lemma take_all n s : (String.length s <= n)%nat -> take n s = s.
Proof.
  revert s. induction n as [|n IH]; intros s L; destruct s as [|a r];
    cbn [take String.length] in *; try reflexivity; try lia.
  rewrite IH by lia. reflexivity.
Qed.

Lemma strFrom_drop s k : (k <= String.length s)%nat ->
  strFrom s (Z.of_nat k) = Ret (drop k s).
Proof.
  intros L. unfold strFrom, strSlice, strlen.
  destruct (Z.leb_spec 0 (Z.of_nat k)); [|lia].
  destruct (Z.leb_spec (Z.of_nat k) (Z.of_nat (String.length s))); [|lia].
  rewrite Z.leb_refl. cbn [andb]. rewrite Nat2Z.id, take_all; [reflexivity|].
  rewrite length_drop. lia.
Qed.

Lemma strFrom_inv s lo s' : strFrom s lo = Ret s' ->
  0 <= lo /\ s' = drop (Z.to_nat lo) s.
Proof.
  unfold strFrom, strSlice, strlen.
  destruct (Z.leb_spec 0 lo); cbn [andb]; [|discriminate].
  destruct (Z.leb_spec lo (Z.of_nat (String.length s))); cbn [andb]; [|discriminate].
  rewrite Z.leb_refl. intros [= <-]. split; [assumption|].
  apply take_all. rewrite length_drop. lia.
Qed.

Lemma countByte_drop c n s : (countByte c (drop n s) <= countByte c s)%nat.
Proof.
  revert s. induction n as [|n IH]; intros s; destruct s as [|a r];
    cbn [drop countByte]; try lia.
  specialize (IH r). destruct (Ascii.eqb a c); lia.
Qed.

Lemma countByte_after_index c s :
  IndexByte s c <> -1 ->
  (countByte c (drop (Z.to_nat (IndexByte s c + 1)) s) < countByte c s)%nat.
Proof.
  induction s as [|a r IH]; cbn [IndexByte countByte]; [intros N; contradiction|].
  destruct (Ascii.eqb a c).
  - intros _. change (Z.to_nat (0 + 1)) with 1%nat. cbn [drop]. lia.
  - destruct (Z.eqb_spec (IndexByte r c) (-1)) as [E|E]; [intros N; contradiction|].
    intros _. pose proof (IndexByte_ge r c).
    replace (Z.to_nat (IndexByte r c + 1 + 1)) with (S (Z.to_nat (IndexByte r c + 1))) by lia.
    cbn [drop]. apply IH. exact E.
Qed.

Lemma countByte_app c a b : countByte c (a ++ b) = (countByte c a + countByte c b)%nat.
Proof.
  induction a as [|x a IH]; cbn [append countByte]; [reflexivity|].
  destruct (Ascii.eqb x c); lia.
Qed.

Lemma append_assoc' (a b c : string) : (a ++ b) ++ c = a ++ b ++ c.
Proof. induction a as [|x a IH]; cbn [append]; [reflexivity|rewrite IH; reflexivity]. Qed.

Lemma length_append a b : String.length (a ++ b) = (String.length a + String.length b)%nat.
Proof. induction a as [|x a IH]; cbn [append String.length]; [reflexivity|rewrite IH; reflexivity]. Qed.

Lemma drop_app a b : drop (String.length a) (a ++ b) = b.
Proof. induction a as [|x a IH]; cbn [append String.length drop]; [destruct b; reflexivity|exact IH]. Qed.

Lemma take_app a b : take (String.length a) (a ++ b) = a.
Proof.
  induction a as [|x a IH]; cbn [append String.length take]; [destruct b; reflexivity|].
  rewrite IH. reflexivity.
Qed.

Lemma strSlice_prefix a b : strSlice (a ++ b) 0 (strlen a) = Ret a.
Proof.
  unfold strSlice, strlen. rewrite length_append.
  destruct (Z.leb_spec 0 (Z.of_nat (String.length a))); [|lia].
  destruct (Z.leb_spec (Z.of_nat (String.length a))
              (Z.of_nat (String.length a + String.length b))); [|lia].
  cbn [Z.leb andb Z.to_nat drop]. rewrite Z.sub_0_r, Nat2Z.id, take_app. reflexivity.
Qed.

Lemma strFrom_app a b : strFrom (a ++ b) (strlen a) = Ret b.
Proof.
  unfold strlen. rewrite strFrom_drop by (rewrite length_append; lia).
  rewrite drop_app. reflexivity.
Qed.

Lemma strIndex_app a c r : strIndex (a ++ String c r) (strlen a) = Ret c.
Proof.
  unfold strIndex, strlen. rewrite length_append. cbn [String.length].
  destruct (Z.leb_spec 0 (Z.of_nat (String.length a))); [|lia].
  destruct (Z.ltb_spec (Z.of_nat (String.length a))
              (Z.of_nat (String.length a + S (String.length r)))); [|lia].
  cbn [andb]. rewrite Nat2Z.id.
  induction a as [|x a IH]; cbn [append String.length String.get]; [reflexivity|].
  apply IH; lia.
Qed.

Lemma IndexByte_app_found pre c rest :
  IndexByte pre c = -1 -> IndexByte (pre ++ String c rest) c = strlen pre.
Proof.
  unfold strlen. induction pre as [|x pre IH]; cbn [append IndexByte String.length];
    intros A.
  - rewrite Ascii.eqb_refl. reflexivity.
  - destruct (Ascii.eqb x c); [discriminate|].
    destruct (Z.eqb_spec (IndexByte pre c) (-1)) as [E|E];
      [|pose proof (IndexByte_ge pre c); lia].
    rewrite (IH E).
    destruct (Z.eqb_spec (Z.of_nat (String.length pre)) (-1)); lia.
Qed.

Lemma IndexAny_app_found mods chars c rest :
  IndexAny mods chars = -1 -> IndexByte chars c <> -1 ->
  IndexAny (mods ++ String c rest) chars = strlen mods.
Proof.
  unfold strlen. intros A C.
  induction mods as [|x mods IH]; cbn [append IndexAny String.length] in *.
  - destruct (Z.eqb_spec (IndexByte chars c) (-1)); [contradiction|]. reflexivity.
  - destruct (negb (IndexByte chars x =? -1)); [discriminate|].
    destruct (Z.eqb_spec (IndexAny mods chars) (-1)) as [E|E];
      [|pose proof (IndexAny_ge mods chars); lia].
    rewrite (IH E).
    destruct (Z.eqb_spec (Z.of_nat (String.length mods)) (-1)); lia.
Qed.

(** The callback of package ftrace adds no [%] to the suffix. *)
Lemma mungePrintfConversions_suffix c :
  (countByte "%" (Suffix (mungePrintfConversions c)) <= countByte "%" (Suffix c))%nat.
Proof.
  unfold mungePrintfConversions. destruct (Suffix c) as [|pm rest] eqn:S; [rewrite S; lia|].
  destruct (Ascii.eqb (conversion c) "p" &&
            (Ascii.eqb pm "f" || Ascii.eqb pm "F" || Ascii.eqb pm "K")) eqn:P;
    [|rewrite S; lia].
  apply andb_prop in P. destruct P as [_ P].
  assert (Hpm : countByte "%" (String pm rest) = countByte "%" rest).
  { cbn [countByte].
    destruct (Ascii.eqb_spec pm "f") as [->|]; [reflexivity|].
    destruct (Ascii.eqb_spec pm "F") as [->|]; [reflexivity|].
    destruct (Ascii.eqb_spec pm "K") as [->|]; [reflexivity|discriminate P]. }
  destruct (kernelFunctions _); cbn [Suffix].
  - rewrite Hpm. lia.
  - rewrite !countByte_app. rewrite Hpm.
    assert (countByte "%" (byteString pm) = 0)%nat.
    { unfold byteString. cbn [countByte].
      destruct (Ascii.eqb_spec pm "f") as [->|]; [reflexivity|].
      destruct (Ascii.eqb_spec pm "F") as [->|]; [reflexivity|].
      destruct (Ascii.eqb_spec pm "K") as [->|]; [reflexivity|discriminate P]. }
    change (countByte "%" "FAILED POINTER MODIFIER ") with 0%nat.
    change (countByte "%" " ") with 0%nat. lia.
Qed.

Section Munging.
Context {EvalContext : Type}.
Context (VG : variable -> EvalContext -> outcome Value).
Context (FG : function -> EvalContext -> list Value -> outcome Value).
Context (nilCtx : EvalContext).

Lemma CastExpression_total (val : Expression) sz sg :
  exists e', CastExpression VG FG nilCtx val sz sg = Ret e' /\
             forall ctx, Expression_Value VG FG e' ctx
                         = Expression_Value VG FG
                             (castExpression (mkIntType sz sg) (Some val)) ctx.
Proof.
  unfold CastExpression, newCastExpression, toConstant.
  destruct val; cbn [IsConstant]; try (eexists; split; [reflexivity|reflexivity]).
  cbn [Expression_Value bind].
  destruct (negb (IsInt val)); cbn [bind]; (eexists; split; [reflexivity|]);
    intros ctx; reflexivity.
Qed.

Lemma cast_of_int (e : Expression) ty ctx v :
  Expression_Value VG FG e ctx = Ret v -> IsInt v = true ->
  Expression_Value VG FG (castExpression ty (Some e)) ctx = Ret (newValueIntCast v ty).
Proof. intros E I. cbn [Expression_Value]. rewrite E. cbn [bind]. rewrite I. reflexivity. Qed.

Lemma munge_shape c :
  exists c', munge VG FG nilCtx c = Ret c' /\
             Suffix c' = Suffix c /\
             conversion c' = mungedConversion c /\
             IndexAny (Modifiers c') trimmedConversionModfiers = -1.
Proof.
  unfold munge, mungedConversion. destruct c as [cv md sf ar].
  cbn [conversion Modifiers Suffix Arg].
  destruct (CastExpression_total ar (castSize md)
              (if negb (Ascii.eqb cv "d") then false else true)) as (e1 & E1 & _).
  destruct (CastExpression_total ar (castSize md) true) as (e2 & E2 & _).
  destruct (CastExpression_total ar (castSize md) false) as (e3 & E3 & _).
  destruct (CastExpression_total ar 8 false) as (e4 & E4 & _).
  assert (T : forall m, IndexAny (trimModifiers m "") trimmedConversionModfiers = -1)
    by (intros m; apply trimModifiers_trimmed; reflexivity).
  destruct (Ascii.eqb_spec cv "i") as [->|Ni];
    cbn [conversion Modifiers Suffix Arg];
    [|destruct (Ascii.eqb_spec cv "u") as [->|Nu]];
    cbn [conversion Modifiers Suffix Arg isIntegerConversion Ascii.eqb Bool.eqb
         orb andb negb].
  - rewrite E2. cbn [bind conversion Modifiers Suffix Arg Ascii.eqb Bool.eqb andb].
    eexists. split; [reflexivity|]. cbn [conversion Modifiers Suffix]. auto.
  - rewrite E3. cbn [bind conversion Modifiers Suffix Arg Ascii.eqb Bool.eqb andb].
    eexists. split; [reflexivity|]. cbn [conversion Modifiers Suffix]. auto.
  - fold (isIntegerConversion cv).
    destruct (isIntegerConversion cv) eqn:I.
    + rewrite E1. cbn [bind conversion Modifiers Suffix Arg].
      assert (P : Ascii.eqb cv "p" = false).
      { unfold isIntegerConversion in I.
        destruct (Ascii.eqb_spec cv "p") as [->|]; [discriminate I|reflexivity]. }
      rewrite P. cbn [andb bind conversion Modifiers Suffix Arg].
      eexists. split; [reflexivity|]. cbn [conversion Modifiers Suffix]. auto.
    + cbn [bind conversion Modifiers Suffix Arg].
      destruct (Ascii.eqb cv "p" && String.eqb md "").
      * rewrite E4. cbn [bind conversion Modifiers Suffix Arg].
        eexists. split; [reflexivity|]. cbn [conversion Modifiers Suffix]. auto.
      * cbn [bind conversion Modifiers Suffix Arg].
        eexists. split; [reflexivity|]. cbn [conversion Modifiers Suffix]. auto.
Qed.

(** X24: [munge] never fails.  It leaves the suffix alone, turns the
    conversions [i] and [u] into [d] and a [p] without modifiers into [x],
    and removes the length modifiers: no [h], [l], [L] or [z] is left in
    the modifiers it returns. *)
Theorem munge_trims_length_modifiers c :
  exists c', munge VG FG nilCtx c = Ret c' /\
             Suffix c' = Suffix c /\
             conversion c' = mungedConversion c /\
             IndexAny (Modifiers c') trimmedConversionModfiers = -1.
Proof. exact (munge_shape c). Qed.

Lemma munge_integer_arg c ctx v :
  Expression_Value VG FG (Arg c) ctx = Ret v -> IsInt v = true ->
  (isIntegerConversion (conversion c) || Ascii.eqb (conversion c) "i") = true ->
  let ty := mkIntType (castSize (Modifiers c))
              (Ascii.eqb (conversion c) "d" || Ascii.eqb (conversion c) "i") in
  exists c', munge VG FG nilCtx c = Ret c' /\
             Expression_Value VG FG (Arg c') ctx = Ret (newValueIntCast v ty).
Proof.
  intros Ev Iv. unfold munge. destruct c as [cv md sf ar].
  cbn [conversion Modifiers Suffix Arg] in *.
  destruct (CastExpression_total ar (castSize md)
              (if negb (Ascii.eqb cv "d") then false else true)) as (e1 & E1 & V1).
  destruct (CastExpression_total ar (castSize md) true) as (e2 & E2 & V2).
  destruct (CastExpression_total ar (castSize md) false) as (e3 & E3 & V3).
  destruct (Ascii.eqb_spec cv "i") as [->|Ni];
    cbn [conversion Modifiers Suffix Arg];
    [|destruct (Ascii.eqb_spec cv "u") as [->|Nu]];
    cbn [conversion Modifiers Suffix Arg isIntegerConversion Ascii.eqb Bool.eqb
         orb andb negb]; intros I.
  - rewrite E2. cbn [bind conversion Modifiers Suffix Arg Ascii.eqb Bool.eqb andb].
    eexists. split; [reflexivity|]. cbn [Arg]. rewrite V2.
    apply cast_of_int; assumption.
  - rewrite E3. cbn [bind conversion Modifiers Suffix Arg Ascii.eqb Bool.eqb andb].
    eexists. split; [reflexivity|]. cbn [Arg]. rewrite V3.
    apply cast_of_int; assumption.
  - rewrite orb_false_r in I. fold (isIntegerConversion cv) in I |- *.
    rewrite I, E1. cbn [bind conversion Modifiers Suffix Arg].
    assert (P : Ascii.eqb cv "p" = false).
    { unfold isIntegerConversion in I.
      destruct (Ascii.eqb_spec cv "p") as [->|]; [discriminate I|reflexivity]. }
    rewrite P. cbn [andb bind conversion Modifiers Suffix Arg].
    eexists. split; [reflexivity|]. cbn [Arg]. rewrite V1.
    rewrite orb_false_r.
    replace (if negb (Ascii.eqb cv "d") then false else true) with (Ascii.eqb cv "d")
      by (destruct (Ascii.eqb cv "d"); reflexivity).
    apply cast_of_int; assumption.
Qed.

Lemma munge_pointer_arg c ctx v :
  Expression_Value VG FG (Arg c) ctx = Ret v -> IsInt v = true ->
  conversion c = "p"%char -> Modifiers c = "" ->
  exists c', munge VG FG nilCtx c = Ret c' /\
             conversion c' = "x"%char /\ Modifiers c' = "016" /\
             Expression_Value VG FG (Arg c') ctx
             = Ret (newValueIntCast v (mkIntType 8 false)).
Proof.
  intros Ev Iv. unfold munge. destruct c as [cv md sf ar].
  cbn [conversion Modifiers Suffix Arg] in *. intros -> ->.
  destruct (CastExpression_total ar 8 false) as (e4 & E4 & V4).
  cbn [conversion Modifiers Suffix Arg isIntegerConversion Ascii.eqb Bool.eqb
       orb andb negb bind String.eqb].
  rewrite E4. cbn [bind conversion Modifiers Suffix Arg].
  eexists. split; [reflexivity|]. cbn [conversion Modifiers Arg].
  split; [reflexivity|]. split; [vm_compute; reflexivity|].
  rewrite V4. apply cast_of_int; assumption.
Qed.

(** X25: the cast [munge] puts on the argument of a conversion.  For [d],
    [i], [u], [x], [X] and [o] an integer argument is converted to the type
    the length modifiers name ([ll], [l], [z]: 8 bytes; [hh]: 1; [h]: 2;
    none: 4), signed for [d] and [i] and unsigned for the others, so the
    value printed is the stored pattern wrapped into that type; for a [p]
    without modifiers the argument is converted to 8 bytes unsigned and
    printed with [%016x]. *)
Theorem munge_casts_argument c ctx v :
  Expression_Value VG FG (Arg c) ctx = Ret v -> IsInt v = true ->
  ((isIntegerConversion (conversion c) || Ascii.eqb (conversion c) "i") = true ->
   let ty := mkIntType (castSize (Modifiers c))
               (Ascii.eqb (conversion c) "d" || Ascii.eqb (conversion c) "i") in
   exists c', munge VG FG nilCtx c = Ret c' /\
              Expression_Value VG FG (Arg c') ctx = Ret (newValueIntCast v ty) /\
              intVal (newValueIntCast v ty) = encode ty (intVal v)) /\
  (conversion c = "p"%char -> Modifiers c = "" ->
   exists c', munge VG FG nilCtx c = Ret c' /\
              conversion c' = "x"%char /\ Modifiers c' = "016" /\
              Expression_Value VG FG (Arg c') ctx
              = Ret (newValueIntCast v (mkIntType 8 false))).
Proof.
  intros Ev Iv. split.
  - intros I ty. destruct (munge_integer_arg c ctx v Ev Iv I) as (c' & M & A).
    exists c'. split; [exact M|]. split; [exact A|].
    apply newValueIntCast_intVal. apply castSize_valid.
  - apply munge_pointer_arg; assumption.
Qed.

Lemma munge_suffix c c' : munge VG FG nilCtx c = Ret c' -> Suffix c' = Suffix c.
Proof.
  intros M. destruct (munge_shape c) as (c2 & M2 & S2 & _).
  rewrite M in M2. injection M2 as <-. exact S2.
Qed.

Lemma mungeBody_decreases callback format out args arg format' out' args' arg' :
  (forall cb, callback = Some cb ->
     forall c, (countByte "%" (Suffix (cb c)) <= countByte "%" (Suffix c))%nat) ->
  mungeBody VG FG nilCtx callback format out args arg
  = Ret (MungeContinue format' out' args' arg') ->
  (countByte "%" format' < countByte "%" format)%nat.
Proof.
  intros Hcb. unfold mungeBody, IndexRune.
  destruct (Z.eqb_spec (IndexByte format "%") (-1)) as [E|E]; [discriminate|].
  intros H. unbind H as pre Ep. unbind H as f1 E1.
  apply strFrom_inv in E1. destruct E1 as [_ ->].
  pose proof (countByte_after_index "%" format E) as C1.
  set (f1 := drop (Z.to_nat (IndexByte format "%" + 1)) format) in *.
  destruct (IndexAny f1 conversionSpecifiers =? -1); [discriminate|].
  unbind H as c Ec. unbind H as mods Em. unbind H as f2 E2.
  apply strFrom_inv in E2. destruct E2 as [_ ->].
  pose proof (countByte_drop "%" (Z.to_nat (IndexAny f1 conversionSpecifiers + 1)) f1) as C2.
  set (f2 := drop (Z.to_nat (IndexAny f1 conversionSpecifiers + 1)) f1) in *.
  destruct (Ascii.eqb c "%" && String.eqb mods ""); [injection H as <- _ _ _; lia|].
  unbind H as o2 Eo. unbind H as a Ea.
  unbind H as cv Ec2. unbind H as args2 Es. injection H as <- _ _ _.
  rewrite (munge_suffix _ _ Ec2).
  destruct callback as [cb|].
  - pose proof (Hcb cb eq_refl (mkConversion c mods f2 a)) as C3.
    cbn [Suffix] in C3. lia.
  - cbn [Suffix]. lia.
Qed.

Lemma mungeLoop_fuel fuel callback format out args arg :
  (forall cb, callback = Some cb ->
     forall c, (countByte "%" (Suffix (cb c)) <= countByte "%" (Suffix c))%nat) ->
  (countByte "%" format < fuel)%nat ->
  mungeLoop VG FG nilCtx fuel callback format out args arg <> None.
Proof.
  intros Hcb. revert format out args arg.
  induction fuel as [|fuel IH]; intros format out args arg L; [lia|].
  cbn [mungeLoop]. destruct (String.eqb format ""); [discriminate|].
  destruct (mungeBody VG FG nilCtx callback format out args arg)
    as [[format' out' args' arg'|out' args']|msg] eqn:B; try discriminate.
  apply IH. apply (mungeBody_decreases _ _ _ _ _ _ _ _ _ Hcb) in B. lia.
Qed.

(** X26: [mungeConversions] comes to an end, with a result or a panic,
    when it is called without a callback or with the callback of package
    ftrace, although that callback can make the rest of the format longer:
    every pass of the loop uses up a [%] of the format and neither callback
    adds one, so one more pass than the format has [%] bytes is enough. *)
Theorem mungeConversions_terminates fuel format args callback :
  callback = None \/ callback = Some mungePrintfConversions ->
  (countByte "%" format < fuel)%nat ->
  mungeConversions VG FG nilCtx fuel format args callback <> None.
Proof.
  intros C L. unfold mungeConversions. apply mungeLoop_fuel; [|exact L].
  intros cb E c. destruct C as [->| ->]; [discriminate|].
  injection E as <-. apply mungePrintfConversions_suffix.
Qed.

Lemma scan_percent pre tail :
  IndexByte pre "%" = -1 ->
  IndexRune (pre ++ String "%" tail) "%" = strlen pre /\
  strSlice (pre ++ String "%" tail) 0 (strlen pre + 1) = Ret (pre ++ "%") /\
  strFrom (pre ++ String "%" tail) (strlen pre + 1) = Ret tail.
Proof.
  intros P. split; [apply IndexByte_app_found; exact P|].
  assert (E : pre ++ String "%" tail = (pre ++ "%") ++ tail)
    by (rewrite append_assoc'; reflexivity).
  assert (L : strlen pre + 1 = strlen (pre ++ "%")).
  { unfold strlen. rewrite length_append. cbn [String.length]. lia. }
  rewrite E, L. split; [apply strSlice_prefix|apply strFrom_app].
Qed.

Lemma strlen_not_minus_one s : (strlen s =? -1) = false.
Proof. unfold strlen. apply Z.eqb_neq. lia. Qed.

(** X27: the edges of [mungeConversions].  A format without [%] is returned
    as it is, with the arguments untouched.  A [%] that no conversion
    character follows ends the format: what follows it is reported in the
    output as a missing conversion ([%X] is one, [X] not being in the list
    of conversion characters).  A conversion other than [%%] for which no
    argument is left panics with an index out of range. *)
Theorem mungeConversions_edges callback fuel args :
  (forall format, IndexByte format "%" = -1 ->
     mungeConversions VG FG nilCtx (S fuel) format args callback
     = Some (Ret (format, args))) /\
  (forall pre tail,
     IndexByte pre "%" = -1 -> IndexAny tail conversionSpecifiers = -1 ->
     mungeConversions VG FG nilCtx (S fuel) (pre ++ String "%" tail) args callback
     = Some (Ret ((pre ++ "%") ++ "MISSING CONVERSION(" ++ tail ++ ")", args))) /\
  (forall pre mods c rest,
     IndexByte pre "%" = -1 -> IndexAny mods conversionSpecifiers = -1 ->
     IndexByte conversionSpecifiers c <> -1 ->
     c <> "%"%char \/ mods <> "" ->
     mungeConversions VG FG nilCtx (S fuel) (pre ++ String "%" (mods ++ String c rest))
       [] callback
     = Some (Panic indexPanic)).
Proof.
  unfold mungeConversions. split; [|split].
  - intros format P. cbn [mungeLoop].
    destruct (String.eqb_spec format "") as [->|N]; [reflexivity|].
    unfold mungeBody, IndexRune. rewrite P. reflexivity.
  - intros pre tail P T. cbn [mungeLoop].
    destruct (String.eqb_spec (pre ++ String "%" tail) "") as [E|_];
      [destruct pre; discriminate E|].
    unfold mungeBody. destruct (scan_percent pre tail P) as (I & S1 & S2).
    rewrite I, strlen_not_minus_one, S1. cbn [bind]. rewrite S2. cbn [bind].
    rewrite T. reflexivity.
  - intros pre mods c rest P M C N. cbn [mungeLoop].
    destruct (String.eqb_spec (pre ++ String "%" (mods ++ String c rest)) "") as [E|_];
      [destruct pre; discriminate E|].
    unfold mungeBody.
    destruct (scan_percent pre (mods ++ String c rest) P) as (I & S1 & S2).
    rewrite I, strlen_not_minus_one, S1. cbn [bind]. rewrite S2. cbn [bind].
    rewrite (IndexAny_app_found mods conversionSpecifiers c rest M C).
    rewrite strlen_not_minus_one, strIndex_app. cbn [bind].
    rewrite strSlice_prefix. cbn [bind].
    assert (F : strFrom (mods ++ String c rest) (strlen mods + 1) = Ret rest).
    { replace (mods ++ String c rest) with ((mods ++ String c "") ++ rest)
        by (rewrite append_assoc'; reflexivity).
      replace (strlen mods + 1) with (strlen (mods ++ String c ""))
        by (unfold strlen; rewrite length_append; cbn [String.length]; lia).
      apply strFrom_app. }
    rewrite F. cbn [bind].
    assert (B : Ascii.eqb c "%" && String.eqb mods "" = false).
    { destruct N as [N|N].
      - destruct (Ascii.eqb_spec c "%"); [contradiction|reflexivity].
      - destruct (String.eqb_spec mods ""); [contradiction|apply andb_false_r]. }
    rewrite B.
    destruct (TrimLeft mods validModifiers) as [|t0 tr] eqn:Tm; cbn [String.eqb negb bind].
    + reflexivity.
    + unfold strIndex, strlen. cbn [String.length String.get Z.to_nat].
      destruct (Z.ltb_spec 0 (Z.of_nat (S (String.length tr)))); [|lia].
      cbn [Z.leb andb bind]. reflexivity.
Qed.

End Munging.

Lemma mungeConversions_terminates_witness :
  mungeConversions (EvalContext := unit)
    (fun _ _ => Ret zeroValue) (fun _ _ _ => Ret zeroValue) tt 3
    "ip=%pK n=%d" [constantExpression None (NewValueInt 1 8 false);
                   constantExpression None (NewValueInt 2 4 true)]
    (Some mungePrintfConversions) <> None.
Proof.
  apply mungeConversions_terminates.
  - right. reflexivity.
  - vm_compute. lia.
Defined.

Lemma munge_casts_argument_witness :
  exists c',
    munge (EvalContext := unit) (fun _ _ => Ret zeroValue) (fun _ _ _ => Ret zeroValue) tt
      (mkConversion "u" "hh" "" (constantExpression None (NewValueInt 511 4 true)))
    = Ret c' /\
    Expression_Value (fun _ _ => Ret zeroValue) (fun _ _ _ => Ret zeroValue) (Arg c') tt
    = Ret (newValueIntCast (NewValueInt 511 4 true) (mkIntType 1 false)) /\
    intVal (newValueIntCast (NewValueInt 511 4 true) (mkIntType 1 false))
    = encode (mkIntType 1 false) 511.
Proof.
  exact (proj1 (munge_casts_argument (EvalContext := unit)
                  (fun _ _ => Ret zeroValue) (fun _ _ _ => Ret zeroValue) tt
                  (mkConversion "u" "hh" "" (constantExpression None (NewValueInt 511 4 true)))
                  tt (NewValueInt 511 4 true) eq_refl eq_refl) eq_refl).
Defined.

End CprintfFacts.

(** ** Facts about reading a format description *)

Module FormatFacts.
Import Go Cparse Spec Ftrace Fixtures Strings Kernel Format SpecEvent.
Import CparseFacts FtraceFacts EventFacts CprintfFacts.

Section Parsing.
Context (TrimSpace : string -> string).
Context (Atoi : string -> Z * option string).
Context (ParseBool : string -> bool * option string).
Context (parsePrintFmt : string -> outcome (option string)).

Lemma nonNeg_setId et n : nonNegFields et -> nonNegFields (setId et n).
Proof. intros H. exact H. Qed.





Lemma strFrom_bounds s lo s' : strFrom s lo = Ret s' ->
  0 <= lo <= strlen s /\ s' = drop (Z.to_nat lo) s.
Proof.
  intros H. destruct (strFrom_inv s lo s' H) as [P E]. split; [|exact E].
  unfold strFrom, strSlice in H.
  destruct (Z.leb_spec 0 lo); cbn [andb] in H; [|discriminate].
  destruct (Z.leb_spec lo (strlen s)); cbn [andb] in H; [lia|discriminate].
Qed.

Lemma strSlice_all s : strSlice s 0 (strlen s) = Ret s.
Proof.
  unfold strSlice, strlen.
  destruct (Z.leb_spec 0 (Z.of_nat (String.length s))); [|lia].
  destruct (Z.leb_spec (Z.of_nat (String.length s)) (Z.of_nat (String.length s))); [|lia].
  cbn [Z.leb andb Z.to_nat drop].
  rewrite Z.sub_0_r, Nat2Z.id, take_all by lia. reflexivity.
Qed.

Lemma strFrom_past s : strFrom s (strlen s + 1) = Panic boundsPanic.
Proof.
  unfold strFrom, strSlice.
  destruct (Z.leb_spec 0 (strlen s + 1)); [|unfold strlen in *; lia].
  destruct (Z.leb_spec (strlen s + 1) (strlen s)); [lia|]. reflexivity.
Qed.

Lemma line_without_newline n et format :
  IndexByte format newline = -1 ->
  parseFormatLine TrimSpace Atoi ParseBool parsePrintFmt n et format
  = Panic boundsPanic.
Proof.
  intros I. unfold parseFormatLine, IndexRune. rewrite I. cbn [Z.eqb].
  rewrite strSlice_all. cbn [bind]. rewrite strFrom_past. reflexivity.
Qed.

Lemma scan_line line rest :
  IndexByte line newline = -1 ->
  IndexRune (line ++ String newline rest) newline = strlen line /\
  strSlice (line ++ String newline rest) 0 (strlen line) = Ret line /\
  strFrom (line ++ String newline rest) (strlen line + 1) = Ret rest.
Proof.
  intros P. split; [apply IndexByte_app_found; exact P|].
  split; [apply strSlice_prefix|].
  replace (line ++ String newline rest) with ((line ++ String newline "") ++ rest)
    by (rewrite append_assoc'; reflexivity).
  replace (strlen line + 1) with (strlen (line ++ String newline ""))
    by (unfold strlen; rewrite length_append; cbn [String.length]; lia).
  apply strFrom_app.
Qed.

Lemma line_with_unknown_key n et k v rest :
  IndexByte k ":" = -1 -> IndexByte (k ++ String ":" v) newline = -1 ->
  knownKey (TrimSpace k) = false ->
  parseFormatLine TrimSpace Atoi ParseBool parsePrintFmt n et
    ((k ++ String ":" v) ++ String newline rest)
  = Ret (FormatContinue et rest).
Proof.
  intros C L K. unfold parseFormatLine.
  destruct (scan_line (k ++ String ":" v) rest L) as (I & S1 & S2).
  rewrite I, strlen_not_minus_one, S1. cbn [bind]. rewrite S2. cbn [bind].
  destruct (String.eqb_spec (k ++ String ":" v) "") as [E|_];
    [destruct k; discriminate E|].
  unfold IndexRune. rewrite (IndexByte_app_found k ":" v C), strlen_not_minus_one.
  rewrite strSlice_prefix. cbn [bind].
  replace (k ++ String ":" v) with ((k ++ String ":" "") ++ v)
    by (rewrite append_assoc'; reflexivity).
  replace (strlen k + 1) with (strlen (k ++ String ":" ""))
    by (unfold strlen; rewrite length_append; cbn [String.length]; lia).
  rewrite strFrom_app. cbn [bind].
  unfold knownKey in K.
  apply orb_false_elim in K. destruct K as [K K5].
  apply orb_false_elim in K. destruct K as [K K4].
  apply orb_false_elim in K. destruct K as [K K3].
  apply orb_false_elim in K. destruct K as [K1 K2].
  rewrite K1, K2, K3, K4, K5. reflexivity.
Qed.

Lemma parseFormatLine_shorter n et format et' format' :
  parseFormatLine TrimSpace Atoi ParseBool parsePrintFmt n et format
  = Ret (FormatContinue et' format') ->
  (String.length format' < String.length format)%nat.
Proof.
  unfold parseFormatLine. intros H.
  unbind H as line El. unbind H as f1 E1.
  apply strFrom_bounds in E1. destruct E1 as [B ->].
  set (eol := if IndexRune format newline =? -1 then strlen format
              else IndexRune format newline) in *.
  assert (G : 0 <= eol).
  { subst eol. destruct (Z.eqb_spec (IndexRune format newline) (-1)) as [E|E].
    - unfold strlen; lia.
    - pose proof (IndexByte_ge format newline). unfold IndexRune in *. lia. }
  set (f1 := drop (Z.to_nat (eol + 1)) format) in *.
  assert (Lf : (String.length f1 < String.length format)%nat).
  { subst f1. rewrite length_drop. unfold strlen in *. lia. }
  destruct (String.eqb line ""); [injection H as _ <-; exact Lf|].
  destruct (IndexRune line ":" =? -1); [discriminate|].
  unbind H as k Ek. unbind H as v Ev.
  destruct (String.eqb (TrimSpace k) "name" || String.eqb (TrimSpace k) "format");
    [injection H as _ <-; exact Lf|].
  destruct (String.eqb (TrimSpace k) "ID").
  { destruct (Atoi (TrimSpace v)) as [i [e|]]; [discriminate|].
    injection H as _ <-; exact Lf. }
  destruct (String.eqb (TrimSpace k) "field").
  { unbind H as pf Epf. destruct pf as [et2 [e|]]; [discriminate|].
    injection H as _ <-; exact Lf. }
  destruct (String.eqb (TrimSpace k) "print fmt").
  { unbind H as pp Epp. destruct pp as [e|]; [discriminate|].
    injection H as _ <-; exact Lf. }
  injection H as _ <-. exact Lf.
Qed.

Lemma parseFormatLoop_fuel fuel n et format :
  (String.length format < fuel)%nat ->
  parseFormatLoop TrimSpace Atoi ParseBool parsePrintFmt fuel n et format <> None.
Proof.
  revert n et format. induction fuel as [|fuel IH]; intros n et format L; [lia|].
  cbn [parseFormatLoop]. destruct (String.eqb format ""); [discriminate|].
  destruct (parseFormatLine TrimSpace Atoi ParseBool parsePrintFmt (n + 1) et format)
    as [[et2 f2|et2 e2]|msg] eqn:B; try discriminate.
  apply IH. apply parseFormatLine_shorter in B. lia.
Qed.

(** X29: the edges of [parseFormatData].  It always comes to an end.  A
    description whose last line does not end in a newline makes it panic
    on the slice expression that steps over the newline, whatever the line
    holds; this is shown for a description of one such line.  A line with
    a key it does not know is skipped like an empty line: the error made
    for it is never returned. *)
Theorem parseFormatData_edges fuel et :
  (forall n format, (String.length format < fuel)%nat ->
     parseFormatLoop TrimSpace Atoi ParseBool parsePrintFmt fuel n et format <> None) /\
  (forall formatbytes,
     string_of_list_byte formatbytes <> "" ->
     IndexByte (string_of_list_byte formatbytes) newline = -1 ->
     parseFormatData TrimSpace Atoi ParseBool parsePrintFmt (S fuel) et formatbytes
     = Some (Panic boundsPanic)) /\
  (forall n k v rest,
     IndexByte k ":" = -1 -> IndexByte (k ++ String ":" v) newline = -1 ->
     knownKey (TrimSpace k) = false ->
     parseFormatLoop TrimSpace Atoi ParseBool parsePrintFmt (S fuel) n et
       ((k ++ String ":" v) ++ String newline rest)
     = parseFormatLoop TrimSpace Atoi ParseBool parsePrintFmt fuel (n + 1) et rest).
Proof.
  split; [|split].
  - intros n format L. apply parseFormatLoop_fuel. exact L.
  - intros formatbytes N I. unfold parseFormatData. cbn [parseFormatLoop].
    destruct (String.eqb_spec (string_of_list_byte formatbytes) ""); [contradiction|].
    rewrite line_without_newline by exact I. reflexivity.
  - intros n k v rest C L K. cbn [parseFormatLoop].
    destruct (String.eqb_spec ((k ++ String ":" v) ++ String newline rest) "") as [E|_];
      [destruct k; discriminate E|].
    rewrite line_with_unknown_key by assumption. reflexivity.
Qed.

End Parsing.


End FormatFacts.

(** ** More facts about the path check *)

Module PathFacts.
Import Go Ftrace Strings.

Lemma Split_no_sep c s : IndexByte s c = -1 -> Split c s = [s].
Proof.
  induction s as [|a r IH]; cbn [IndexByte Split]; [reflexivity|].
  destruct (Ascii.eqb a c); [discriminate|].
  destruct (Z.eqb_spec (IndexByte r c) (-1)) as [E|E].
  - intros _. rewrite (IH E). reflexivity.
  - pose proof (CprintfFacts.IndexByte_ge r c). intros A. lia.
Qed.

Lemma SafeFtracePath_single p :
  IndexByte p ":" = -1 -> SafeFtracePath p = negb (String.eqb p "..").
Proof.
  intros I. unfold SafeFtracePath, SplitList.
  destruct (String.eqb_spec p "") as [->|N]; [reflexivity|].
  rewrite (Split_no_sep ":" p I). cbn [forallb]. apply andb_true_r.
Qed.

(** X30: on a path without a colon [SafeFtracePath] compares the whole path
    with [..]: every other path is accepted, whatever its components are,
    and the three provider calls pass it on to the file system under the
    tracing directory. *)
Theorem SafeFtracePath_without_colon p data :
  IndexByte p ":" = -1 ->
  SafeFtracePath p = negb (String.eqb p "..") /\
  (p <> ".." ->
   ReadFtraceFile p = FileSystem (ReadFile ftracePath p) /\
   WriteFtraceFile p data = FileSystem (WriteFile ftracePath p data) /\
   OpenFtrace p = FileSystem (Open ftracePath p)).
Proof.
  intros I. pose proof (SafeFtracePath_single p I) as S. split; [exact S|].
  intros N. unfold ReadFtraceFile, WriteFtraceFile, OpenFtrace. rewrite S.
  destruct (String.eqb_spec p ".."); [contradiction|]. auto.
Qed.

Lemma SafeFtracePath_without_colon_witness :
  SafeFtracePath "events/../../../../proc/kcore" = true /\
  OpenFtrace "events/../../../../proc/kcore"
  = FileSystem (Open ftracePath "events/../../../../proc/kcore").
Proof.
  pose proof (SafeFtracePath_without_colon "events/../../../../proc/kcore" []
                eq_refl) as (S & F).
  split; [exact S|]. apply F. discriminate.
Defined.

End PathFacts.
